(** * Delta-Image-Archive: the encoder (encode.py)

    A shallow embedding of the encoder's disjoint-set structure, similarity
    scorer, spanning-forest and dependency-graph construction, diff encoder
    and two-phase driver, followed by the properties proved about them. *)

From Stdlib Require Import ZArith Lia Permutation Sorted.
From stdpp Require Import ssreflect.
From stdpp Require Import base gmap sets list strings.

Open Scope Z_scope.
#[local] Set Warnings "-clear-no-such-hyp".

(** ** Results of fallible code *)

(** A Python call either returns, raises an exception that nothing catches
    (KeyError on a missing dict key, ValueError from [min] of an empty list,
    RecursionError from a call nested too deeply, OSError from a file that
    cannot be copied), or, for the two [while] loops, needs more iterations
    than the model was given. *)
Inductive outcome (A : Type) : Type :=
  | Ok (a : A)
  | Raised
  | OutOfFuel.
Arguments Ok {A} a.
Arguments Raised {A}.
Arguments OutOfFuel {A}.

Definition obind {A B} (m : outcome A) (f : A → outcome B) : outcome B :=
  match m with
  | Ok a => f a
  | Raised => Raised
  | OutOfFuel => OutOfFuel
  end.

Notation "'try!' x := m 'in' k" := (obind m (fun x => k))
  (at level 10, x pattern, m at level 100, k at level 200).

(** [d[k]] on a dict. *)
Definition getitem {K V} `{Countable K} (d : gmap K V) (k : K) : outcome V :=
  match d !! k with
  | Some v => Ok v
  | None => Raised
  end.

(** ** DisjointSetUnion

    encode.py names frame [i] by the decimal string [str(i)]; the algorithm
    only compares identifiers for equality and uses them as dict keys, so the
    index itself stands for the string. *)

Module DSU.

(** [__init__]: [{item: item for item in items}] *)
Definition init (items : list nat) : gmap nat nat :=
  list_to_map ((fun i => (i, i)) <$> items).

(** [find]. The function calls itself once per link of the parent chain,
    and Python allows only so many nested calls: [depth] is the number of
    nested calls of [find] that the interpreter still allows where [find]
    is entered, and the call that would go one deeper raises
    RecursionError, which nothing in encode.py catches. The path
    compression write [self.parent[item] = self.find(...)] is threaded
    through the returned map; it happens after the inner call has
    returned, so a call that raises has written nothing. *)
Fixpoint find (depth : nat) (parent : gmap nat nat) (item : nat)
  : outcome (gmap nat nat * nat) :=
  match depth with
  | O => Raised
  | S depth' =>
    match parent !! item with
    | None => Raised
    | Some p =>
      if decide (p = item) then Ok (parent, item)
      else
        try! (parent', r) := find depth' parent p in
        Ok (<[item := r]> parent', r)
    end
  end.

(** [union] *)
Definition union (depth : nat) (parent : gmap nat nat) (item1 item2 : nat)
  : outcome (gmap nat nat * bool) :=
  try! (parent1, root1) := find depth parent item1 in
  try! (parent2, root2) := find depth parent1 item2 in
  if decide (root1 ≠ root2) then Ok (<[root2 := root1]> parent2, true)
  else Ok (parent2, false).

(** The chain of parent links from an item up to its representative; the
    list holds the items strictly below the representative. *)
Inductive path_to_root (parent : gmap nat nat) : nat → list nat → nat → Prop :=
  | ptr_root x :
      parent !! x = Some x → path_to_root parent x [] x
  | ptr_step x y l r :
      parent !! x = Some y → y ≠ x → path_to_root parent y l r →
      path_to_root parent x (x :: l) r.

Definition repr (parent : gmap nat nat) (x r : nat) : Prop :=
  ∃ l, path_to_root parent x l r.

(** Forest invariant: every item's parent chain ends in a self-loop, so the
    only cycles of the parent map are the self-loops at representatives. *)
Definition forest (parent : gmap nat nat) : Prop :=
  ∀ x, is_Some (parent !! x) → ∃ r, repr parent x r.

(** A cycle of parent links through [x] that is not a self-loop. *)
Inductive climbs (parent : gmap nat nat) : nat → nat → Prop :=
  | climbs_one x y : parent !! x = Some y → y ≠ x → climbs parent x y
  | climbs_more x y z :
      parent !! x = Some y → y ≠ x → climbs parent y z → climbs parent x z.

(** What [find] does to the parent map: the items on the chain are
    re-pointed to the representative, nothing else changes. *)
Definition compressed (p : gmap nat nat) (l : list nat) (r : nat)
    (p' : gmap nat nat) : Prop :=
  ∀ z, p' !! z = if decide (z ∈ l) then Some r else p !! z.

(** The operations of the class, and the states reached from [init] by
    calls that return. *)
Inductive op : Type :=
  | OpFind (item : nat)
  | OpUnion (item1 item2 : nat).

Definition run_op (depth : nat) (parent : gmap nat nat) (o : op)
  : outcome (gmap nat nat) :=
  match o with
  | OpFind x => try! (p, _) := find depth parent x in Ok p
  | OpUnion x y => try! (p, _) := union depth parent x y in Ok p
  end.

Inductive reachable (depth : nat) (items : list nat) : gmap nat nat → Prop :=
  | reach_init : reachable depth items (init items)
  | reach_op p o p' :
      reachable depth items p → run_op depth p o = Ok p' →
      reachable depth items p'.

End DSU.

(** ** print_progress_bar

    [s * n] on a string gives the empty string for [n <= 0]. *)
Fixpoint str_repeat (s : string) (n : nat) : string :=
  match n with
  | O => ""
  | S n' => s +:+ str_repeat s n'
  end.

Definition str_mul (s : string) (n : Z) : string := str_repeat s (Z.to_nat n).

(** The bar between the two [|] of the line printed, and whether the closing
    [print()] runs. Every call in encode.py passes integers, for which
    [int(length * iteration // total)] is the floor division itself. The
    percentage shown beside the bar is formatted floating point and is not
    part of the model. *)
Definition print_progress_bar (iteration total length : Z) (fill : string)
  : string * bool :=
  let total := if decide (total = 0) then 1 else total in
  let filled_length := (length * iteration) `div` total in
  let bar := str_mul fill filled_length +:+ str_mul "-" (length - filled_length) in
  (bar, bool_decide (iteration = total)).

(** ** Images: the part of Pillow and NumPy the encoder uses *)

Module PIL.

(** A decoded 8-bit image: a rectangle of pixels addressed by column and
    row. *)
Record raster (P : Type) : Type := Raster {
  width : nat;
  height : nat;
  pixel : nat → nat → P
}.
Arguments Raster {P} _ _ _.
Arguments width {P} _.
Arguments height {P} _.
Arguments pixel {P} _ _ _.

Abbreviation rgb := (Z * Z * Z)%type (only parsing).
Abbreviation rgba := (Z * Z * Z * Z)%type (only parsing).

(** The image modes covered: 8-bit gray, RGB, and RGB with alpha. *)
Inductive mode : Type := L | RGB | RGBA.

#[global] Instance mode_eq_dec : EqDecision mode.
Proof. solve_decision. Defined.

Inductive image : Type :=
  | ImL (r : raster Z)
  | ImRGB (r : raster rgb)
  | ImRGBA (r : raster rgba).

Definition mode_of (im : image) : mode :=
  match im with ImL _ => L | ImRGB _ => RGB | ImRGBA _ => RGBA end.

Definition size_of (im : image) : nat * nat :=
  match im with
  | ImL r => (width r, height r)
  | ImRGB r => (width r, height r)
  | ImRGBA r => (width r, height r)
  end.

Definition map_raster {P Q} (f : P → Q) (r : raster P) : raster Q :=
  Raster (width r) (height r) (fun x y => f (pixel r x y)).

(** Pillow's RGB to L conversion (ITU-R 601-2 luma in 16.16 fixed point,
    rounded): [(r*19595 + g*38470 + b*7471 + 0x8000) >> 16]. *)
Definition luma (c : rgb) : Z :=
  let '(r, g, b) := c in
  Z.shiftr (r * 19595 + g * 38470 + b * 7471 + 32768) 16.

Definition drop_alpha (c : rgba) : rgb := let '(r, g, b, _) := c in (r, g, b).
Definition opaque (c : rgb) : rgba := let '(r, g, b) := c in (r, g, b, 255).
Definition gray_rgb (l : Z) : rgb := (l, l, l).

(** [im.convert('RGB')] *)
Definition convert_RGB (im : image) : raster rgb :=
  match im with
  | ImL r => map_raster gray_rgb r
  | ImRGB r => r
  | ImRGBA r => map_raster drop_alpha r
  end.

(** [im.convert('L')] *)
Definition convert_L (im : image) : raster Z :=
  match im with
  | ImL r => r
  | ImRGB r => map_raster luma r
  | ImRGBA r => map_raster (fun c => luma (drop_alpha c)) r
  end.

(** [im.convert('RGBA')] *)
Definition convert_RGBA (im : image) : raster rgba :=
  match im with
  | ImL r => map_raster (fun l => opaque (gray_rgb l)) r
  | ImRGB r => map_raster opaque r
  | ImRGBA r => r
  end.

Definition convert (m : mode) (im : image) : image :=
  match m with
  | L => ImL (convert_L im)
  | RGB => ImRGB (convert_RGB im)
  | RGBA => ImRGBA (convert_RGBA im)
  end.

(** [ImageChops.difference]: the absolute difference band by band, over
    the rectangle common to both operands. *)
Definition chop {P} (f : P → P → P) (a b : raster P) : raster P :=
  Raster (Nat.min (width a) (width b)) (Nat.min (height a) (height b))
         (fun x y => f (pixel a x y) (pixel b x y)).

Definition absdiff (a b : Z) : Z := Z.abs (a - b).

Definition absdiff_rgb (a b : rgb) : rgb :=
  let '(r1, g1, b1) := a in let '(r2, g2, b2) := b in
  (absdiff r1 r2, absdiff g1 g2, absdiff b1 b2).

Definition absdiff_rgba (a b : rgba) : rgba :=
  let '(r1, g1, b1, a1) := a in let '(r2, g2, b2, a2) := b in
  (absdiff r1 r2, absdiff g1 g2, absdiff b1 b2, absdiff a1 a2).

(** Operands of different modes do not match and the call raises. *)
Definition difference (a b : image) : option image :=
  match a, b with
  | ImL r1, ImL r2 => Some (ImL (chop absdiff r1 r2))
  | ImRGB r1, ImRGB r2 => Some (ImRGB (chop absdiff_rgb r1 r2))
  | ImRGBA r1, ImRGBA r2 => Some (ImRGBA (chop absdiff_rgba r1 r2))
  | _, _ => None
  end.

(** [im.putalpha(mask)]: raises unless the mask has the image's size. *)
Definition putalpha (im : raster rgba) (mask : raster Z) : option (raster rgba) :=
  if decide (width mask = width im ∧ height mask = height im) then
    Some (Raster (width im) (height im)
            (fun x y => let '(r, g, b, _) := pixel im x y in (r, g, b, pixel mask x y)))
  else None.

(** The coordinates of a raster in row-major order, and
    [np.count_nonzero] of the array of a gray image. *)
Definition coords {P} (r : raster P) : list (nat * nat) :=
  y ← seq 0 (height r); x ← seq 0 (width r); [(x, y)].

Definition count_nonzero (r : raster Z) : nat :=
  length (filter (fun c => pixel r c.1 c.2 ≠ 0) (coords r)).

Definition count_zero (r : raster Z) : nat :=
  length (filter (fun c => pixel r c.1 c.2 = 0) (coords r)).

End PIL.

(** ** The environment of a run

    What the encoder obtains from outside: decoding a file of the input
    directory ([None] when [Image.open] or a later load raises), Pillow's
    resampling filter, the on-disk size of a file, whether the PNG optimizer
    accepts a raster, whether the destination of a diff can be written,
    whether a frame can be copied to the output directory as it is
    ([os.makedirs] of the destination directory and [shutil.copy2], which
    fail on a source that cannot be read or a destination that cannot be
    written), and the number of nested calls of [find] the interpreter
    allows inside [main]: the recursion limit less the frames that are on
    the stack when [main] calls [union]. *)
Record env : Type := Env {
  open_image : string → option PIL.image;
  resample : nat * nat → PIL.image → option PIL.image;
  st_size : string → Z;
  png_ok : PIL.raster PIL.rgba → bool;
  writable : string → bool;
  copy_ok : string → bool;
  find_depth : nat
}.

(** With CPython's default recursion limit of 1000 and encode.py run as a
    script, the module, [main] and [union] are on the stack when [find] is
    entered. *)
Definition default_find_depth : nat := 997.

(** [img.resize(size)]: the requested size, the pixels of the filter. *)
Definition with_size (sz : nat * nat) (im : PIL.image) : PIL.image :=
  let resized {P} (r : PIL.raster P) := PIL.Raster sz.1 sz.2 (PIL.pixel r) in
  match im with
  | PIL.ImL r => PIL.ImL (resized r)
  | PIL.ImRGB r => PIL.ImRGB (resized r)
  | PIL.ImRGBA r => PIL.ImRGBA (resized r)
  end.

Definition resize (e : env) (sz : nat * nat) (im : PIL.image) : option PIL.image :=
  with_size sz <$> resample e sz im.

(** ** calculate_similarity_score *)

Definition normalize (e : env) (img1 img2 : PIL.image) : option PIL.image :=
  if decide (PIL.size_of img1 ≠ PIL.size_of img2 ∨ PIL.mode_of img1 ≠ PIL.mode_of img2)
  then PIL.convert (PIL.mode_of img1) <$> resize e (PIL.size_of img1) img2
  else Some img2.

Definition score_of_diff (diff : PIL.image) : Z :=
  let diff_arr := PIL.convert_L diff in
  let non_zero_pixels := Z.of_nat (PIL.count_nonzero diff_arr) in
  let total_pixels := Z.of_nat (PIL.height diff_arr) * Z.of_nat (PIL.width diff_arr) in
  total_pixels - non_zero_pixels.

Definition calculate_similarity_score (e : env) (img_path1 img_path2 : string) : Z :=
  match open_image e img_path1, open_image e img_path2 with
  | Some img1, Some img2 =>
    match normalize e img1 img2 with
    | Some img2' =>
      match PIL.difference img1 img2' with
      | Some diff => score_of_diff diff
      | None => -1
      end
    | None => -1
    end
  | _, _ => -1
  end.

(** ** process_image *)

(** The RGBA raster handed to the PNG optimizer: the child's colours with the
    binary difference mask as alpha. [None] when a step raises. *)
Definition diff_raster (img_current img_base : PIL.image) : option (PIL.raster PIL.rgba) :=
  let img_current_rgb := PIL.convert_RGB img_current in
  let img_base_rgb := PIL.convert_RGB img_base in
  let diff := PIL.chop PIL.absdiff_rgb img_current_rgb img_base_rgb in
  let mask :=
    PIL.map_raster (fun p => if decide (p > 0) then 255 else 0)
                   (PIL.convert_L (PIL.ImRGB diff)) in
  let sanitized_image := PIL.convert_RGBA (PIL.ImRGB img_current_rgb) in
  PIL.putalpha sanitized_image mask.

(** The files of the output directory. *)
Record manifest : Type := Manifest {
  image_map : gmap nat string;
  root_images : list nat;
  dependencies : gmap nat nat
}.

Inductive file : Type :=
  | RootCopy (src : string)
  | DiffPng (r : PIL.raster PIL.rgba)
  | ManifestJson (m : manifest).

(** Everything between [try] and [except]: [Some] is the file written,
    [None] stands for any exception on the way (a file that does not decode,
    rasters that do not match, a raster the optimizer refuses, a destination
    that cannot be created or opened). *)
Definition encode_diff (e : env) (current_img_path base_img_path output_path : string)
  : option file :=
  match open_image e current_img_path, open_image e base_img_path with
  | Some img_current, Some img_base =>
    match diff_raster img_current img_base with
    | Some rgba_array =>
      if png_ok e rgba_array && writable e output_path
      then Some (DiffPng rgba_array) else None
    | None => None
    end
  | _, _ => None
  end.

Definition process_image (e : env) (current_img_path base_img_path output_path : string)
    (tree : gmap string file) : bool * gmap string file :=
  match encode_diff e current_img_path base_img_path output_path with
  | Some f => (true, <[output_path := f]> tree)
  | None => (false, tree)
  end.

(** ** main: the order of the frames

    [stem_number f] stands for [int(Path(f).stem)], [None] when it raises
    ValueError. The keys of a [sort] are computed for the whole list before
    anything is moved, so a file name that is not a number leaves the list
    as it was found and the plain [sort()] of the [except] branch runs on
    it. *)
Fixpoint stem_keys (stem_number : string → option Z) (l : list string)
  : option (list (Z * string)) :=
  match l with
  | [] => Some []
  | f :: l' =>
    k ← stem_number f;
    rest ← stem_keys stem_number l';
    Some ((k, f) :: rest)
  end.

(** [sort(key=...)]: ascending by key, stable. *)
Fixpoint insert_keyed (x : Z * string) (l : list (Z * string)) : list (Z * string) :=
  match l with
  | [] => [x]
  | y :: l' => if decide (x.1 ≤ y.1) then x :: y :: l' else y :: insert_keyed x l'
  end.

(** [sort()]: ascending in the order of strings. *)
Fixpoint insert_path (x : string) (l : list string) : list string :=
  match l with
  | [] => [x]
  | y :: l' => if String.leb x y then x :: y :: l' else y :: insert_path x l'
  end.

Definition sort_frames (stem_number : string → option Z) (found : list string)
  : list string :=
  match stem_keys stem_number found with
  | Some keyed => (foldr insert_keyed [] keyed).*2
  | None => foldr insert_path [] found
  end.

(** ** main: discovery results and Phase 1 *)

(** A loop whose body may raise. *)
Fixpoint ofoldl {A B} (f : A → B → outcome A) (a : A) (l : list B) : outcome A :=
  match l with
  | [] => Ok a
  | b :: l' => try! a' := f a b in ofoldl f a' l'
  end.

(** [enumerate(image_paths_rel)] *)
Definition enumerate {A} (l : list A) : list (nat * A) := imap (fun i x => (i, x)) l.

(** [{path: str(i) for i, path in enumerate(image_paths_rel)}] *)
Definition make_path_to_id (image_paths_rel : list string) : gmap string nat :=
  foldl (fun d ip => <[ip.2 := ip.1]> d) ∅ (enumerate image_paths_rel).

(** [{str(i): path for i, path in enumerate(image_paths_rel)}] *)
Definition make_id_to_path (image_paths_rel : list string) : gmap nat string :=
  foldl (fun d ip => <[ip.1 := ip.2]> d) ∅ (enumerate image_paths_rel).

(** [id_to_path.keys()], in insertion order. *)
Definition frame_ids (image_paths_rel : list string) : list nat :=
  (enumerate image_paths_rel).*1.

(** [itertools.combinations(l, 2)] *)
Fixpoint combinations2 {A} (l : list A) : list (A * A) :=
  match l with
  | [] => []
  | x :: l' => (pair x <$> l') ++ combinations2 l'
  end.

Abbreviation scored := (Z * nat * nat)%type (only parsing).

(** The collecting loop over [as_completed]: [completed] lists the pairs in
    the order their futures finish. A failing lookup is caught by the
    [except] of the loop body and the pair is skipped. *)
Fixpoint collect_scores (e : env) (path_to_id : gmap string nat)
    (completed : list (string * string)) : list scored :=
  match completed with
  | [] => []
  | pr :: rest =>
    let score := calculate_similarity_score e pr.1 pr.2 in
    (if decide (score ≠ -1) then
       match path_to_id !! pr.1, path_to_id !! pr.2 with
       | Some id1, Some id2 => [(score, id1, id2)]
       | _, _ => []
       end
     else []) ++ collect_scores e path_to_id rest
  end.

(** [all_scores.sort(key=lambda x: x[0], reverse=True)]: descending by score,
    stable, so entries of equal score keep their relative order. *)
Fixpoint insert_score (x : scored) (l : list scored) : list scored :=
  match l with
  | [] => [x]
  | y :: l' =>
    if decide (y.1.1 ≤ x.1.1) then x :: y :: l' else y :: insert_score x l'
  end.

Definition sort_scores (l : list scored) : list scored := foldr insert_score [] l.

(** ** main: the spanning forest *)

(** [adjacency_list] is a [defaultdict(list)]. *)
Definition neighbors (adjacency_list : gmap nat (list nat)) (u : nat) : list nat :=
  default [] (adjacency_list !! u).

Definition append_neighbor (adjacency_list : gmap nat (list nat)) (u v : nat)
  : gmap nat (list nat) :=
  <[u := neighbors adjacency_list u ++ [v]]> adjacency_list.

Definition kruskal_step (depth : nat) (st : gmap nat nat * gmap nat (list nat))
    (s : scored) : outcome (gmap nat nat * gmap nat (list nat)) :=
  let '(parent, adjacency_list) := st in
  let '(_, u_id, v_id) := s in
  try! (parent', merged) := DSU.union depth parent u_id v_id in
  Ok (parent',
      if merged : bool
      then append_neighbor (append_neighbor adjacency_list u_id v_id) v_id u_id
      else adjacency_list).

Definition spanning_forest (depth : nat) (ids : list nat) (all_scores : list scored)
  : outcome (gmap nat nat * gmap nat (list nat)) :=
  ofoldl (kruskal_step depth) (DSU.init ids, ∅) all_scores.

(** ** main: roots and dependencies *)

(** The inner [for] of the first traversal. *)
Definition scan_neighbors (nbrs : list nat) (component_visited_ids : gset nat)
    (q : list nat) : gset nat * list nat :=
  foldl (fun st neighbor_id =>
           if decide (neighbor_id ∈ st.1) then st
           else ({[neighbor_id]} ∪ st.1, st.2 ++ [neighbor_id]))
        (component_visited_ids, q) nbrs.

(** The first [while q] loop; [fuel] bounds the number of iterations. *)
Fixpoint component_loop (fuel : nat) (adjacency_list : gmap nat (list nat))
    (q : list nat) (component_visited_ids : gset nat) (component_node_ids : list nat)
  : outcome (list nat) :=
  match q with
  | [] => Ok component_node_ids
  | node_id :: q' =>
    match fuel with
    | O => OutOfFuel
    | S fuel' =>
      let st := scan_neighbors (neighbors adjacency_list node_id) component_visited_ids q' in
      component_loop fuel' adjacency_list st.2 st.1 (component_node_ids ++ [node_id])
    end
  end.

(** [min(l, key=...)]: the first element whose key is least; raises on an
    empty list. *)
Fixpoint min_from {A} (key : A → Z) (best : A) (l : list A) : A :=
  match l with
  | [] => best
  | x :: l' => min_from key (if decide (key x < key best) then x else best) l'
  end.

Fixpoint stat_sizes (e : env) (id_to_path : gmap nat string) (l : list nat)
  : outcome (list (nat * Z)) :=
  match l with
  | [] => Ok []
  | nid :: l' =>
    try! path := getitem id_to_path nid in
    try! rest := stat_sizes e id_to_path l' in
    Ok ((nid, st_size e path) :: rest)
  end.

Definition optimal_root (e : env) (id_to_path : gmap nat string)
    (component_node_ids : list nat) : outcome nat :=
  try! keyed := stat_sizes e id_to_path component_node_ids in
  match keyed with
  | [] => Raised
  | k :: ks => Ok (min_from snd k ks).1
  end.

(** [visited_ids] is a set of which the code only tests membership and to
    which it only adds; it is kept as the list of its elements in the order
    they were added, which is the order of discovery. *)
Definition set_add (x : nat) (s : list nat) : list nat :=
  if decide (x ∈ s) then s else s ++ [x].

(** The inner [for] of the second traversal. *)
Definition visit_children (parent_id : nat) (children : list nat)
    (st : list nat * gmap nat nat * list nat) : list nat * gmap nat nat * list nat :=
  foldl (fun st child_id =>
           let '(visited_ids, dependencies_by_id, q) := st in
           if decide (child_id ∈ visited_ids) then st
           else (set_add child_id visited_ids,
                 <[child_id := parent_id]> dependencies_by_id,
                 q ++ [child_id]))
        st children.

(** The second [while q] loop. *)
Fixpoint assign_loop (fuel : nat) (adjacency_list : gmap nat (list nat))
    (q : list nat) (visited_ids : list nat) (dependencies_by_id : gmap nat nat)
  : outcome (list nat * gmap nat nat) :=
  match q with
  | [] => Ok (visited_ids, dependencies_by_id)
  | parent_id :: q' =>
    match fuel with
    | O => OutOfFuel
    | S fuel' =>
      let '(visited_ids', dependencies_by_id', q'') :=
        visit_children parent_id (neighbors adjacency_list parent_id)
                       (visited_ids, dependencies_by_id, q') in
      assign_loop fuel' adjacency_list q'' visited_ids' dependencies_by_id'
    end
  end.

(** The state of the outer loop: [root_image_ids], [dependencies_by_id],
    [visited_ids]. *)
Record graph_state : Type := GraphState {
  root_image_ids : list nat;
  dependencies_by_id : gmap nat nat;
  visited_ids : list nat
}.

(** The body of [for image_id in id_to_path.keys()]. Neither traversal pops
    more nodes than there are frames. *)
Definition build_component (e : env) (id_to_path : gmap nat string)
    (adjacency_list : gmap nat (list nat)) (st : graph_state) (image_id : nat)
  : outcome graph_state :=
  if decide (image_id ∈ visited_ids st) then Ok st
  else
    let fuel := size id_to_path in
    try! component_node_ids :=
      component_loop fuel adjacency_list [image_id] {[image_id]} [] in
    try! optimal_root_id := optimal_root e id_to_path component_node_ids in
    try! (visited', dependencies') :=
      assign_loop fuel adjacency_list [optimal_root_id]
                  (set_add optimal_root_id (visited_ids st)) (dependencies_by_id st) in
    Ok (GraphState (root_image_ids st ++ [optimal_root_id]) dependencies' visited').

Definition build_dependencies (e : env) (id_to_path : gmap nat string)
    (ids : list nat) (adjacency_list : gmap nat (list nat)) : outcome graph_state :=
  ofoldl (build_component e id_to_path adjacency_list) (GraphState [] ∅ []) ids.

(** [sorted(root_image_ids, key=int)] *)
Fixpoint insert_id (x : nat) (l : list nat) : list nat :=
  match l with
  | [] => [x]
  | y :: l' => if decide (x ≤ y)%nat then x :: y :: l' else y :: insert_id x l'
  end.

Definition sorted_ids (l : list nat) : list nat := foldr insert_id [] l.

(** ** main: Phase 2 and the archive *)

Definition manifest_name : string := "optimization_map.json".

(** The loop that copies every root. It runs outside any [try]: a lookup
    that fails, a directory that cannot be made or a root that cannot be
    copied ends the run with the exception. *)
Definition copy_roots (e : env) (id_to_path : gmap nat string) (roots : list nat)
    (tree : gmap string file) : outcome (gmap string file) :=
  ofoldl (fun tree root_id =>
            try! root_path_rel := getitem id_to_path root_id in
            if copy_ok e root_path_rel
            then Ok (<[root_path_rel := RootCopy root_path_rel]> tree)
            else Raised)
         tree roots.

(** The diff-encoding tasks, in the order [tasks] in which they run; each
    reads the source directory and writes its own destination. The state is
    the output directory and [processed_count]. *)
Definition encode_children (e : env) (id_to_path : gmap nat string)
    (tasks : list (nat * nat)) (st : gmap string file * nat)
  : outcome (gmap string file * nat) :=
  ofoldl (fun st task =>
            try! cpath := getitem id_to_path task.1 in
            try! ppath := getitem id_to_path task.2 in
            let '(ok, tree') := process_image e cpath ppath cpath st.1 in
            Ok (tree', if ok : bool then S st.2 else st.2))
         st tasks.

(** What a run leaves behind: the pairs handed to the scorer, the diff tasks
    run, the manifest written, and the archive. *)
Record run : Type := Run {
  scored_pairs : list (string * string);
  encode_tasks : list (nat * nat);
  written_manifest : option manifest;
  processed_count : nat;
  archive : option (gmap string file)
}.

Definition aborted : run := Run [] [] None 0 None.

(** Phase 1 and the graph construction, up to the manifest. *)
Record plan : Type := Plan {
  plan_scores : list scored;
  plan_adjacency : gmap nat (list nat);
  plan_graph : graph_state
}.

Definition make_plan (e : env) (image_paths_rel : list string)
    (completed : list (string * string)) : outcome plan :=
  let path_to_id := make_path_to_id image_paths_rel in
  let id_to_path := make_id_to_path image_paths_rel in
  let all_scores := sort_scores (collect_scores e path_to_id completed) in
  try! (_, adjacency_list) :=
    spanning_forest (find_depth e) (frame_ids image_paths_rel) all_scores in
  try! g := build_dependencies e id_to_path (frame_ids image_paths_rel) adjacency_list in
  Ok (Plan all_scores adjacency_list g).

Definition make_manifest (image_paths_rel : list string) (g : graph_state) : manifest :=
  Manifest (make_id_to_path image_paths_rel)
           (sorted_ids (root_image_ids g)) (dependencies_by_id g).

(** [main], after discovery has produced the sorted [image_paths_rel].
    [sched1] and [sched2] are the orders in which the two thread pools
    complete the work submitted to them. *)
Definition main (e : env) (image_paths_rel : list string)
    (sched1 : list (string * string) → list (string * string))
    (sched2 : list (nat * nat) → list (nat * nat)) : outcome run :=
  if decide (length image_paths_rel < 2)%nat then Ok aborted
  else
    let id_to_path := make_id_to_path image_paths_rel in
    let all_pairs := combinations2 image_paths_rel in
    let completed := sched1 all_pairs in
    try! p := make_plan e image_paths_rel completed in
    let g := plan_graph p in
    let map_data := make_manifest image_paths_rel g in
    let tree0 : gmap string file := {[ manifest_name := ManifestJson map_data ]} in
    try! tree1 := copy_roots e id_to_path (root_image_ids g) tree0 in
    let tasks := sched2 (map_to_list (dependencies_by_id g)) in
    try! (tree2, count) :=
      encode_children e id_to_path tasks (tree1, length (root_image_ids g)) in
    Ok (Run completed tasks (Some map_data) count (Some tree2)).

(** ** Vocabulary of the statements *)

(** Entries of the sorted score list are in descending order of score. *)
Fixpoint descending (l : list scored) : Prop :=
  match l with
  | [] => True
  | x :: l' => (∀ y, y ∈ l' → y.1.1 ≤ x.1.1) ∧ descending l'
  end.

(** A scored pair read as an undirected edge. *)
Definition joins (ed : scored) (u v : nat) : Prop :=
  (ed.1.2 = u ∧ ed.2 = v) ∨ (ed.1.2 = v ∧ ed.2 = u).

(** A walk along edges of [F], with the edges it uses. *)
Inductive walk (F : list scored) : nat → list scored → nat → Prop :=
  | walk_nil u : walk F u [] u
  | walk_cons u v w ed es :
      ed ∈ F → joins ed u v → walk F v es w → walk F u (ed :: es) w.

Definition connected (F : list scored) (u v : nat) : Prop := ∃ es, walk F u es v.

(** No cycle: a closed walk that repeats no edge is empty. *)
Definition acyclic (F : list scored) : Prop :=
  ∀ u es, walk F u es u → NoDup es → es = [].

(** The scored pairs whose edge was recorded in the adjacency list. *)
Definition forest_edges (adjacency_list : gmap nat (list nat)) (all_scores : list scored)
  : list scored :=
  filter (fun ed => ed.2 ∈ neighbors adjacency_list ed.1.2) all_scores.

(** Two items have the same representative. *)
Definition same_set (parent : gmap nat nat) (u v : nat) : Prop :=
  ∃ r, DSU.repr parent u r ∧ DSU.repr parent v r.

Definition is_root (parent : gmap nat nat) (x : nat) : Prop := parent !! x = Some x.

#[global] Instance is_root_dec parent x : Decision (is_root parent x).
Proof. unfold is_root. apply _. Defined.

(** The invariant of the loop that builds the spanning forest: [done] are the
    scores processed so far, [F] those whose union succeeded. *)
Record kruskal_inv (ids : list nat) (done : list scored)
    (parent : gmap nat nat) (adjacency_list : gmap nat (list nat))
    (F : list scored) : Prop := KruskalInv {
  ki_forest : DSU.forest parent;
  ki_dom : ∀ z, is_Some (parent !! z) ↔ z ∈ ids;
  ki_sets : ∀ z w, connected F z w ↔ z = w ∨ same_set parent z w;
  ki_adj : ∀ u v, v ∈ neighbors adjacency_list u ↔
                  ∃ s, (s, u, v) ∈ F ∨ (s, v, u) ∈ F;
  ki_nodup : NoDup F;
  ki_sub : ∀ ed, ed ∈ F → ed ∈ done;
  ki_acyclic : acyclic F;
  ki_span : ∀ ed, ed ∈ done → connected F ed.1.2 ed.2;
  ki_count : (length F + length (filter (is_root parent) ids) = length ids)%nat;
  ki_max : ∀ ed es ed', ed ∈ done → walk F ed.1.2 es ed.2 → NoDup es →
                        ed' ∈ es → ed.1.1 ≤ ed'.1.1
}.

(** Adjacency, reachability along adjacency lists, and the order of
    discovery. *)
Definition adjacent (adjacency_list : gmap nat (list nat)) (u v : nat) : Prop :=
  v ∈ neighbors adjacency_list u.

Definition reach (adjacency_list : gmap nat (list nat)) : nat → nat → Prop :=
  rtc (adjacent adjacency_list).

Definition discovered_before (order : list nat) (a b : nat) : Prop :=
  ∃ i j, order !! i = Some a ∧ order !! j = Some b ∧ (i < j)%nat.

(** [ancestor deps c a]: following parent entries from [c] arrives at [a]
    after at least one step. *)
Inductive ancestor (deps : gmap nat nat) : nat → nat → Prop :=
  | anc_parent c p : deps !! c = Some p → ancestor deps c p
  | anc_step c p a : deps !! c = Some p → ancestor deps p a → ancestor deps c a.

(** The chain of frames from a frame up to a frame without parent. *)
Inductive chain_to (deps : gmap nat nat) : nat → list nat → nat → Prop :=
  | chain_root r : deps !! r = None → chain_to deps r [r] r
  | chain_step c p l r :
      deps !! c = Some p → chain_to deps p l r → chain_to deps c (c :: l) r.

(** The on-disk size of a frame, the key of the root selection. *)
Definition frame_size (e : env) (id_to_path : gmap nat string) (x : nat) : Z :=
  from_option (st_size e) 0 (id_to_path !! x).

(** [r] is the first element of [l] whose key is least. *)
Definition first_min {A} (key : A → Z) (l : list A) (r : A) : Prop :=
  ∃ l1 l2, l = l1 ++ r :: l2 ∧
           (∀ y, y ∈ l1 → key r < key y) ∧ (∀ y, y ∈ l2 → key r ≤ key y).

(** The invariant of the first traversal, started at [s]. *)
Record component_inv (adjacency_list : gmap nat (list nat)) (ids : list nat) (s : nat)
    (q : list nat) (cv : gset nat) (comp : list nat) : Prop := ComponentInv {
  ci_members : ∀ x, x ∈ cv ↔ x ∈ comp ∨ x ∈ q;
  ci_nodup : NoDup (comp ++ q);
  ci_closed : ∀ x y, x ∈ comp → adjacent adjacency_list x y → y ∈ cv;
  ci_reach : ∀ x, x ∈ cv → reach adjacency_list s x;
  ci_start : s ∈ cv;
  ci_first : head (comp ++ q) = Some s;
  ci_ids : ∀ x, x ∈ cv → x ∈ ids
}.

(** The invariant of the second traversal and of the outer loop: [q] is the
    queue ([[]] between components). *)
Record assign_inv (e : env) (id_to_path : gmap nat string)
    (adjacency_list : gmap nat (list nat)) (ids : list nat)
    (roots : list nat) (q : list nat) (vis : list nat) (deps : gmap nat nat)
  : Prop := AssignInv {
  ai_nodup : NoDup vis;
  ai_ids : ∀ x, x ∈ vis → x ∈ ids;
  ai_queue : ∀ x, x ∈ q → x ∈ vis;
  ai_closed : ∀ x y, x ∈ vis → x ∉ q → adjacent adjacency_list x y → y ∈ vis;
  ai_deps : ∀ c p, deps !! c = Some p →
                   discovered_before vis p c ∧ adjacent adjacency_list p c;
  ai_cover : ∀ x, x ∈ vis → x ∈ roots ∨ is_Some (deps !! x);
  ai_roots : ∀ r, r ∈ roots → deps !! r = None ∧ r ∈ vis;
  ai_roots_nodup : NoDup roots;
  ai_rooted : ∀ x, x ∈ vis → ∃ r, r ∈ roots ∧ reach adjacency_list r x;
  ai_apart : ∀ r r', r ∈ roots → r' ∈ roots → reach adjacency_list r r' → r = r';
  ai_least : ∀ r, r ∈ roots →
     ∃ image_id comp,
       component_loop (size id_to_path) adjacency_list [image_id] {[image_id]} []
         = Ok comp ∧
       (∀ y, y ∈ comp ↔ reach adjacency_list r y) ∧
       (∀ y, reach adjacency_list r y → (image_id ≤ y)%nat) ∧
       first_min (frame_size e id_to_path) comp r
}.

(** The pairs of frames that Phase 1 keeps: [(s, u, v)] names an earlier
    frame [u] and a later frame [v] whose files the scorer gives the score
    [s], which is not the sentinel. *)
Definition valid_score (e : env) (image_paths_rel : list string) (ed : scored) : Prop :=
  (ed.1.2 < ed.2)%nat ∧
  ∃ p1 p2, image_paths_rel !! ed.1.2 = Some p1 ∧ image_paths_rel !! ed.2 = Some p2 ∧
           ed.1.1 = calculate_similarity_score e p1 p2 ∧ ed.1.1 ≠ -1.

(** Two frames are similar when their pair, taken earlier frame first, has a
    score that is not the sentinel; they are linked when a chain of similar
    frames leads from one to the other. *)
Definition similar (e : env) (image_paths_rel : list string) (u v : nat) : Prop :=
  ∃ s, valid_score e image_paths_rel (s, u, v) ∨ valid_score e image_paths_rel (s, v, u).

Definition linked (e : env) (image_paths_rel : list string) : nat → nat → Prop :=
  rtc (similar e image_paths_rel).


Definition encoded_or (e : env) (tree : gmap string file) (cp pp : string) : option file :=
  match encode_diff e cp pp cp with
  | Some f => Some f
  | None => tree !! cp
  end.

(** The difference of two colours as the luma conversion weighs it, before
    the rounding shift. *)
Definition weighted_difference (a b : PIL.rgb) : Z :=
  let '(r1, g1, b1) := a in
  let '(r2, g2, b2) := b in
  Z.abs (r1 - r2) * 19595 + Z.abs (g1 - g2) * 38470 + Z.abs (b1 - b2) * 7471.


(** The manifest a run wrote, if it wrote one, and its archive. *)
Definition manifest_of (o : outcome run) : option manifest :=
  match o with
  | Ok r => written_manifest r
  | _ => None
  end.



(** ** Concrete inputs *)

(** An RGB image of a single pixel, and a gray image of a single row. *)
Definition one_pixel (c : PIL.rgb) : PIL.image :=
  PIL.ImRGB (PIL.Raster 1 1 (fun _ _ => c)).

Definition gray_row (l : list Z) : PIL.image :=
  PIL.ImL (PIL.Raster (length l) 1 (fun x _ => default 0 (l !! x))).

Definition three_paths : list string := ["0.png"; "1.png"; "2.png"]%string.

(** Two frames and a file that no environment below decodes. *)
Definition paths_with_unreadable : list string := ["0.png"; "1.png"; "x.png"]%string.

(** The same with the undecodable file between the two frames. *)
Definition paths_unreadable_between : list string := ["0.png"; "x.png"; "2.png"]%string.

(** Three identical frames of equal size: every pair scores the same. *)
Definition tie_env : env :=
  Env (fun _ => Some (gray_row [0]))
      (fun _ im => Some im)
      (fun _ => 7)
      (fun _ => true) (fun _ => true) (fun _ => true) default_find_depth.

(** Three frames whose pairs score 3, 2 and 1: frame 0 is closest to frame 2,
    then to frame 1; frames 1 and 2 have the same, smaller, file size. *)
Definition ranked_env : env :=
  Env (fun p => if decide (p = "0.png"%string) then Some (gray_row [0; 0; 0; 0])
                else if decide (p = "1.png"%string) then Some (gray_row [9; 9; 0; 0])
                else if decide (p = "2.png"%string) then Some (gray_row [0; 0; 0; 9])
                else None)
      (fun _ im => Some im)
      (fun p => if decide (p = "0.png"%string) then 10 else 5)
      (fun _ => true) (fun _ => true) (fun _ => true) default_find_depth.




(** The parent map reached by [union(1, 2)] then [union(0, 1)] on items
    0, 1, 2: item 2 hangs below 1, which hangs below 0. *)
Definition chain_210 : gmap nat nat :=
  <[1%nat := 0%nat]> (<[2%nat := 1%nat]> (DSU.init [0; 1; 2]%nat)).

(** The parent map reached by [union(1, 2)] alone: item 2 hangs below 1 and
    item 0 is on its own. *)
Definition pair_21 : gmap nat nat := <[2%nat := 1%nat]> (DSU.init [0; 1; 2]%nat).

(** [FE] is a spanning forest of the graph on frames [0 .. n-1] whose edges
    are the scored pairs: it has no cycle, connects exactly what the scored
    pairs connect, and has one edge less than frames per component ([reps]
    holds one frame of each component). *)
Definition spanning_forest_of (n : nat) (all_scores FE : list scored) : Prop :=
  acyclic FE ∧
  (∀ ed, ed ∈ FE → ed ∈ all_scores) ∧
  (∀ u v, connected all_scores u v ↔ connected FE u v) ∧
  ∃ reps : list nat,
    NoDup reps ∧
    (∀ r, r ∈ reps → (r < n)%nat) ∧
    (∀ x, (x < n)%nat → ∃ r, r ∈ reps ∧ connected FE x r) ∧
    (∀ r r', r ∈ reps → r' ∈ reps → connected FE r r' → r = r') ∧
    (length FE + length reps = n)%nat.

(** Every edge on a forest path between the frames of a scored pair scores
    at least as much as the pair. *)
Definition heaviest_paths (all_scores FE : list scored) : Prop :=
  ∀ ed es ed', ed ∈ all_scores → walk FE ed.1.2 es ed.2 → NoDup es →
               ed' ∈ es → ed.1.1 ≤ ed'.1.1.

(** * The disjoint-set structure *)

Section dsu_facts.
Import DSU.
Implicit Types (p : gmap nat nat) (x y z r : nat) (l : list nat).

Lemma ptr_det p x l r l' r' :
  path_to_root p x l r → path_to_root p x l' r' → l = l' ∧ r = r'.
Proof.
  intros H; revert l' r'.
  induction H as [x Hx | x y l r Hx Hne _ IH]; intros l' r' H'.
  - inversion H'; subst; [done | congruence].
  - inversion H' as [| ? y' l0 ? Hx' Hne' Hp]; subst; [congruence |].
    assert (y' = y) as -> by congruence.
    destruct (IH _ _ Hp) as [-> ->]; done.
Qed.

Lemma repr_det p x r r' : repr p x r → repr p x r' → r = r'.
Proof. intros [l H] [l' H']. by destruct (ptr_det _ _ _ _ _ _ H H'). Qed.

Lemma ptr_root_fixed p x l r : path_to_root p x l r → p !! r = Some r.
Proof. induction 1; done. Qed.

Lemma ptr_is_Some p x l r : path_to_root p x l r → is_Some (p !! x).
Proof. destruct 1; eauto. Qed.

Lemma repr_root p r : p !! r = Some r → repr p r r.
Proof. intros; exists []; by constructor. Qed.

Lemma repr_root_eq p x r : p !! x = Some x → repr p x r → r = x.
Proof. intros Hx H. eapply repr_det; [exact H | by apply repr_root]. Qed.

(** Every item on the chain has its own, strictly shorter, chain to the same
    representative. *)
Lemma ptr_suffix p x l r z :
  path_to_root p x l r → z ∈ l →
  ∃ l1 l2, l = l1 ++ l2 ∧ path_to_root p z l2 r ∧ head l2 = Some z.
Proof.
  induction 1 as [x Hx | x y l r Hx Hne Hp IH]; intros Hz.
  - by apply elem_of_nil in Hz.
  - apply elem_of_cons in Hz as [-> | Hz].
    + exists [], (x :: l). split_and!; [done | by econstructor | done].
    + destruct (IH Hz) as (l1 & l2 & -> & Hp2 & Hh).
      exists (x :: l1), l2. done.
Qed.

Lemma ptr_NoDup p x l r : path_to_root p x l r → NoDup (r :: l).
Proof.
  induction 1 as [x Hx | x y l r Hx Hne Hp IH].
  - apply NoDup_singleton.
  - apply NoDup_cons in IH as [Hr Hl].
    apply NoDup_cons; split.
    + intros [-> | Hin]%elem_of_cons; [| done].
      apply ptr_root_fixed in Hp. congruence.
    + apply NoDup_cons; split; [| done].
      intros Hin.
      destruct (ptr_suffix _ _ _ _ _ Hp Hin) as (l1 & l2 & -> & Hp2 & _).
      assert (path_to_root p x (x :: l1 ++ l2) r) as Hfull by (by econstructor).
      destruct (ptr_det _ _ _ _ _ _ Hp2 Hfull) as [Hlen _].
      apply (f_equal length) in Hlen. rw /= length_app in Hlen. lia.
Qed.

Lemma ptr_in_dom p x l r z : path_to_root p x l r → z ∈ r :: l → z ∈ dom p.
Proof.
  intros Hp [-> | Hz]%elem_of_cons.
  - apply elem_of_dom. rw (ptr_root_fixed _ _ _ _ Hp). eauto.
  - destruct (ptr_suffix _ _ _ _ _ Hp Hz) as (_ & l2 & _ & Hp2 & _).
    apply elem_of_dom. by eapply ptr_is_Some.
Qed.

(** Pigeonhole: a chain is shorter than the number of items. *)
Lemma ptr_length p x l r : path_to_root p x l r → (length l < size p)%nat.
Proof.
  intros Hp.
  pose proof (ptr_NoDup _ _ _ _ Hp) as Hnd.
  assert (list_to_set (C := gset nat) (r :: l) ⊆ dom p) as Hsub.
  { intros z Hz. apply elem_of_list_to_set in Hz. by eapply ptr_in_dom. }
  apply subseteq_size in Hsub.
  rw size_list_to_set // in Hsub.
  rw size_dom /= in Hsub. lia.
Qed.

Lemma compressed_eq p l r p' p'' :
  compressed p l r p' → compressed p l r p'' → p' = p''.
Proof. intros H1 H2. apply map_eq. intros z. by rw H1 H2. Qed.

Lemma compressed_nil p r : compressed p [] r p.
Proof. intros z. case_decide as Hz; [by apply elem_of_nil in Hz | done]. Qed.

Lemma compressed_cons p l r p1 x :
  compressed p l r p1 → compressed p (x :: l) r (<[x := r]> p1).
Proof.
  intros Hc z. destruct (decide (z = x)) as [-> | Hzx].
  - rw lookup_insert_eq decide_True //. apply elem_of_cons; auto.
  - rw lookup_insert_ne // Hc.
    destruct (decide (z ∈ l)) as [Hin | Hnin].
    + rw decide_True //. apply elem_of_cons; auto.
    + rw decide_False //. intros [? | ?]%elem_of_cons; done.
Qed.

(** [find] returns when the chain has fewer links than the depth allowed,
    and then it returns the end of the chain. *)
Lemma find_spec depth p x l r :
  path_to_root p x l r → (length l < depth)%nat →
  ∃ p', find depth p x = Ok (p', r) ∧ compressed p l r p'.
Proof.
  intros Hp; revert depth.
  induction Hp as [x Hx | x y l r Hx Hne Hp IH]; intros depth Hlen.
  - destruct depth as [| depth]; [simpl in Hlen; lia |].
    exists p. simpl. rw Hx decide_True //.
  - destruct depth as [| depth]; [simpl in Hlen; lia |].
    destruct (IH depth) as (p1 & Hf & Hc); [simpl in Hlen; lia |].
    exists (<[x := r]> p1). simpl. rw Hx decide_False // Hf /=.
    split; [done | by apply compressed_cons].
Qed.

(** On a longer chain it raises. *)
Lemma find_too_deep depth p x l r :
  path_to_root p x l r → (depth ≤ length l)%nat → find depth p x = Raised.
Proof.
  intros Hp; revert depth.
  induction Hp as [x Hx | x y l r Hx Hne Hp IH]; intros depth Hlen.
  - destruct depth as [| depth]; [done | simpl in Hlen; lia].
  - destruct depth as [| depth]; [done |].
    simpl. rw Hx decide_False // IH //. simpl in Hlen. lia.
Qed.

(** Whatever [find] returns is the end of the chain, which is shorter than
    the depth. *)
Lemma find_inv depth p x p' r :
  find depth p x = Ok (p', r) →
  ∃ l, path_to_root p x l r ∧ (length l < depth)%nat ∧ compressed p l r p'.
Proof.
  revert x p' r. induction depth as [| depth IH]; intros x p' r; [done |].
  simpl. destruct (p !! x) as [y |] eqn:Hx; [| done].
  destruct (decide (y = x)) as [-> | Hne].
  - intros [= <- <-]. exists []. split_and!; [by constructor | simpl; lia |].
    apply compressed_nil.
  - destruct (find depth p y) as [[p1 r1] | |] eqn:Hf; [| done | done].
    simpl. intros [= <- <-].
    destruct (IH _ _ _ Hf) as (l & Hp & Hlen & Hc).
    exists (x :: l). split_and!; [by econstructor | simpl; lia |].
    by apply compressed_cons.
Qed.



Lemma find_missing depth p x : p !! x = None → find depth p x = Raised.
Proof. intros Hx. destruct depth; simpl; [done |]. by rw Hx. Qed.

Section compress.
Context p l r p' (Hc : compressed p l r p').
Context (Hl : ∀ z, z ∈ l → repr p z r) (Hr : r ∉ l) (Hroot : p !! r = Some r).

Lemma compressed_dom z : is_Some (p' !! z) ↔ is_Some (p !! z).
Proof using Hc Hl.
  rw Hc. destruct (decide (z ∈ l)) as [Hin | ]; [| done].
  split; [| eauto]. intros _. destruct (Hl z Hin) as [lz Hz].
  by eapply ptr_is_Some.
Qed.

Lemma compressed_size : size p' = size p.
Proof using Hc Hl.
  rw -!size_dom. f_equal. apply set_eq. intros z.
  rw !elem_of_dom. apply compressed_dom.
Qed.

Lemma compressed_root : p' !! r = Some r.
Proof using Hc Hr Hroot. rw Hc decide_False //. Qed.

Lemma compressed_repr_fwd z lz rz :
  path_to_root p z lz rz → repr p' z rz.
Proof using Hc Hl Hr Hroot.
  induction 1 as [z Hz | z y lz rz Hz Hne Hp IH].
  - apply repr_root. rw Hc decide_False //.
    intros Hin. pose proof (Hl _ Hin) as Hrep.
    apply (repr_root_eq _ _ _ Hz) in Hrep. by subst.
  - destruct (decide (z ∈ l)) as [Hin | Hnin].
    + assert (rz = r) as ->.
      { eapply repr_det; [| by apply Hl]. eexists; by econstructor. }
      exists [z]. econstructor; [rw Hc decide_True // | |].
      * intros ->. done.
      * constructor. apply compressed_root.
    + destruct IH as [ly IH]. exists (z :: ly).
      econstructor; [| done | done]. rw Hc decide_False //.
Qed.

Lemma compressed_forest : forest p → forest p'.
Proof using Hc Hl Hr Hroot.
  intros Hf z Hz. apply compressed_dom in Hz.
  destruct (Hf z Hz) as [rz [lz Hp]]. exists rz. by eapply compressed_repr_fwd.
Qed.

Lemma compressed_repr z rz : forest p → repr p' z rz ↔ repr p z rz.
Proof using Hc Hl Hr Hroot.
  intros Hf. split.
  - intros H'. assert (is_Some (p !! z)) as Hz.
    { apply compressed_dom. destruct H' as [? H']. by eapply ptr_is_Some. }
    destruct (Hf z Hz) as [r0 [l0 Hp]].
    pose proof (compressed_repr_fwd _ _ _ Hp) as H0.
    by rw (repr_det _ _ _ _ H' H0); exists l0.
  - intros [lz Hp]. by eapply compressed_repr_fwd.
Qed.
End compress.

Lemma ptr_members_repr p x l r z : path_to_root p x l r → z ∈ l → repr p z r.
Proof.
  intros Hp Hz. destruct (ptr_suffix _ _ _ _ _ Hp Hz) as (_ & l2 & _ & Hp2 & _).
  by exists l2.
Qed.

Lemma ptr_root_notin p x l r : path_to_root p x l r → r ∉ l.
Proof. intros Hp. apply ptr_NoDup in Hp. by apply NoDup_cons in Hp as []. Qed.

(** A [find] that returns on a forest: it returns the representative,
    keeps every representative, and leaves a forest. *)
Lemma find_props depth p x p' r :
  forest p → find depth p x = Ok (p', r) →
  repr p x r ∧ p' !! r = Some r ∧
  forest p' ∧ size p' = size p ∧
  (∀ z, is_Some (p' !! z) ↔ is_Some (p !! z)) ∧
  (∀ z rz, repr p' z rz ↔ repr p z rz).
Proof.
  intros Hf (l & Hp & _ & Hc)%find_inv.
  assert (∀ z, z ∈ l → repr p z r) as Hl by (intros; by eapply ptr_members_repr).
  pose proof (ptr_root_notin _ _ _ _ Hp) as Hr.
  pose proof (ptr_root_fixed _ _ _ _ Hp) as Hroot.
  split_and!; [by exists l | | | | |].
  - by eapply compressed_root.
  - eapply compressed_forest; eauto.
  - eapply compressed_size; eauto.
  - intros z. eapply compressed_dom; eauto.
  - intros z rz. eapply compressed_repr; eauto.
Qed.

(** [find] on a forest of no more items than the depth allowed returns. *)
Lemma find_ok depth p x :
  forest p → is_Some (p !! x) → (size p ≤ depth)%nat →
  ∃ p' r, find depth p x = Ok (p', r) ∧ repr p x r ∧ p' !! r = Some r ∧
          forest p' ∧ size p' = size p ∧
          (∀ z, is_Some (p' !! z) ↔ is_Some (p !! z)) ∧
          (∀ z rz, repr p' z rz ↔ repr p z rz).
Proof.
  intros Hf Hx Hsize. destruct (Hf x Hx) as [r [l Hp]].
  destruct (find_spec depth _ _ _ _ Hp) as (p' & Hfind & Hc).
  { pose proof (ptr_length _ _ _ _ Hp). lia. }
  exists p', r. split; [done |]. by eapply find_props.
Qed.

(** Linking one representative under another. *)
Section link.
Context p r1 r2 (H1 : p !! r1 = Some r1) (H2 : p !! r2 = Some r2) (Hne : r1 ≠ r2).

Lemma link_repr_fwd z lz rz :
  path_to_root p z lz rz →
  repr (<[r2 := r1]> p) z (if decide (rz = r2) then r1 else rz).
Proof using H1 H2 Hne.
  induction 1 as [z Hz | z y lz rz Hz Hzy Hp IH].
  - destruct (decide (z = r2)) as [-> | Hzr].
    + exists [r2]. econstructor; [apply lookup_insert_eq | done |].
      constructor. rw lookup_insert_ne //.
    + apply repr_root. rw lookup_insert_ne //.
  - destruct IH as [ly IH]. exists (z :: ly). econstructor; [| done | done].
    rw lookup_insert_ne //. intros <-. congruence.
Qed.

Lemma link_dom z : is_Some (<[r2 := r1]> p !! z) ↔ is_Some (p !! z).
Proof using H2.
  destruct (decide (z = r2)) as [-> | ].
  - rw lookup_insert_eq H2. split; eauto.
  - rw lookup_insert_ne //.
Qed.

Lemma link_forest : forest p → forest (<[r2 := r1]> p).
Proof using H1 H2 Hne.
  intros Hf z Hz. apply link_dom in Hz. destruct (Hf z Hz) as [rz [lz Hp]].
  eexists. by eapply link_repr_fwd.
Qed.

Lemma link_repr z rz' :
  forest p →
  repr (<[r2 := r1]> p) z rz' ↔
  ∃ rz, repr p z rz ∧ rz' = if decide (rz = r2) then r1 else rz.
Proof using H1 H2 Hne.
  intros Hf. split.
  - intros H'. assert (is_Some (p !! z)) as Hz.
    { apply link_dom. destruct H' as [? H']. by eapply ptr_is_Some. }
    destruct (Hf z Hz) as [rz [lz Hp]]. exists rz. split; [by exists lz |].
    eapply repr_det; [exact H' | by eapply link_repr_fwd].
  - intros (rz & [lz Hp] & ->). by eapply link_repr_fwd.
Qed.

Lemma link_size : size (<[r2 := r1]> p) = size p.
Proof using H2.
  rw -!size_dom. f_equal. apply set_eq. intros z.
  rw !elem_of_dom. apply link_dom.
Qed.
End link.

(** A [union] that returns on a forest. *)
Lemma union_inv depth p x y p' b :
  forest p → union depth p x y = Ok (p', b) →
  ∃ rx ry, repr p x rx ∧ repr p y ry ∧
    (b = true ↔ rx ≠ ry) ∧
    forest p' ∧ size p' = size p ∧
    (∀ z, is_Some (p' !! z) ↔ is_Some (p !! z)) ∧
    (∀ z rz', repr p' z rz' ↔
       ∃ rz, repr p z rz ∧ rz' = if decide (b = true ∧ rz = ry) then rx else rz).
Proof.
  intros Hf. unfold union.
  destruct (find depth p x) as [[p1 rx] | |] eqn:Hfx; [| done | done]. simpl.
  destruct (find_props _ _ _ _ _ Hf Hfx) as (Hrx & Hrx1 & Hf1 & Hs1 & Hd1 & Hr1).
  destruct (find depth p1 y) as [[p2 ry] | |] eqn:Hfy; [| done | done]. simpl.
  destruct (find_props _ _ _ _ _ Hf1 Hfy) as (Hry & Hry2 & Hf2 & Hs2 & Hd2 & Hr2).
  assert (p2 !! rx = Some rx) as Hrx2.
  { assert (repr p2 rx rx) as [l Hp] by (apply Hr2; by apply repr_root).
    by apply ptr_root_fixed in Hp. }
  destruct (decide (rx ≠ ry)) as [Hne | Heq]; intros [= <- <-].
  - exists rx, ry.
    split_and!; [done | by apply Hr1 | done | | | |].
    + by apply link_forest.
    + rw link_size; [congruence | done].
    + intros z. rw link_dom; [| done]. rw Hd2 Hd1 //.
    + intros z rz'. rw link_repr //. split.
      * intros (rz & Hz & ->). exists rz. split; [by apply Hr1, Hr2 |].
        repeat case_decide; intuition congruence.
      * intros (rz & Hz & ->). exists rz. split; [by apply Hr2, Hr1 |].
        repeat case_decide; intuition congruence.
  - exists rx, ry.
    split_and!; [done | by apply Hr1 | | done | congruence | |].
    + split; [done |]. intros; done.
    + intros z. rw Hd2 Hd1 //.
    + intros z rz'. rw Hr2 Hr1. split.
      * intros Hz. exists rz'. split; [done |]. case_decide; intuition congruence.
      * intros (rz & Hz & ->). case_decide; intuition congruence.
Qed.

(** [union] on a forest of no more items than the depth allowed returns. *)
Lemma union_returns depth p x y :
  forest p → is_Some (p !! x) → is_Some (p !! y) → (size p ≤ depth)%nat →
  ∃ p' b, union depth p x y = Ok (p', b).
Proof.
  intros Hf Hx Hy Hsize.
  destruct (find_ok depth p x Hf Hx Hsize) as (p1 & rx & Hfx & _ & _ & Hf1 & Hs1 & Hd1 & _).
  assert (is_Some (p1 !! y)) as Hy1 by by apply Hd1.
  destruct (find_ok depth p1 y Hf1 Hy1) as (p2 & ry & Hfy & _); [lia |].
  unfold union. rw Hfx /= Hfy /=. case_decide; eauto.
Qed.

Lemma union_ok depth p x y :
  forest p → is_Some (p !! x) → is_Some (p !! y) → (size p ≤ depth)%nat →
  ∃ p' b rx ry, union depth p x y = Ok (p', b) ∧ repr p x rx ∧ repr p y ry ∧
    (b = true ↔ rx ≠ ry) ∧
    forest p' ∧ size p' = size p ∧
    (∀ z, is_Some (p' !! z) ↔ is_Some (p !! z)) ∧
    (∀ z rz', repr p' z rz' ↔
       ∃ rz, repr p z rz ∧ rz' = if decide (b = true ∧ rz = ry) then rx else rz).
Proof.
  intros Hf Hx Hy Hsize.
  destruct (union_returns depth p x y Hf Hx Hy Hsize) as (p' & b & Hu).
  destruct (union_inv _ _ _ _ _ _ Hf Hu) as (rx & ry & H).
  by exists p', b, rx, ry.
Qed.

(** The initial state and the reachable states. *)
Lemma init_lookup items x :
  init items !! x = if decide (x ∈ items) then Some x else None.
Proof.
  unfold init. induction items as [| i items IH]; simpl.
  - rw lookup_empty //.
  - destruct (decide (x = i)) as [-> | Hne].
    + rw lookup_insert_eq decide_True //. apply elem_of_cons; auto.
    + rw lookup_insert_ne // IH.
      destruct (decide (x ∈ items)).
      * rw decide_True //. apply elem_of_cons; auto.
      * rw decide_False //. intros [? | ?]%elem_of_cons; done.
Qed.

Lemma init_forest items : forest (init items).
Proof.
  intros x [y Hx]. exists x. apply repr_root.
  rw init_lookup in Hx |- *. by destruct (decide (x ∈ items)).
Qed.

Lemma run_op_inv depth p o p' :
  forest p → run_op depth p o = Ok p' →
  forest p' ∧ ∀ z, is_Some (p' !! z) ↔ is_Some (p !! z).
Proof.
  intros Hf. destruct o as [x | x y]; simpl.
  - destruct (find depth p x) as [[p1 r] | |] eqn:Hfx; [| done | done].
    simpl. intros [= <-].
    by destruct (find_props _ _ _ _ _ Hf Hfx) as (_ & _ & Hf1 & _ & Hd & _).
  - destruct (union depth p x y) as [[p1 b] | |] eqn:Hu; [| done | done].
    simpl. intros [= <-].
    by destruct (union_inv _ _ _ _ _ _ Hf Hu) as (? & ? & _ & _ & _ & Hf1 & _ & Hd & _).
Qed.

(** There are no more entries than items. *)
Lemma size_list_to_set_le l : (size (list_to_set (C := gset nat) l) ≤ length l)%nat.
Proof.
  induction l as [| i l IH]; [vm_compute; lia |]. rw list_to_set_cons length_cons.
  rw size_union_alt size_singleton.
  pose proof (subseteq_size (list_to_set l ∖ {[i]}) (list_to_set (C := gset nat) l)) as Hle.
  assert (list_to_set l ∖ {[i]} ⊆ list_to_set (C := gset nat) l) as Hsub by set_solver.
  specialize (Hle Hsub). lia.
Qed.

Lemma size_le_items items p :
  (∀ z, is_Some (p !! z) ↔ z ∈ items) → (size p ≤ length items)%nat.
Proof.
  intros Hdom. etrans; [| apply size_list_to_set_le].
  rw -size_dom. apply subseteq_size. intros z Hz.
  apply elem_of_list_to_set, Hdom. by apply elem_of_dom.
Qed.

Lemma reachable_inv depth items p :
  reachable depth items p →
  forest p ∧ ∀ z, is_Some (p !! z) ↔ z ∈ items.
Proof.
  induction 1 as [| p o p' _ [Hf Hd] Hop].
  - split; [apply init_forest |]. intros z. rw init_lookup.
    destruct (decide (z ∈ items)); [split; eauto | split; [by intros [] | done]].
  - destruct (run_op_inv _ _ _ _ Hf Hop) as [Hf' Hd']. split; [done |].
    intros z. rw Hd' Hd //.
Qed.

(** A forest has no cycle of proper parent links. *)
Lemma climbs_shorter p x z l r :
  climbs p x z → path_to_root p x l r →
  ∃ l', path_to_root p z l' r ∧ (length l' < length l)%nat.
Proof.
  intros Hc; revert l r.
  induction Hc as [x y Hx Hne | x y z Hx Hne Hc IH]; intros l r Hp.
  - inversion Hp as [| ? y' l0 ? Hx' _ Hp']; subst; [congruence |].
    assert (y' = y) as -> by congruence. exists l0. simpl. split; [done | lia].
  - inversion Hp as [| ? y' l0 ? Hx' _ Hp']; subst; [congruence |].
    assert (y' = y) as -> by congruence.
    destruct (IH _ _ Hp') as (l' & Hz & Hlen). exists l'. simpl. split; [done | lia].
Qed.

Lemma forest_acyclic p x : forest p → ¬ climbs p x x.
Proof.
  intros Hf Hc.
  assert (is_Some (p !! x)) as Hx by (inversion Hc; eauto).
  destruct (Hf x Hx) as [r [l Hp]].
  destruct (climbs_shorter _ _ _ _ _ Hc Hp) as (l' & Hp' & Hlen).
  destruct (ptr_det _ _ _ _ _ _ Hp Hp') as [-> _]. lia.
Qed.

Lemma find_repr depth p x p' r : find depth p x = Ok (p', r) → repr p x r.
Proof. intros (l & Hp & _)%find_inv. by exists l. Qed.

(** A second [find] of an item whose parent is already a representative
    returns the same representative and writes back what is there. *)
Lemma find_direct depth p z r :
  (2 ≤ depth)%nat → p !! z = Some r → p !! r = Some r → find depth p z = Ok (p, r).
Proof.
  intros Hd Hz Hr. destruct (decide (z = r)) as [-> | Hne].
  - destruct (find_spec depth p r [] r) as (p' & Hfind & Hc);
      [by constructor | simpl; lia |].
    by rw Hfind -(compressed_eq _ _ _ _ _ (compressed_nil p r) Hc).
  - destruct (find_spec depth p z [z] r) as (p' & Hfind & Hc).
    { econstructor; [done | done | by constructor]. }
    { simpl. lia. }
    rw Hfind. do 2 f_equal. apply map_eq. intros w. rw Hc.
    case_decide as Hw; [| done]. by apply list_elem_of_singleton in Hw as ->.
Qed.

End dsu_facts.

(** C10 (as amended): from the initial state, after any sequence of [find]
    and [union] calls that return, the parent map has no cycle other than the
    self-loops at representatives. [find] of an item returns exactly when
    the item's chain of parent links has fewer links than the nesting depth
    the interpreter allows, and what it returns is the end of the chain, an
    item that is its own parent; on a longer chain it raises. A [union(x, y)]
    that returns gives true exactly when the representatives of [x] and [y]
    differed, after which both have the representative of [x]; when it gives
    false every item keeps the representative it had. When there are no more
    items than the depth allowed, [find] and [union] always return, after a
    true [union] the calls [find(x)] and [find(y)] return the same item, and
    after a false one [find] returns for every item what it returned
    before. *)
Theorem dsu_forest_invariant (depth : nat) (items : list nat) (p : gmap nat nat) :
  DSU.reachable depth items p →
  (DSU.forest p ∧ ∀ x, ¬ DSU.climbs p x x) ∧
  (∀ x, x ∈ items →
     ∃ l r, DSU.path_to_root p x l r ∧ p !! r = Some r ∧
       if decide (length l < depth)%nat
       then ∃ p', DSU.find depth p x = Ok (p', r) ∧ p' !! r = Some r
       else DSU.find depth p x = Raised) ∧
  (∀ x y p' b, DSU.union depth p x y = Ok (p', b) →
     ∃ rx ry, DSU.repr p x rx ∧ DSU.repr p y ry ∧
       (b = true ↔ rx ≠ ry) ∧
       (b = true → DSU.repr p' x rx ∧ DSU.repr p' y rx) ∧
       (b = false → ∀ z rz, DSU.repr p' z rz ↔ DSU.repr p z rz)) ∧
  ((length items ≤ depth)%nat →
     ∀ x y, x ∈ items → y ∈ items →
       ∃ p' b,
         DSU.union depth p x y = Ok (p', b) ∧
         (b = true →
            ∃ q1 q2 r, DSU.find depth p' x = Ok (q1, r) ∧
                       DSU.find depth q1 y = Ok (q2, r)) ∧
         (b = false →
            ∀ z, z ∈ items →
              ∃ q q' r, DSU.find depth p z = Ok (q, r) ∧
                        DSU.find depth p' z = Ok (q', r))).
Proof.
  intros Hreach. destruct (reachable_inv _ _ _ Hreach) as [Hf Hdom].
  split_and!.
  - done.
  - intros x. by apply forest_acyclic.
  - intros x Hx. apply Hdom in Hx. destruct (Hf x Hx) as [r [l Hp]].
    exists l, r. split_and!; [done | by eapply ptr_root_fixed |].
    case_decide as Hlen.
    + destruct (find_spec depth _ _ _ _ Hp Hlen) as (p' & Hfind & Hc).
      exists p'. split; [done |].
      by destruct (find_props _ _ _ _ _ Hf Hfind) as (_ & Hr' & _).
    + eapply find_too_deep; [done | lia].
  - intros x y p' b Hu.
    destruct (union_inv _ _ _ _ _ _ Hf Hu)
      as (rx & ry & Hrx & Hry & Hb & Hf' & _ & Hd' & Hr').
    exists rx, ry. split_and!; [done | done | done | |].
    + intros ->. split; apply Hr'.
      * exists rx. split; [done |]. by destruct (decide _).
      * exists ry. split; [done |]. rw decide_True //.
    + intros -> z rz. rw Hr'. split.
      * intros (rz' & Hz & ->). by case_decide; [intuition congruence |].
      * intros Hz. exists rz. split; [done |]. by case_decide; [intuition congruence |].
  - intros Hlen x y Hx Hy. apply Hdom in Hx, Hy.
    pose proof (size_le_items _ _ Hdom) as Hsize.
    destruct (union_ok depth p x y Hf Hx Hy)
      as (p' & b & rx & ry & Hu & Hrx & Hry & Hb & Hf' & Hs' & Hd' & Hr'); [lia |].
    exists p', b. split_and!; [done | |].
    + intros ->.
      assert (DSU.repr p' x rx) as Hx'.
      { apply Hr'. exists rx. split; [done |]. by destruct (decide _). }
      assert (DSU.repr p' y rx) as Hy'.
      { apply Hr'. exists ry. split; [done |]. rw decide_True //. }
      destruct (find_ok depth p' x Hf')
        as (q1 & r1 & Hf1 & Hr1 & _ & Hfq1 & Hsq1 & Hdq1 & Hrq1);
        [by apply Hd' | lia |].
      destruct (find_ok depth q1 y Hfq1) as (q2 & r2 & Hf2 & Hr2 & _);
        [by apply Hdq1, Hd' | lia |].
      apply Hrq1 in Hr2.
      rw (repr_det _ _ _ _ Hr1 Hx') in Hf1. rw (repr_det _ _ _ _ Hr2 Hy') in Hf2.
      by exists q1, q2, rx.
    + intros -> z Hz. apply Hdom in Hz.
      destruct (find_ok depth p z Hf Hz) as (q & r & Hfz & Hrz & _); [lia |].
      destruct (find_ok depth p' z Hf') as (q' & r' & Hfz' & Hrz' & _);
        [by apply Hd' | lia |].
      apply Hr' in Hrz' as (r0 & Hr0 & ->).
      destruct (decide (false = true ∧ r0 = ry)) as [[? _] | _]; [done |].
      rw (repr_det _ _ _ _ Hr0 Hrz) in Hfz'. by exists q, q', r.
Qed.

(** Two [union] calls that need no more than one level of [find] each build
    the chain 2 -> 1 -> 0. *)
Lemma chain_210_reachable depth :
  (1 ≤ depth)%nat → DSU.reachable depth [0; 1; 2]%nat chain_210.
Proof.
  intros Hd. destruct depth as [| depth]; [lia |].
  eapply (DSU.reach_op _ _ _ (DSU.OpUnion 0 1)).
  - eapply (DSU.reach_op _ _ _ (DSU.OpUnion 1 2)); [constructor | reflexivity].
  - reflexivity.
Qed.

(** On the chain 2 -> 1 -> 0, which two unions build: with the usual depth
    every call returns; under an interpreter that allows [find] two nested
    calls, [find(2)] raises, the chain of item 2 having two links. *)
Lemma dsu_forest_invariant_witness :
  ((DSU.forest chain_210 ∧ ∀ x, ¬ DSU.climbs chain_210 x x) ∧
   (∀ x, x ∈ [0; 1; 2]%nat →
      ∃ l r, DSU.path_to_root chain_210 x l r ∧ chain_210 !! r = Some r ∧
        if decide (length l < default_find_depth)%nat
        then ∃ p', DSU.find default_find_depth chain_210 x = Ok (p', r) ∧ p' !! r = Some r
        else DSU.find default_find_depth chain_210 x = Raised) ∧
   (∀ x y p' b, DSU.union default_find_depth chain_210 x y = Ok (p', b) →
      ∃ rx ry, DSU.repr chain_210 x rx ∧ DSU.repr chain_210 y ry ∧
        (b = true ↔ rx ≠ ry) ∧
        (b = true → DSU.repr p' x rx ∧ DSU.repr p' y rx) ∧
        (b = false → ∀ z rz, DSU.repr p' z rz ↔ DSU.repr chain_210 z rz)) ∧
   (∀ x y, x ∈ [0; 1; 2]%nat → y ∈ [0; 1; 2]%nat →
      ∃ p' b,
        DSU.union default_find_depth chain_210 x y = Ok (p', b) ∧
        (b = true →
           ∃ q1 q2 r, DSU.find default_find_depth p' x = Ok (q1, r) ∧
                      DSU.find default_find_depth q1 y = Ok (q2, r)) ∧
        (b = false →
           ∀ z, z ∈ [0; 1; 2]%nat →
             ∃ q q' r, DSU.find default_find_depth chain_210 z = Ok (q, r) ∧
                       DSU.find default_find_depth p' z = Ok (q', r)))) ∧
  DSU.reachable 2 [0; 1; 2]%nat chain_210 ∧
  DSU.find 2 chain_210 2 = Raised.
Proof.
  split; [| split].
  - destruct (dsu_forest_invariant default_find_depth [0; 1; 2]%nat chain_210)
      as (H1 & H2 & H3 & H4).
    + eapply (DSU.reach_op _ _ _ (DSU.OpUnion 0 1)).
      * eapply (DSU.reach_op _ _ _ (DSU.OpUnion 1 2)); [constructor | reflexivity].
      * reflexivity.
    + split; [exact H1 |]. split; [exact H2 |]. split; [exact H3 |].
      apply H4. vm_compute. lia.
  - eapply (DSU.reach_op _ _ _ (DSU.OpUnion 0 1)).
    + eapply (DSU.reach_op _ _ _ (DSU.OpUnion 1 2)); [constructor | reflexivity].
    + reflexivity.
  - destruct (dsu_forest_invariant 2 [0; 1; 2]%nat chain_210) as (_ & H2 & _).
    + eapply (DSU.reach_op _ _ _ (DSU.OpUnion 0 1)).
      * eapply (DSU.reach_op _ _ _ (DSU.OpUnion 1 2)); [constructor | reflexivity].
      * reflexivity.
    + destruct (H2 2%nat) as (l & r & Hp & _ & Hfind).
      { apply (bool_decide_unpack _). vm_compute. exact I. }
      assert (DSU.path_to_root chain_210 2 [2; 1]%nat 0) as Hp'.
      { apply (DSU.ptr_step _ 2%nat 1%nat); [reflexivity | lia |].
        apply (DSU.ptr_step _ 1%nat 0%nat); [reflexivity | lia |].
        apply DSU.ptr_root. reflexivity. }
      destruct (ptr_det _ _ _ _ _ _ Hp Hp') as [-> ->].
      exact Hfind.
Defined.

(** C10 (as stated, refuted): a [union] that returns false can still change
    the parent map, because the two [find] calls compress paths. On the chain
    2 -> 1 -> 0, [union(0, 2)] returns false and re-points 2 to 0. *)
Lemma union_false_changes_parent :
  ∃ p', DSU.reachable default_find_depth [0; 1; 2]%nat chain_210 ∧
        DSU.union default_find_depth chain_210 0 2 = Ok (p', false) ∧
        chain_210 !! 2%nat = Some 1%nat ∧ p' !! 2%nat = Some 0%nat ∧ p' ≠ chain_210.
Proof.
  exists (<[2%nat := 0%nat]> chain_210).
  split_and!; [apply chain_210_reachable; vm_compute; lia | reflexivity | reflexivity
              | reflexivity |].
  intros Heq. apply (f_equal (fun m : gmap nat nat => m !! 2%nat)) in Heq.
  vm_compute in Heq. discriminate.
Qed.

(** * Images, the similarity score and the difference mask *)

Section raster_facts.
Import PIL.

Lemma length_bind_const {A B} (f : A → list B) (l : list A) (n : nat) :
  (∀ a, length (f a) = n) → length (l ≫= f) = (length l * n)%nat.
Proof.
  intros Hf. induction l as [| a l IH]; [done |].
  rw bind_cons length_app Hf IH /=. lia.
Qed.

Lemma length_coords {P} (r : raster P) :
  length (coords r) = (height r * width r)%nat.
Proof.
  unfold coords. rw (length_bind_const _ _ (width r)).
  - by rw length_seq.
  - intros y. rw (length_bind_const _ _ 1%nat) // length_seq. lia.
Qed.

Lemma length_filter_split {A} (P : A → Prop) `{∀ a, Decision (P a)} (l : list A) :
  (length (filter P l) + length (filter (fun a => ¬ P a) l) = length l)%nat.
Proof.
  induction l as [| a l IH]; [done |].
  rw !filter_cons. destruct (decide (P a)).
  - rw decide_False /=; [lia | tauto].
  - rw decide_True //=. lia.
Qed.

Lemma count_zero_nonzero (r : raster Z) :
  (count_zero r + count_nonzero r = height r * width r)%nat.
Proof.
  unfold count_zero, count_nonzero. rw -length_coords.
  apply (length_filter_split (fun c => pixel r c.1 c.2 = 0)).
Qed.

Lemma luma_zero : luma (0, 0, 0) = 0.
Proof. reflexivity. Qed.

Lemma absdiff_rgb_same c : absdiff_rgb c c = (0, 0, 0).
Proof.
  destruct c as [[r g] b]. unfold absdiff_rgb, absdiff.
  by rw !Z.sub_diag.
Qed.
End raster_facts.

Lemma score_of_diff_zero_count (diff : PIL.image) :
  score_of_diff diff = Z.of_nat (PIL.count_zero (PIL.convert_L diff)).
Proof.
  unfold score_of_diff.
  pose proof (count_zero_nonzero (PIL.convert_L diff)). lia.
Qed.

Lemma score_of_diff_nonneg (diff : PIL.image) : 0 ≤ score_of_diff diff.
Proof. rw score_of_diff_zero_count. lia. Qed.

Lemma similarity_score_range (e : env) (p1 p2 : string) :
  -1 ≤ calculate_similarity_score e p1 p2.
Proof.
  unfold calculate_similarity_score.
  repeat case_match; try lia. pose proof (score_of_diff_nonneg i2). lia.
Qed.

Lemma with_size_size sz im : PIL.size_of (with_size sz im) = sz.
Proof. destruct sz, im; done. Qed.

Lemma convert_mode m im : PIL.mode_of (PIL.convert m im) = m.
Proof. by destruct m. Qed.

Lemma convert_size m im : PIL.size_of (PIL.convert m im) = PIL.size_of im.
Proof. destruct m, im; done. Qed.

(** After normalisation the second image has the size and mode of the
    first. *)
Lemma normalize_shape e img1 img2 img2' :
  normalize e img1 img2 = Some img2' →
  PIL.size_of img2' = PIL.size_of img1 ∧ PIL.mode_of img2' = PIL.mode_of img1.
Proof.
  unfold normalize, resize. case_decide as Hd.
  - destruct (resample e _ img2) as [im |]; [| done]. simpl. intros [= <-].
    by rw convert_mode convert_size with_size_size.
  - intros [= <-].
    split; symmetry; apply dec_stable; intros Hne; apply Hd; auto.
Qed.

(** What [process_image] hands to the encoder, pixel by pixel. *)
Lemma diff_raster_spec (cur base : PIL.image) :
  let c := PIL.convert_RGB cur in
  let b := PIL.convert_RGB base in
  if decide (PIL.width c ≤ PIL.width b ∧ PIL.height c ≤ PIL.height b)%nat then
    ∃ out, diff_raster cur base = Some out ∧
      PIL.width out = PIL.width c ∧ PIL.height out = PIL.height c ∧
      ∀ x y, PIL.pixel out x y =
        (PIL.pixel c x y,
         if decide (PIL.luma (PIL.absdiff_rgb (PIL.pixel c x y) (PIL.pixel b x y)) > 0)
         then 255 else 0)
  else diff_raster cur base = None.
Proof.
  intros c b. unfold diff_raster, PIL.putalpha. fold c b. simpl.
  case_decide as Hsz.
  - rw decide_True; [| lia]. eexists. split_and!; [done | done | done |].
    intros x y. simpl. by destruct (PIL.pixel c x y) as [[r g] bl].
  - rw decide_False //. lia.
Qed.

(** Where the mask is opaque the two frames differ, and the colour stored
    is the child's. *)
Lemma diff_raster_opaque_differs (cur base : PIL.image) out x y :
  diff_raster cur base = Some out →
  (PIL.pixel out x y).1 = PIL.pixel (PIL.convert_RGB cur) x y ∧
  ((PIL.pixel out x y).2 = 0 ∨ (PIL.pixel out x y).2 = 255) ∧
  ((PIL.pixel out x y).2 = 255 →
     PIL.pixel (PIL.convert_RGB cur) x y ≠ PIL.pixel (PIL.convert_RGB base) x y).
Proof.
  intros Hout. pose proof (diff_raster_spec cur base) as Hs. simpl in Hs.
  case_decide; [| congruence].
  destruct Hs as (out' & Hout' & _ & _ & Hpx).
  assert (out' = out) as -> by congruence.
  rw Hpx /=. split_and!; [done | case_decide; auto |].
  case_decide as Hl; [| done]. intros _ Heq. rw Heq absdiff_rgb_same luma_zero in Hl. lia.
Qed.

(** * Loops that may raise *)

Lemma ofoldl_cons {A B} (f : A → B → outcome A) (a : A) (b : B) (l : list B) :
  ofoldl f a (b :: l) = obind (f a b) (fun a' => ofoldl f a' l).
Proof. done. Qed.

Lemma ofoldl_app {A B} (f : A → B → outcome A) (a : A) (l1 l2 : list B) :
  ofoldl f a (l1 ++ l2) = obind (ofoldl f a l1) (fun a' => ofoldl f a' l2).
Proof.
  revert a. induction l1 as [| b l1 IH]; intros a; [done |].
  rw -app_comm_cons !ofoldl_cons. destruct (f a b); simpl; [apply IH | done | done].
Qed.

(** * Frame tables, pairs and the score list *)

Section tables.
Implicit Types (l : list string) (i j : nat) (p : string).

Lemma enumerate_snoc {A} (l : list A) (x : A) :
  enumerate (l ++ [x]) = enumerate l ++ [(length l, x)].
Proof. unfold enumerate. rw imap_app /=. by rw Nat.add_0_r. Qed.

Lemma make_id_to_path_snoc l p :
  make_id_to_path (l ++ [p]) = <[length l := p]> (make_id_to_path l).
Proof. unfold make_id_to_path. by rw enumerate_snoc foldl_snoc. Qed.

Lemma make_path_to_id_snoc l p :
  make_path_to_id (l ++ [p]) = <[p := length l]> (make_path_to_id l).
Proof. unfold make_path_to_id. by rw enumerate_snoc foldl_snoc. Qed.

Lemma make_id_to_path_lookup l i : make_id_to_path l !! i = l !! i.
Proof.
  induction l as [| p l IH] using rev_ind; [done |].
  rw make_id_to_path_snoc. destruct (decide (i = length l)) as [-> | Hne].
  - rw lookup_insert_eq. by rw list_lookup_middle.
  - rw lookup_insert_ne // IH.
    destruct (decide (i < length l)%nat).
    + by rw lookup_app_l.
    + rw !lookup_ge_None_2 //; [rw length_app /= |]; lia.
Qed.

Lemma make_id_to_path_size l : size (make_id_to_path l) = length l.
Proof.
  induction l as [| p l IH] using rev_ind; [done |].
  rw make_id_to_path_snoc map_size_insert_None.
  - rw IH length_app /=. lia.
  - rw make_id_to_path_lookup. by apply lookup_ge_None_2.
Qed.

Lemma make_path_to_id_sound l p i :
  make_path_to_id l !! p = Some i → l !! i = Some p.
Proof.
  induction l as [| q l IH] using rev_ind; [done |].
  rw make_path_to_id_snoc. destruct (decide (p = q)) as [-> | Hne].
  - rw lookup_insert_eq. intros [= <-]. by rw list_lookup_middle.
  - rw lookup_insert_ne //. intros Hi%IH. by apply lookup_app_l_Some.
Qed.

Lemma make_path_to_id_lookup l p i :
  NoDup l → l !! i = Some p → make_path_to_id l !! p = Some i.
Proof.
  induction l as [| q l IH] using rev_ind; [done |].
  intros Hnd Hi. apply NoDup_app in Hnd as (Hnd & Hq & _).
  rw make_path_to_id_snoc. destruct (decide (i < length l)%nat) as [Hlt | Hge].
  - rw lookup_app_l // in Hi. rw lookup_insert_ne; [by apply IH |].
    intros <-. eapply Hq; [by eapply list_elem_of_lookup_2 | apply list_elem_of_here].
  - assert (i = length l) as ->.
    { apply lookup_lt_Some in Hi. rw length_app /= in Hi. lia. }
    rw list_lookup_middle // in Hi. injection Hi as <-. by rw lookup_insert_eq.
Qed.

Lemma frame_ids_seq l : frame_ids l = seq 0 (length l).
Proof.
  unfold frame_ids. induction l as [| p l IH] using rev_ind; [done |].
  by rw enumerate_snoc fmap_app IH length_app /= seq_app.
Qed.

Lemma elem_of_frame_ids l i : i ∈ frame_ids l ↔ (i < length l)%nat.
Proof. rw frame_ids_seq elem_of_seq. lia. Qed.

Lemma getitem_id_to_path l i :
  (i < length l)%nat → ∃ p, getitem (make_id_to_path l) i = Ok p ∧ l !! i = Some p.
Proof.
  intros Hi. destruct (lookup_lt_is_Some_2 l i Hi) as [p Hp].
  exists p. unfold getitem. by rw make_id_to_path_lookup Hp.
Qed.
End tables.

Section pairs.
Context {A : Type}.
Implicit Types (l : list A) (a b : A).

Lemma elem_of_combinations2 l a b :
  (a, b) ∈ combinations2 l ↔
  ∃ i j, (i < j)%nat ∧ l !! i = Some a ∧ l !! j = Some b.
Proof.
  induction l as [| x l IH]; simpl.
  - split; [by intros ?%elem_of_nil | by intros (? & ? & _ & ? & _)].
  - rw elem_of_app list_elem_of_fmap IH. split.
    + intros [(y & [= -> ->] & Hy) | (i & j & Hij & Hi & Hj)].
      * apply list_elem_of_lookup in Hy as [j Hj]. exists 0%nat, (S j).
        split_and!; [lia | done | done].
      * exists (S i), (S j). split_and!; [lia | done | done].
    + intros (i & j & Hij & Hi & Hj). destruct j as [| j]; [lia |].
      destruct i as [| i]; simpl in *.
      * left. exists b. injection Hi as ->. split; [done |].
        by eapply list_elem_of_lookup_2.
      * right. exists i, j. split_and!; [lia | done | done].
Qed.
End pairs.

Section scores.
Context (e : env) (path_to_id : gmap string nat).
Implicit Types (l : list (string * string)) (s : Z) (u v : nat).

Lemma elem_of_collect_scores l s u v :
  (s, u, v) ∈ collect_scores e path_to_id l ↔
  ∃ pr, pr ∈ l ∧ s = calculate_similarity_score e pr.1 pr.2 ∧ s ≠ -1 ∧
        path_to_id !! pr.1 = Some u ∧ path_to_id !! pr.2 = Some v.
Proof.
  induction l as [| pr l IH]; simpl.
  - split; [by intros ?%elem_of_nil | by intros (? & ?%elem_of_nil & _)].
  - rw elem_of_app IH. split.
    + intros [Hin | (pr' & Hin & ?)].
      * exists pr. case_decide as Hs; [| by apply elem_of_nil in Hin].
        destruct (path_to_id !! pr.1) as [id1 |] eqn:H1;
          [| by apply elem_of_nil in Hin].
        destruct (path_to_id !! pr.2) as [id2 |] eqn:H2;
          [| by apply elem_of_nil in Hin].
        apply list_elem_of_singleton in Hin as [= -> -> ->].
        split_and!; [apply list_elem_of_here | done..].
      * exists pr'. split; [by apply list_elem_of_further | done].
    + intros (pr' & [-> | Hin]%elem_of_cons & Hs & Hne & H1 & H2).
      * left. subst s. rw decide_True // H1 H2. apply list_elem_of_here.
      * right. by exists pr'.
Qed.

Lemma collect_scores_Permutation l l' :
  l ≡ₚ l' → collect_scores e path_to_id l ≡ₚ collect_scores e path_to_id l'.
Proof.
  induction 1 as [| x l l' _ IH | x y l | l l' l'' _ IH _ IH'].
  - done.
  - simpl. by rw IH.
  - simpl. rw !(assoc app). f_equiv. apply Permutation_app_comm.
  - by etrans.
Qed.
End scores.

(** ** The stable descending sort *)

Section sorting.
Implicit Types (x y : Z * nat * nat) (l : list (Z * nat * nat)).

Lemma insert_score_Permutation x l : insert_score x l ≡ₚ x :: l.
Proof.
  induction l as [| y l IH]; [done |]. simpl. case_decide; [done |].
  rw IH. apply Permutation_swap.
Qed.

Lemma sort_scores_Permutation l : sort_scores l ≡ₚ l.
Proof.
  induction l as [| x l IH]; [done |]. simpl.
  by rw insert_score_Permutation IH.
Qed.

Lemma elem_of_sort_scores x l : x ∈ sort_scores l ↔ x ∈ l.
Proof. by rw sort_scores_Permutation. Qed.

Lemma insert_score_descending x l : descending l → descending (insert_score x l).
Proof.
  induction l as [| y l IH]; simpl.
  - intros _. split; [by intros ? ?%elem_of_nil | done].
  - intros [Hy Hl]. case_decide as Hc; simpl.
    + split_and!; [| done | done].
      intros z [-> | Hz]%elem_of_cons; [done |]. specialize (Hy z Hz). lia.
    + split; [| by apply IH].
      intros z Hz. rw insert_score_Permutation in Hz.
      apply elem_of_cons in Hz as [-> | Hz]; [lia | by apply Hy].
Qed.

Lemma sort_scores_descending l : descending (sort_scores l).
Proof. induction l; simpl; [done | by apply insert_score_descending]. Qed.

Lemma descending_app l1 l2 x y :
  descending (l1 ++ l2) → x ∈ l1 → y ∈ l2 → y.1.1 ≤ x.1.1.
Proof.
  induction l1 as [| z l1 IH]; simpl; [by intros _ ?%elem_of_nil |].
  intros [Hz Hl] [-> | Hx]%elem_of_cons Hy.
  - apply Hz. apply elem_of_app; auto.
  - by apply IH.
Qed.

(** Entries of different scores are inserted independently of each other. *)
Lemma insert_score_comm x y l :
  x.1.1 ≠ y.1.1 →
  insert_score x (insert_score y l) = insert_score y (insert_score x l).
Proof.
  intros Hxy. induction l as [| z l IH]; simpl.
  - repeat case_decide; try done; lia.
  - repeat (case_decide; simpl); try done; try lia. by rw IH.
Qed.

(** When no two entries share a score, the sorted list does not depend on
    the order of the input. *)
Lemma sort_scores_order_irrelevant l l' :
  l ≡ₚ l' → NoDup (l.*1.*1) → sort_scores l = sort_scores l'.
Proof.
  induction 1 as [| x l l' _ IH | x y l | l l' l'' Hp IH _ IH']; intros Hnd.
  - done.
  - simpl. rw IH //. by apply NoDup_cons in Hnd as [].
  - simpl. apply insert_score_comm.
    rw !fmap_cons in Hnd. apply NoDup_cons in Hnd as [Hy _].
    intros Heq. apply Hy. rw Heq. apply list_elem_of_here.
  - rw IH // IH' //. by rw -Hp.
Qed.
End sorting.

(** * Walks and connectivity *)

Section walks.
Implicit Types (F : list (Z * nat * nat)) (ed : Z * nat * nat)
               (es : list (Z * nat * nat)) (u v w : nat).

Lemma joins_sym ed u v : joins ed u v → joins ed v u.
Proof. unfold joins. tauto. Qed.

Lemma walk_edges F u es w ed : walk F u es w → ed ∈ es → ed ∈ F.
Proof.
  induction 1 as [| u v w ed' es Hin _ _ IH]; [by intros ?%elem_of_nil |].
  intros [-> | ?]%elem_of_cons; auto.
Qed.

Lemma walk_restrict F F' u es w :
  walk F u es w → (∀ ed, ed ∈ es → ed ∈ F') → walk F' u es w.
Proof.
  induction 1 as [| u v w ed es Hin Hj _ IH]; intros Hsub; [constructor |].
  econstructor; [apply Hsub, list_elem_of_here | done |].
  apply IH. intros ed' Hed'. by apply Hsub, list_elem_of_further.
Qed.

Lemma walk_mono F F' u es w :
  (∀ ed, ed ∈ F → ed ∈ F') → walk F u es w → walk F' u es w.
Proof.
  intros Hsub Hw. eapply walk_restrict; [done |].
  intros ed Hed. eapply Hsub, walk_edges; eauto.
Qed.

Lemma walk_app F u v w es1 es2 :
  walk F u es1 v → walk F v es2 w → walk F u (es1 ++ es2) w.
Proof.
  induction 1 as [| u x v ed es Hin Hj _ IH]; intros H2; [done |].
  simpl. econstructor; eauto.
Qed.

Lemma walk_app_inv F u w es1 es2 :
  walk F u (es1 ++ es2) w → ∃ v, walk F u es1 v ∧ walk F v es2 w.
Proof.
  revert u. induction es1 as [| ed es1 IH]; intros u; simpl.
  - intros H. exists u. split; [constructor | done].
  - inversion 1 as [| ? x ? ? ? Hin Hj Hw]; subst.
    destruct (IH _ Hw) as (v & H1 & H2). exists v. split; [| done].
    econstructor; eauto.
Qed.

Lemma walk_snoc F u v w ed es :
  walk F u es v → ed ∈ F → joins ed v w → walk F u (es ++ [ed]) w.
Proof.
  intros H1 Hin Hj. eapply walk_app; [done |].
  econstructor; [done | done | constructor].
Qed.

Lemma walk_reverse F u es w : walk F u es w → walk F w (reverse es) u.
Proof.
  induction 1 as [| u v w ed es Hin Hj _ IH]; [constructor |].
  rw reverse_cons. eapply walk_snoc; [done | done | by apply joins_sym].
Qed.

Lemma connected_refl F u : connected F u u.
Proof. exists []. constructor. Qed.

Lemma connected_sym F u v : connected F u v → connected F v u.
Proof. intros [es H]. exists (reverse es). by apply walk_reverse. Qed.

Lemma connected_trans F u v w : connected F u v → connected F v w → connected F u w.
Proof. intros [es1 H1] [es2 H2]. exists (es1 ++ es2). by eapply walk_app. Qed.

Lemma connected_edge F ed u v : ed ∈ F → joins ed u v → connected F u v.
Proof. intros Hin Hj. exists [ed]. econstructor; [done | done | constructor]. Qed.

Lemma connected_mono F F' u v :
  (∀ ed, ed ∈ F → ed ∈ F') → connected F u v → connected F' u v.
Proof. intros Hsub [es H]. exists es. by eapply walk_mono. Qed.

(** Connectivity after one more edge. *)
Lemma connected_add_inv F ed u w :
  connected (F ++ [ed]) u w →
  connected F u w ∨
  (connected F u ed.1.2 ∧ connected F ed.2 w) ∨
  (connected F u ed.2 ∧ connected F ed.1.2 w).
Proof.
  intros [es H].
  induction H as [u | u v w ed' es Hin Hj _ IH].
  - left. apply connected_refl.
  - apply elem_of_app in Hin as [Hin | ->%list_elem_of_singleton].
    + pose proof (connected_edge _ _ _ _ Hin Hj) as Huv.
      destruct IH as [IH | [[IH1 IH2] | [IH1 IH2]]].
      * left. by eapply connected_trans.
      * right; left. split; [by eapply connected_trans | done].
      * right; right. split; [by eapply connected_trans | done].
    + destruct Hj as [[<- <-] | [<- <-]].
      * destruct IH as [IH | [[IH1 IH2] | [IH1 IH2]]].
        -- right; left. split; [apply connected_refl | done].
        -- left. eapply connected_trans; [| done]. by apply connected_sym.
        -- left. done.
      * destruct IH as [IH | [[IH1 IH2] | [IH1 IH2]]].
        -- right; right. split; [apply connected_refl | done].
        -- left. done.
        -- left. eapply connected_trans; [| done]. by apply connected_sym.
Qed.

Lemma connected_add F ed u w :
  connected (F ++ [ed]) u w ↔
  connected F u w ∨
  (connected F u ed.1.2 ∧ connected F ed.2 w) ∨
  (connected F u ed.2 ∧ connected F ed.1.2 w).
Proof.
  split; [apply connected_add_inv |].
  assert (∀ a b, connected F a b → connected (F ++ [ed]) a b) as Hm.
  { intros a b. apply connected_mono. intros ?. rw elem_of_app. auto. }
  assert (connected (F ++ [ed]) ed.1.2 ed.2) as Hed.
  { eapply connected_edge; [| by left].
    apply elem_of_app. right. apply list_elem_of_here. }
  intros [H | [[H1 H2] | [H1 H2]]].
  - by apply Hm.
  - eapply connected_trans; [by apply Hm |].
    eapply connected_trans; [exact Hed | by apply Hm].
  - eapply connected_trans; [by apply Hm |].
    eapply connected_trans; [apply connected_sym, Hed | by apply Hm].
Qed.

(** A walk that repeats no edge and uses [ed] splits around it into two
    walks that avoid it. *)
Lemma trail_split F ed u es w :
  walk F u es w → NoDup es → ed ∈ es →
  ∃ es1 es2 x y, es = es1 ++ ed :: es2 ∧ (ed ∉ es1) ∧ (ed ∉ es2) ∧
                 walk F u es1 x ∧ joins ed x y ∧ walk F y es2 w.
Proof.
  intros Hw Hnd Hin.
  apply list_elem_of_split in Hin as (es1 & es2 & ->).
  apply NoDup_app in Hnd as (_ & Hdisj & [Hed _]%NoDup_cons).
  destruct (walk_app_inv _ _ _ _ _ Hw) as (x & H1 & H2).
  inversion H2 as [| ? y ? ? ? _ Hj H3]; subst.
  exists es1, es2, x, y. split_and!; [done | | done | done | done | done].
  intros Hin. eapply Hdisj; [done | apply list_elem_of_here].
Qed.

Lemma walk_drop_edge F ed u es w :
  walk (F ++ [ed]) u es w → ed ∉ es → walk F u es w.
Proof.
  intros Hw Hnot. eapply walk_restrict; [done |].
  intros ed' Hed'. pose proof (walk_edges _ _ _ _ _ Hw Hed') as Hin.
  apply elem_of_app in Hin as [? | ->%list_elem_of_singleton]; done.
Qed.

(** A trail through a fresh edge connects that edge's endpoints the other
    way round, once the trail's own endpoints are connected. *)
Lemma trail_through_bridge F ed u es w :
  walk (F ++ [ed]) u es w → NoDup es → ed ∈ es → connected F w u →
  connected F ed.1.2 ed.2.
Proof.
  intros Hw Hnd Hin Hwu.
  destruct (trail_split _ _ _ _ _ Hw Hnd Hin)
    as (es1 & es2 & x & y & -> & Hn1 & Hn2 & H1 & Hj & H2).
  apply walk_drop_edge in H1, H2; [| done | done].
  assert (connected F y x) as Hyx.
  { eapply connected_trans; [by exists es2 |].
    eapply connected_trans; [done | by exists es1]. }
  destruct Hj as [[<- <-] | [<- <-]]; [by apply connected_sym | done].
Qed.
End walks.

(** * The spanning-forest loop *)

Section adjacency.
Implicit Types (adj : gmap nat (list nat)) (u v x y : nat).

Lemma neighbors_append adj u v x :
  neighbors (append_neighbor adj u v) x =
  if decide (x = u) then neighbors adj u ++ [v] else neighbors adj x.
Proof.
  unfold append_neighbor, neighbors at 1. case_decide as Hx.
  - subst. by rw lookup_insert_eq.
  - by rw lookup_insert_ne.
Qed.

Lemma elem_of_neighbors_link adj u v x y :
  y ∈ neighbors (append_neighbor (append_neighbor adj u v) v u) x ↔
  y ∈ neighbors adj x ∨ (x = u ∧ y = v) ∨ (x = v ∧ y = u).
Proof.
  rw !neighbors_append.
  repeat case_decide; subst; rw ?elem_of_app ?list_elem_of_singleton;
    intuition congruence.
Qed.
End adjacency.

Section roots.
Import DSU.
Implicit Types (p : gmap nat nat) (x y z r : nat).

Lemma is_root_repr p z : is_root p z ↔ repr p z z.
Proof.
  split; [apply repr_root |]. intros [l Hp]. by eapply ptr_root_fixed.
Qed.

Lemma same_set_refl p z : forest p → is_Some (p !! z) → same_set p z z.
Proof. intros Hf Hz. destruct (Hf z Hz) as [r Hr]. by exists r. Qed.

Lemma same_set_dom p z w : same_set p z w → is_Some (p !! z) ∧ is_Some (p !! w).
Proof. intros (r & [? Hz] & [? Hw]). split; by eapply ptr_is_Some. Qed.

Lemma filter_ext_in {A} (P Q : A → Prop) `{∀ a, Decision (P a)}
    `{∀ a, Decision (Q a)} (l : list A) :
  (∀ a, a ∈ l → P a ↔ Q a) → filter P l = filter Q l.
Proof.
  induction l as [| a l IH]; intros HPQ; [done |].
  rw !filter_cons. rw IH.
  - pose proof (HPQ a (list_elem_of_here _ _)).
    repeat case_decide; tauto || done.
  - intros b Hb. apply HPQ. by apply list_elem_of_further.
Qed.

Lemma filter_all {A} (P : A → Prop) `{∀ a, Decision (P a)} (l : list A) :
  (∀ a, a ∈ l → P a) → filter P l = l.
Proof.
  induction l as [| a l IH]; intros HP; [done |].
  rw filter_cons_True; [| apply HP, list_elem_of_here].
  rw IH //. intros b Hb. by apply HP, list_elem_of_further.
Qed.

Lemma length_filter_remove (P Q : nat → Prop) `{∀ x, Decision (P x)}
    `{∀ x, Decision (Q x)} (ids : list nat) (y : nat) :
  NoDup ids → y ∈ ids → P y → (∀ x, Q x ↔ P x ∧ x ≠ y) →
  length (filter P ids) = S (length (filter Q ids)).
Proof.
  intros Hnd Hy HPy HQ. induction ids as [| i ids IH]; [by apply elem_of_nil in Hy |].
  apply NoDup_cons in Hnd as [Hi Hnd]. rw !filter_cons.
  apply elem_of_cons in Hy as [<- | Hy].
  - rw decide_True // decide_False; [| rw HQ; tauto]. simpl. f_equal.
    f_equal. apply filter_ext_in. intros x Hx. rw HQ.
    split; [| tauto]. intros HPx. split; [done |]. by intros ->.
  - assert (i ≠ y) by (by intros ->). specialize (IH Hnd Hy).
    destruct (decide (P i)).
    + rw decide_True; [| rw HQ; tauto]. simpl. by rw IH.
    + rw decide_False //. rw HQ. tauto.
Qed.

Lemma length_filter_ext (P Q : nat → Prop) `{∀ x, Decision (P x)}
    `{∀ x, Decision (Q x)} (ids : list nat) :
  (∀ x, P x ↔ Q x) → length (filter P ids) = length (filter Q ids).
Proof. intros HPQ. f_equal. by apply list_filter_iff. Qed.
End roots.

Section kruskal.
Context (ids : list nat) (Hids : NoDup ids).
Implicit Types (p : gmap nat nat) (adj : gmap nat (list nat))
               (F done : list (Z * nat * nat)) (ed : Z * nat * nat).

Lemma walk_empty u es w : walk [] u es w → es = [] ∧ u = w.
Proof. inversion 1 as [| ? ? ? ? ? Hin]; [done | by apply elem_of_nil in Hin]. Qed.

Lemma kruskal_inv_init : kruskal_inv ids [] (DSU.init ids) ∅ [].
Proof using Type.
  split.
  - apply init_forest.
  - intros z. rw init_lookup. case_decide; [split; eauto | split; [by intros [] | done]].
  - intros z w. split.
    + intros [es [_ ->]%walk_empty]. by left.
    + intros [-> | (r & Hz & Hw)]; [apply connected_refl |].
      assert (∀ a r', DSU.repr (DSU.init ids) a r' → r' = a) as Hroot.
      { intros a r' Ha. eapply repr_root_eq; [| done].
        destruct Ha as [l Ha]. apply ptr_is_Some in Ha as [b Hb].
        rw init_lookup in Hb. rw init_lookup. by case_decide. }
      apply Hroot in Hz, Hw. subst. apply connected_refl.
  - intros u v. unfold neighbors. rw lookup_empty /=. split.
    + by intros ?%elem_of_nil.
    + intros [s [?%elem_of_nil | ?%elem_of_nil]]; done.
  - constructor.
  - by intros ed ?%elem_of_nil.
  - by intros u es [-> _]%walk_empty _.
  - by intros ed ?%elem_of_nil.
  - simpl. f_equal. apply filter_all.
    intros x Hx. unfold is_root. rw init_lookup decide_True //.
  - by intros ed es ed' ?%elem_of_nil.
Qed.

Lemma kruskal_size done p adj F :
  kruskal_inv ids done p adj F → (size p ≤ length ids)%nat.
Proof using Type. intros Hk. apply size_le_items, (ki_dom _ _ _ _ _ Hk). Qed.

(** A step of the loop that returns keeps the invariant. *)
Lemma kruskal_step_inv depth done p adj F ed p' adj' :
  kruskal_inv ids done p adj F →
  (∀ ed', ed' ∈ done → ed.1.1 ≤ ed'.1.1) →
  kruskal_step depth (p, adj) ed = Ok (p', adj') →
  ∃ F', kruskal_inv ids (done ++ [ed]) p' adj' F'.
Proof using Hids.
  intros [Hf Hdom Hsets Hadj HndF Hsub Hacy Hspan Hcount Hmax] Hdesc.
  destruct ed as [[s u] v]. simpl in *.
  destruct (DSU.union depth p u v) as [[p1 b] | |] eqn:Hun; [| done | done].
  simpl. intros [= <- <-].
  destruct (union_inv _ _ _ _ _ _ Hf Hun) as
    (rx & ry & Hrx & Hry & Hb & Hf' & _ & Hd' & Hr').
  rename p1 into p'.
  assert (∀ z, is_Some (p' !! z) ↔ z ∈ ids) as Hdom'.
  { intros z. by rw Hd' Hdom. }
  destruct b.
  - (* the union succeeded *)
    assert (rx ≠ ry) as Hne by by apply Hb.
    assert (∀ z rz', DSU.repr p' z rz' ↔
              ∃ rz, DSU.repr p z rz ∧ rz' = if decide (rz = ry) then rx else rz)
      as Hr.
    { intros z rz'. rw Hr'. split; intros (rz & Hz & ->); exists rz; (split; [done |]);
        repeat case_decide; intuition congruence. }
    clear Hr'.
    assert (DSU.repr p rx rx) as Hrxx.
    { apply repr_root. destruct Hrx as [l Hl]. by eapply ptr_root_fixed. }
    assert (DSU.repr p ry ry) as Hryy.
    { apply repr_root. destruct Hry as [l Hl]. by eapply ptr_root_fixed. }
    assert (∀ z, (z = u ∨ same_set p z u) ↔ DSU.repr p z rx) as Hcu.
    { intros z. split.
      - intros [-> | (r & Hz & Hu')]; [done |].
        by rw (repr_det _ _ _ _ Hrx Hu').
      - intros Hz. right. by exists rx. }
    assert (∀ z, (z = v ∨ same_set p z v) ↔ DSU.repr p z ry) as Hcv.
    { intros z. split.
      - intros [-> | (r & Hz & Hv')]; [done |].
        by rw (repr_det _ _ _ _ Hry Hv').
      - intros Hz. right. by exists ry. }
    assert (¬ connected F u v) as Hnc.
    { intros Hc%Hsets. apply Hcv in Hc. apply Hne. by apply (repr_det p u). }
    assert (∀ z w, same_set p' z w ↔
              same_set p z w ∨ (DSU.repr p z rx ∧ DSU.repr p w ry) ∨
              (DSU.repr p z ry ∧ DSU.repr p w rx)) as Hs'.
    { intros z w. split.
      - intros (r & (rz & Hz & ->)%Hr & (rw & Hw & Heq)%Hr).
        repeat case_decide; subst.
        + left. by exists ry.
        + right; right. done.
        + right; left. done.
        + left. by exists rw.
      - intros [(r & Hz & Hw) | [[Hz Hw] | [Hz Hw]]].
        + exists (if decide (r = ry) then rx else r). split; apply Hr; by exists r.
        + exists rx. split; apply Hr.
          * exists rx. by rw decide_False.
          * exists ry. by rw decide_True.
        + exists rx. split; apply Hr.
          * exists ry. by rw decide_True.
          * exists rx. by rw decide_False. }
    exists (F ++ [(s, u, v)]). split.
    + done.
    + done.
    + intros z w. rw connected_add /= !Hsets Hs'.
      pose proof (Hcu z). pose proof (Hcv z).
      assert ((u = w ∨ same_set p u w) ↔ DSU.repr p w rx) as Hwu.
      { rw -Hcu. split; (intros [-> | (r & ? & ?)]; [by left | right; by exists r]). }
      assert ((v = w ∨ same_set p v w) ↔ DSU.repr p w ry) as Hwv.
      { rw -Hcv. split; (intros [-> | (r & ? & ?)]; [by left | right; by exists r]). }
      tauto.
    + intros x y. rw elem_of_neighbors_link Hadj. split.
      * intros [[s' [H1 | H1]] | [[-> ->] | [-> ->]]].
        -- exists s'. left. apply elem_of_app. by left.
        -- exists s'. right. apply elem_of_app. by left.
        -- exists s. left. apply elem_of_app. right. apply list_elem_of_here.
        -- exists s. right. apply elem_of_app. right. apply list_elem_of_here.
      * intros [s' [[H1 | H1%list_elem_of_singleton]%elem_of_app |
                    [H1 | H1%list_elem_of_singleton]%elem_of_app]].
        -- left. exists s'. by left.
        -- injection H1 as -> -> ->. right. by left.
        -- left. exists s'. by right.
        -- injection H1 as -> -> ->. right. by right.
    + apply NoDup_app. split_and!; [done | | apply NoDup_singleton].
      intros ed Hed ->%list_elem_of_singleton.
      apply Hnc. eapply connected_edge; [done | by left].
    + intros ed [Hed | Hed]%elem_of_app; apply elem_of_app; auto.
    + intros w es Hw Hnd. destruct (decide ((s, u, v) ∈ es)) as [Hin | Hnin].
      * exfalso. apply Hnc.
        apply (trail_through_bridge F (s, u, v) w es w Hw Hnd Hin), connected_refl.
      * apply (Hacy w). by eapply walk_drop_edge. done.
    + intros ed [Hed | ->%list_elem_of_singleton]%elem_of_app.
      * eapply connected_mono; [| by apply Hspan].
        intros ?. rw elem_of_app. auto.
      * eapply connected_edge; [| by left].
        apply elem_of_app. right. apply list_elem_of_here.
    + rw length_app /=.
      enough (length (filter (is_root p) ids) = S (length (filter (is_root p') ids)))
        by lia.
      apply (length_filter_remove (is_root p) (is_root p') ids ry); [done | | |].
      * apply Hdom. destruct Hry as [l Hl]. apply ptr_root_fixed in Hl. eauto.
      * by apply is_root_repr.
      * intros x. rw !is_root_repr Hr. split.
        -- intros (rz & Hx & Heq). case_decide; subst.
           ++ exfalso. apply Hne. by eapply repr_det.
           ++ split; [done |]. intros ->. by apply H.
        -- intros [Hx Hxy]. exists x. split; [done |]. by rw decide_False.
    + intros ed es ed' [Hed | ->%list_elem_of_singleton]%elem_of_app Hw Hnd Hed'.
      * destruct (decide ((s, u, v) ∈ es)) as [Hin | Hnin].
        -- exfalso. apply Hnc.
           apply (trail_through_bridge F (s, u, v) _ es _ Hw Hnd Hin).
           by apply connected_sym, Hspan.
        -- eapply Hmax; [done | by eapply walk_drop_edge | done | done].
      * pose proof (walk_edges _ _ _ _ _ Hw Hed') as Hin.
        apply elem_of_app in Hin as [Hin | ->%list_elem_of_singleton]; [| done].
        by apply Hdesc, Hsub.
  - (* the two frames were already in one set *)
    assert (rx = ry) as <-.
    { apply dec_stable. intros Hne. by apply Hb in Hne. }
    assert (∀ z rz, DSU.repr p' z rz ↔ DSU.repr p z rz) as Hr.
    { intros z rz. rw Hr'. split.
      - intros (rz' & Hz & ->). by case_decide; [intuition congruence |].
      - intros Hz. exists rz. split; [done |]. by case_decide; [intuition congruence |]. }
    clear Hr'.
    assert (∀ z w, same_set p' z w ↔ same_set p z w) as Hs'.
    { intros z w. unfold same_set. by setoid_rewrite Hr. }
    exists F. split.
    + done.
    + done.
    + intros z w. by rw Hsets Hs'.
    + done.
    + done.
    + intros ed Hed. apply elem_of_app. auto.
    + done.
    + intros ed [Hed | ->%list_elem_of_singleton]%elem_of_app; [by apply Hspan |].
      apply Hsets. right. by exists rx.
    + rw -Hcount. f_equal. apply length_filter_ext.
      intros x. by rw !is_root_repr Hr.
    + intros ed es ed' [Hed | ->%list_elem_of_singleton]%elem_of_app Hw Hnd Hed'.
      * by eapply Hmax.
      * apply Hdesc, Hsub. by eapply walk_edges.
Qed.

(** A step returns when there are no more frames than the depth allowed. *)
Lemma kruskal_step_returns depth done p adj F ed :
  kruskal_inv ids done p adj F →
  ed.1.2 ∈ ids → ed.2 ∈ ids → (length ids ≤ depth)%nat →
  ∃ st, kruskal_step depth (p, adj) ed = Ok st.
Proof using Type.
  intros Hk Hu Hv Hdepth. destruct ed as [[s u] v]. simpl in *.
  pose proof (kruskal_size _ _ _ _ Hk) as Hsize.
  destruct (union_returns depth p u v (ki_forest _ _ _ _ _ Hk)) as (p' & b & Hun);
    [by apply (ki_dom _ _ _ _ _ Hk) | by apply (ki_dom _ _ _ _ _ Hk) | lia |].
  rw Hun /=. eauto.
Qed.


Lemma kruskal_loop_inv depth todo : ∀ done p adj F p' adj',
  kruskal_inv ids done p adj F →
  descending (done ++ todo) →
  ofoldl (kruskal_step depth) (p, adj) todo = Ok (p', adj') →
  ∃ F', kruskal_inv ids (done ++ todo) p' adj' F'.
Proof using Hids.
  induction todo as [| ed todo IH]; intros done p adj F p' adj' Hinv Hdesc Hloop.
  - injection Hloop as <- <-. exists F. by rw app_nil_r.
  - rw ofoldl_cons in Hloop.
    destruct (kruskal_step depth (p, adj) ed) as [[p1 adj1] | |] eqn:Hstep;
      [| done | done].
    simpl in Hloop.
    destruct (kruskal_step_inv depth done p adj F ed p1 adj1 Hinv) as [F1 Hinv1];
      [| done |].
    { intros ed' Hed'. eapply descending_app; [done | done | apply list_elem_of_here]. }
    rw (cons_middle ed done todo) (assoc app) in Hdesc.
    destruct (IH (done ++ [ed]) p1 adj1 F1 p' adj' Hinv1 Hdesc Hloop) as [F' Hinv'].
    exists F'. by rw (cons_middle ed done todo) (assoc app).
Qed.

Lemma kruskal_loop_returns depth todo : ∀ done p adj F,
  kruskal_inv ids done p adj F →
  (∀ ed, ed ∈ todo → ed.1.2 ∈ ids ∧ ed.2 ∈ ids) →
  descending (done ++ todo) →
  (length ids ≤ depth)%nat →
  ∃ st, ofoldl (kruskal_step depth) (p, adj) todo = Ok st.
Proof using Hids.
  induction todo as [| ed todo IH]; intros done p adj F Hinv Hends Hdesc Hdepth.
  - by exists (p, adj).
  - destruct (Hends ed (list_elem_of_here _ _)) as [Hu Hv].
    destruct (kruskal_step_returns depth done p adj F ed Hinv Hu Hv Hdepth)
      as ([p1 adj1] & Hstep).
    destruct (kruskal_step_inv depth done p adj F ed p1 adj1 Hinv) as [F1 Hinv1];
      [| done |].
    { intros ed' Hed'. eapply descending_app; [done | done | apply list_elem_of_here]. }
    rw (cons_middle ed done todo) (assoc app) in Hdesc.
    destruct (IH (done ++ [ed]) p1 adj1 F1 Hinv1) as (st & Hloop); [| done | done |].
    { intros ed' Hed'. by apply Hends, list_elem_of_further. }
    exists st. by rw ofoldl_cons Hstep /=.
Qed.


(** When the spanning-forest loop returns, its result satisfies the
    invariant for the whole score list. *)
Lemma spanning_forest_inv depth all_scores p adj :
  descending all_scores →
  spanning_forest depth ids all_scores = Ok (p, adj) →
  ∃ F, kruskal_inv ids all_scores p adj F.
Proof using Hids.
  intros Hdesc Hsf.
  apply (kruskal_loop_inv depth all_scores [] _ _ [] p adj kruskal_inv_init Hdesc Hsf).
Qed.

(** It returns when there are no more frames than the depth allowed. *)
Lemma spanning_forest_returns depth all_scores :
  (∀ ed, ed ∈ all_scores → ed.1.2 ∈ ids ∧ ed.2 ∈ ids) →
  descending all_scores →
  (length ids ≤ depth)%nat →
  ∃ st, spanning_forest depth ids all_scores = Ok st.
Proof using Hids.
  intros Hends Hdesc Hdepth.
  apply (kruskal_loop_returns depth all_scores [] _ _ [] kruskal_inv_init Hends Hdesc Hdepth).
Qed.
End kruskal.

(** * The two traversals *)

Lemma set_add_fresh (x : nat) (s : list nat) : x ∉ s → set_add x s = s ++ [x].
Proof. intros Hx. unfold set_add. by rw decide_False. Qed.

Section inner_loops.
Implicit Types (q vis nbrs new : list nat) (cv : gset nat) (deps : gmap nat nat).

(** The inner loop of the first traversal appends to the queue the
    neighbours not seen before, once each. *)
Lemma scan_neighbors_spec nbrs : ∀ cv q,
  ∃ new, scan_neighbors nbrs cv q = (list_to_set new ∪ cv, q ++ new) ∧
         NoDup new ∧ ∀ x, x ∈ new ↔ x ∈ nbrs ∧ x ∉ cv.
Proof.
  unfold scan_neighbors.
  induction nbrs as [| c nbrs IH]; intros cv q; simpl.
  - exists []. rw app_nil_r /=. split_and!; [f_equal; set_solver | constructor |].
    intros x. split; [by intros ?%elem_of_nil | by intros [?%elem_of_nil _]].
  - case_decide as Hc.
    + destruct (IH cv q) as (new & -> & Hnd & Hnew). exists new.
      split_and!; [done | done |]. intros x. rw Hnew elem_of_cons.
      split; [tauto |]. intros [[-> | ?] ?]; done.
    + destruct (IH ({[c]} ∪ cv) (q ++ [c])) as (new & -> & Hnd & Hnew).
      exists (c :: new). split_and!.
      * rw -(assoc app) /=. f_equal. set_solver.
      * apply NoDup_cons. split; [| done]. rw Hnew. set_solver.
      * intros x. rw !elem_of_cons Hnew. split.
        -- intros [-> | [? ?]]; [tauto | set_solver].
        -- intros [[-> | ?] ?]; [tauto |]. destruct (decide (x = c)); [tauto |].
           right. set_solver.
Qed.

(** The inner loop of the second traversal does the same and records the
    popped node as the parent of each newcomer. *)
Lemma visit_children_spec parent_id nbrs : ∀ vis deps q,
  ∃ new, visit_children parent_id nbrs (vis, deps, q) =
           (vis ++ new, foldr (fun c d => <[c := parent_id]> d) deps (reverse new), q ++ new) ∧
         NoDup new ∧ ∀ x, x ∈ new ↔ x ∈ nbrs ∧ x ∉ vis.
Proof.
  unfold visit_children.
  induction nbrs as [| c nbrs IH]; intros vis deps q; simpl.
  - exists []. rw !app_nil_r /=. split_and!; [done | constructor |].
    intros x. split; [by intros ?%elem_of_nil | by intros [?%elem_of_nil _]].
  - case_decide as Hc.
    + destruct (IH vis deps q) as (new & -> & Hnd & Hnew). exists new.
      split_and!; [done | done |]. intros x. rw Hnew elem_of_cons.
      split; [tauto |]. intros [[-> | ?] ?]; done.
    + rw set_add_fresh //.
      destruct (IH (vis ++ [c]) (<[c := parent_id]> deps) (q ++ [c]))
        as (new & -> & Hnd & Hnew).
      exists (c :: new). split_and!.
      * rw -!(assoc app) /= reverse_cons foldr_app //.
      * apply NoDup_cons. split; [| done]. rw Hnew elem_of_app. set_solver.
      * intros x. rw !elem_of_cons Hnew elem_of_app list_elem_of_singleton. split.
        -- intros [-> | [? ?]]; tauto.
        -- intros [[-> | ?] ?]; [tauto |]. destruct (decide (x = c)); tauto.
Qed.

Lemma lookup_foldr_insert parent_id new deps c :
  foldr (fun c d => <[c := parent_id]> d) deps new !! c =
  if decide (c ∈ new) then Some parent_id else deps !! c.
Proof.
  induction new as [| x new IH]; simpl; [done |].
  destruct (decide (c = x)) as [-> | Hne].
  - rw lookup_insert_eq decide_True //. apply list_elem_of_here.
  - rw lookup_insert_ne // IH. case_decide.
    + rw decide_True //. by apply list_elem_of_further.
    + rw decide_False //. by intros [? | ?]%elem_of_cons.
Qed.

Lemma lookup_foldr_insert_rev parent_id new deps c :
  foldr (fun c d => <[c := parent_id]> d) deps (reverse new) !! c =
  if decide (c ∈ new) then Some parent_id else deps !! c.
Proof.
  rw lookup_foldr_insert.
  destruct (decide (c ∈ new)) as [Hc | Hc].
  - rw decide_True //. by apply elem_of_reverse.
  - rw decide_False //. by rw elem_of_reverse.
Qed.
End inner_loops.

Section min.
Context {A : Type} (key : A → Z).

Lemma min_from_spec l : ∀ l0 best l0',
  (∀ y, y ∈ l0 → key best < key y) →
  (∀ y, y ∈ l0' → key best ≤ key y) →
  first_min key (l0 ++ best :: l0' ++ l) (min_from key best l).
Proof.
  induction l as [| x l IH]; intros l0 best l0' H0 H0'; simpl.
  - exists l0, l0'. by rw app_nil_r.
  - case_decide as Hx.
    + specialize (IH (l0 ++ best :: l0') x []).
      rw -(assoc app) /= in IH. apply IH.
      * intros y [Hy | [-> | Hy]%elem_of_cons]%elem_of_app; [| done |].
        -- specialize (H0 y Hy). lia.
        -- specialize (H0' y Hy). lia.
      * by intros y ?%elem_of_nil.
    + specialize (IH l0 best (l0' ++ [x])).
      rw -(assoc app) /= in IH. apply IH; [done |].
      intros y [Hy | ->%list_elem_of_singleton]%elem_of_app; [by apply H0' | lia].
Qed.

Lemma first_min_elem l r : first_min key l r → r ∈ l.
Proof.
  intros (l1 & l2 & -> & _). apply elem_of_app. right. apply list_elem_of_here.
Qed.

Lemma first_min_least l r y : first_min key l r → y ∈ l → key r ≤ key y.
Proof.
  intros (l1 & l2 & -> & H1 & H2) [Hy | [-> | Hy]%elem_of_cons]%elem_of_app.
  - specialize (H1 y Hy). lia.
  - lia.
  - by apply H2.
Qed.

Lemma min_from_fmap {B} (f : B → A) best (l : list B) :
  min_from key (f best) (f <$> l) = f (min_from (key ∘ f) best l).
Proof.
  revert best. induction l as [| x l IH]; intros best; simpl; [done |].
  case_decide; by rw IH.
Qed.
End min.

Section root_choice.
Context (e : env) (id_to_path : gmap nat string).

Lemma stat_sizes_ok (l : list nat) :
  (∀ x, x ∈ l → is_Some (id_to_path !! x)) →
  stat_sizes e id_to_path l = Ok ((fun x => (x, frame_size e id_to_path x)) <$> l).
Proof.
  induction l as [| x l IH]; intros Hl; simpl; [done |].
  destruct (Hl x (list_elem_of_here _ _)) as [p Hp].
  unfold getitem. rw Hp /= IH /=.
  - by rw /frame_size Hp.
  - intros y Hy. by apply Hl, list_elem_of_further.
Qed.

Lemma optimal_root_ok (comp : list nat) :
  comp ≠ [] → (∀ x, x ∈ comp → is_Some (id_to_path !! x)) →
  ∃ r, optimal_root e id_to_path comp = Ok r ∧
       first_min (frame_size e id_to_path) comp r.
Proof.
  intros Hne Hl. unfold optimal_root. rw stat_sizes_ok //=.
  destruct comp as [| x comp]; [done |]. simpl.
  exists (min_from (frame_size e id_to_path) x comp). split.
  - by rw (min_from_fmap snd (fun x => (x, frame_size e id_to_path x))).
  - apply (min_from_spec _ comp [] x []); by intros y ?%elem_of_nil.
Qed.
End root_choice.

Section traversals.
Context (e : env) (id_to_path : gmap nat string).
Context (adj : gmap nat (list nat)) (ids : list nat).
Context (Hadj_ids : ∀ x y, adjacent adj x y → x ∈ ids ∧ y ∈ ids).
Context (Hsym : ∀ x y, adjacent adj x y → adjacent adj y x).
Implicit Types (q vis comp roots : list nat) (cv : gset nat) (deps : gmap nat nat).

Lemma reach_sym x y : reach adj x y → reach adj y x.
Proof.
  induction 1 as [| x y z Hxy _ IH]; [done |].
  eapply rtc_r; [done | by apply Hsym].
Qed.

Lemma reach_trans x y z : reach adj x y → reach adj y z → reach adj x z.
Proof. unfold reach. intros ? ?. by etrans. Qed.

Lemma reach_ids x y : x ∈ ids → reach adj x y → y ∈ ids.
Proof.
  intros Hx. induction 1 as [| x y z Hxy _ IH]; [done |].
  apply IH. by apply (Hadj_ids x y).
Qed.

Lemma reach_closed (P : nat → Prop) x y :
  (∀ a b, P a → adjacent adj a b → P b) → P x → reach adj x y → P y.
Proof.
  intros Hcl Hx. induction 1 as [| x y z Hxy _ IH]; [done |]. apply IH. eauto.
Qed.

Lemma NoDup_length_ids (l : list nat) :
  NoDup l → (∀ x, x ∈ l → x ∈ ids) → (length l ≤ length ids)%nat.
Proof. intros Hnd Hsub. by apply submseteq_length, NoDup_submseteq. Qed.

(** ** The first traversal *)

Lemma component_loop_done s fuel cv comp :
  component_inv adj ids s [] cv comp →
  ∃ res, component_loop fuel adj [] cv comp = Ok res ∧
         component_inv adj ids s [] (list_to_set res) res.
Proof.
  clear Hadj_ids Hsym.
  intros [Hm Hnd Hcl Hr Hs Hh Hi]. exists comp.
  split; [by destruct fuel |].
  rw app_nil_r in Hnd Hh.
  assert (∀ y, y ∈ cv ↔ y ∈ (list_to_set comp : gset nat)) as Heq.
  { intros y. rw Hm elem_of_list_to_set. set_solver. }
  split; rw ?app_nil_r; try done.
  - intros y. rw elem_of_list_to_set. set_solver.
  - intros x y Hx Hxy. rw -Heq. eauto.
  - intros y. rw -Heq. eauto.
  - by rw -Heq.
  - intros y. rw -Heq. eauto.
Qed.

Lemma component_loop_inv s fuel : ∀ q cv comp,
  component_inv adj ids s q cv comp →
  (length ids ≤ fuel + length comp)%nat →
  ∃ res, component_loop fuel adj q cv comp = Ok res ∧
         component_inv adj ids s [] (list_to_set res) res.
Proof.
  clear Hsym.
  induction fuel as [| fuel IH]; intros q cv comp Hinv Hfuel.
  - destruct q as [| x q]; [by apply component_loop_done |].
    exfalso. destruct Hinv as [Hm Hnd _ _ _ _ Hi].
    assert (length (comp ++ x :: q) ≤ length ids)%nat as Hlen.
    { apply NoDup_length_ids; [done |]. intros y Hy. apply Hi, Hm.
      set_solver. }
    rw length_app /= in Hlen. lia.
  - destruct q as [| x q]; [by apply component_loop_done |].
    + destruct Hinv as [Hm Hnd Hcl Hr Hs Hh Hi]. simpl.
      destruct (scan_neighbors_spec (neighbors adj x) cv q) as (new & -> & Hndn & Hnew).
      simpl. apply IH; [| rw length_app /=; lia].
      assert (x ∈ cv) as Hx by (apply Hm; set_solver).
      split.
      * intros y. rw elem_of_union elem_of_list_to_set Hm !elem_of_app
          list_elem_of_singleton elem_of_cons. tauto.
      * replace ((comp ++ [x]) ++ q ++ new) with ((comp ++ x :: q) ++ new)
          by (by rw -!(assoc app)).
        apply NoDup_app. split_and!; [done | | done].
        intros y Hy Hyn. apply Hnew in Hyn as [_ Hyn]. apply Hyn, Hm.
        set_solver.
      * intros z y [Hz | ->%list_elem_of_singleton]%elem_of_app Hzy.
        -- apply elem_of_union. right. eauto.
        -- rw elem_of_union elem_of_list_to_set Hnew.
           destruct (decide (y ∈ cv)); auto.
      * intros y [Hy%elem_of_list_to_set | Hy]%elem_of_union; [| eauto].
        apply Hnew in Hy as [Hy _]. eapply rtc_r; [by apply Hr | done].
      * set_solver.
      * replace ((comp ++ [x]) ++ q ++ new) with ((comp ++ x :: q) ++ new)
          by (by rw -!(assoc app)).
        rw -Hh. destruct (comp ++ x :: q) eqn:E; [by destruct comp | done].
      * intros y [Hy%elem_of_list_to_set | Hy]%elem_of_union; [| eauto].
        apply Hnew in Hy as [Hy _]. by apply (Hadj_ids x y).
Qed.

(** The first traversal returns exactly the frames reachable from its
    start, the start first. *)
Lemma component_loop_spec s :
  s ∈ ids →
  ∃ comp, component_loop (length ids) adj [s] {[s]} [] = Ok comp ∧
          (∀ y, y ∈ comp ↔ reach adj s y) ∧ NoDup comp ∧ head comp = Some s.
Proof.
  clear Hsym.
  intros Hs.
  destruct (component_loop_inv s (length ids) [s] {[s]} []) as (comp & Hc & Hinv).
  - split; simpl.
    + set_solver.
    + apply NoDup_singleton.
    + by intros x y ?%elem_of_nil.
    + intros x ->%elem_of_singleton. constructor.
    + set_solver.
    + done.
    + by intros x ->%elem_of_singleton.
  - simpl. lia.
  - exists comp. destruct Hinv as [Hm Hnd Hcl Hr Hst Hh Hi].
    rw app_nil_r in Hnd Hh. split_and!; [done | | done | done].
    intros y. split.
    + intros Hy. apply Hr. by apply elem_of_list_to_set.
    + intros Hy. apply (reach_closed (fun y => y ∈ comp) s y); [| | done].
      * intros a b Ha Hab. apply (elem_of_list_to_set (C := gset nat)). eauto.
      * by apply (elem_of_list_to_set (C := gset nat)).
Qed.

(** ** The second traversal *)

Lemma discovered_before_app vis new a b :
  discovered_before vis a b → discovered_before (vis ++ new) a b.
Proof.
  intros (i & j & Hi & Hj & Hij). exists i, j.
  split_and!; [by apply lookup_app_l_Some | by apply lookup_app_l_Some | done].
Qed.

Lemma discovered_before_new vis new a b :
  a ∈ vis → b ∈ new → discovered_before (vis ++ new) a b.
Proof.
  intros [i Hi]%list_elem_of_lookup [j Hj]%list_elem_of_lookup.
  exists i, (length vis + j)%nat. split_and!.
  - by apply lookup_app_l_Some.
  - rw lookup_app_r; [| lia]. by rw Nat.add_comm Nat.add_sub.
  - apply lookup_lt_Some in Hi. lia.
Qed.

Lemma assign_loop_inv roots fuel : ∀ q vis deps,
  assign_inv e id_to_path adj ids roots q vis deps →
  (length q + length ids ≤ fuel + length vis)%nat →
  ∃ vis' deps', assign_loop fuel adj q vis deps = Ok (vis', deps') ∧
                assign_inv e id_to_path adj ids roots [] vis' deps' ∧
                (∀ x, x ∈ vis → x ∈ vis').
Proof.
  clear Hsym.
  induction fuel as [| fuel IH]; intros q vis deps Hinv Hfuel.
  - destruct q as [| x q]; [by exists vis, deps |].
    exfalso. pose proof (NoDup_length_ids vis (ai_nodup _ _ _ _ _ _ _ _ Hinv)
                           (ai_ids _ _ _ _ _ _ _ _ Hinv)).
    simpl in Hfuel. lia.
  - destruct q as [| x q]; [by exists vis, deps |].
    destruct Hinv as [Hnd Hi Hq Hcl Hd Hcov Hr Hrn Hrt Hap Hle]. simpl.
    destruct (visit_children_spec x (neighbors adj x) vis deps q)
      as (new & -> & Hndn & Hnew).
    assert (x ∈ vis) as Hx by (apply Hq; set_solver).
    destruct (IH (q ++ new) (vis ++ new)
                 (foldr (fun c d => <[c := x]> d) deps (reverse new)))
      as (vis' & deps' & Hloop & Hinv' & Hsub).
    + split.
      * apply NoDup_app. split_and!; [done | | done].
        intros y Hy Hyn. by apply Hnew in Hyn as [_ Hyn].
      * intros y [Hy | Hy]%elem_of_app; [eauto |].
        apply Hnew in Hy as [Hy _]. by apply (Hadj_ids x y).
      * intros y [Hy | Hy]%elem_of_app; apply elem_of_app; [| by right].
        left. apply Hq. set_solver.
      * intros z y [Hz | Hz]%elem_of_app Hzq Hzy; [| set_solver].
        apply elem_of_app. destruct (decide (z = x)) as [-> | Hzx].
        -- destruct (decide (y ∈ vis)); [by left | right]. by apply Hnew.
        -- left. apply (Hcl z y); [done | | done]. set_solver.
      * intros c p. rw lookup_foldr_insert_rev. case_decide as Hc.
        -- intros [= <-]. split.
           ++ by apply discovered_before_new.
           ++ by apply Hnew in Hc as [Hc _].
        -- intros [Hb Ha]%Hd. split; [by apply discovered_before_app | done].
      * intros y. rw lookup_foldr_insert_rev.
        intros [Hy | Hy]%elem_of_app.
        -- case_decide; [right; eauto | by apply Hcov].
        -- right. rw decide_True //.
      * intros r Hr'. destruct (Hr r Hr') as [Hnone Hvis]. split.
        -- rw lookup_foldr_insert_rev decide_False //.
           intros Hrn'. by apply Hnew in Hrn' as [_ ?].
        -- apply elem_of_app. by left.
      * done.
      * intros y [Hy | Hy]%elem_of_app; [by apply Hrt |].
        destruct (Hrt x Hx) as (r & Hr' & Hrx). exists r. split; [done |].
        eapply rtc_r; [done |]. by apply Hnew in Hy as [Hy _].
      * done.
      * done.
    + rw !length_app. simpl in Hfuel. lia.
    + exists vis', deps'. split_and!; [done | done |].
      intros y Hy. apply Hsub, elem_of_app. by left.
Qed.
End traversals.

(** * The outer loop: one root and one tree per component *)

Section build.
Context (e : env) (image_paths_rel : list string).
Context (adj : gmap nat (list nat)).
Let id_to_path := make_id_to_path image_paths_rel.
Let ids := frame_ids image_paths_rel.
Context (Hadj_ids : ∀ x y, adjacent adj x y → x ∈ ids ∧ y ∈ ids).
Context (Hsym : ∀ x y, adjacent adj x y → adjacent adj y x).

#[local] Abbreviation inv := (assign_inv e id_to_path adj ids).

Lemma build_fuel : size id_to_path = length ids.
Proof.
  unfold id_to_path, ids. by rw make_id_to_path_size frame_ids_seq length_seq.
Qed.

Lemma id_to_path_is_Some x : x ∈ ids → is_Some (id_to_path !! x).
Proof.
  unfold ids, id_to_path. rw elem_of_frame_ids make_id_to_path_lookup.
  apply lookup_lt_is_Some_2.
Qed.

Lemma inv_closed roots vis deps x y :
  inv roots [] vis deps → x ∈ vis → reach adj x y → y ∈ vis.
Proof.
  intros Hinv Hx Hxy. apply (reach_closed adj (fun y => y ∈ vis) x y); [| done..].
  intros a b Ha Hab. eapply (ai_closed _ _ _ _ _ _ _ _ Hinv); [done | | done].
  apply not_elem_of_nil.
Qed.

Lemma inv_empty : inv [] [] [] ∅.
Proof.
  split.
  - constructor.
  - by intros ? ?%elem_of_nil.
  - by intros ? ?%elem_of_nil.
  - by intros ? ? ?%elem_of_nil.
  - intros c p. by rw lookup_empty.
  - by intros ? ?%elem_of_nil.
  - by intros ? ?%elem_of_nil.
  - constructor.
  - by intros ? ?%elem_of_nil.
  - by intros ? ? ?%elem_of_nil.
  - by intros ? ?%elem_of_nil.
Qed.

Lemma build_component_inv st image_id :
  inv (root_image_ids st) [] (visited_ids st) (dependencies_by_id st) →
  image_id ∈ ids →
  (∀ x, (x < image_id)%nat → x ∈ visited_ids st) →
  ∃ st', build_component e id_to_path adj st image_id = Ok st' ∧
         inv (root_image_ids st') [] (visited_ids st') (dependencies_by_id st') ∧
         (∀ x, x ∈ visited_ids st → x ∈ visited_ids st') ∧
         image_id ∈ visited_ids st'.
Proof.
  destruct st as [roots deps vis]. simpl. intros Hinv Hid Hlow.
  unfold build_component. simpl. case_decide as Hvis; [by exists (GraphState roots deps vis) |].
  rw build_fuel.
  destruct (component_loop_spec adj ids Hadj_ids image_id Hid)
    as (comp & Hloop & Hcomp & Hndc & Hhead). rw Hloop /=.
  destruct (optimal_root_ok e id_to_path comp) as (r & -> & Hmin).
  { by destruct comp. }
  { intros x Hx. apply id_to_path_is_Some.
    apply (reach_ids adj ids Hadj_ids image_id); [done | by apply Hcomp]. }
  simpl.
  assert (reach adj image_id r) as Hir.
  { apply Hcomp. by eapply first_min_elem. }
  assert (reach adj r image_id) as Hri by (by apply reach_sym).
  assert (r ∈ ids) as Hrid by (by apply (reach_ids adj ids Hadj_ids image_id)).
  assert (∀ y, reach adj r y → y ∉ vis) as Hfresh.
  { intros y Hry Hy. apply Hvis. apply (inv_closed roots vis deps y); [done | done |].
    eapply reach_trans; [by apply reach_sym | done]. }
  assert (r ∉ vis) as Hr by (apply Hfresh; constructor).
  rw set_add_fresh //.
  destruct Hinv as [Hnd Hi Hq Hcl Hd Hcov Hrs Hrn Hrt Hap Hle].
  assert (inv (roots ++ [r]) [r] (vis ++ [r]) deps) as Hinv1.
  { split.
    - apply NoDup_app. split_and!; [done | | apply NoDup_singleton].
      by intros y Hy ->%list_elem_of_singleton.
    - intros y [Hy | ->%list_elem_of_singleton]%elem_of_app; auto.
    - intros y ->%list_elem_of_singleton. apply elem_of_app. right. apply list_elem_of_here.
    - intros x y [Hx | Hx]%elem_of_app Hxq Hxy; [| done].
      apply elem_of_app. left. apply (Hcl x y); [done | apply not_elem_of_nil | done].
    - intros c p [Hb Ha]%Hd. split; [by apply (discovered_before_app) | done].
    - intros y [Hy | ->%list_elem_of_singleton]%elem_of_app.
      + destruct (Hcov y Hy); [left; apply elem_of_app; by left | by right].
      + left. apply elem_of_app. right. apply list_elem_of_here.
    - intros r' [Hr' | ->%list_elem_of_singleton]%elem_of_app.
      + destruct (Hrs r' Hr'). split; [done | apply elem_of_app; by left].
      + split; [| apply elem_of_app; right; apply list_elem_of_here].
        destruct (deps !! r) as [p |] eqn:Hp; [| done].
        destruct (Hd _ _ Hp) as [(i & j & _ & Hj & _) _].
        exfalso. apply Hr. by eapply list_elem_of_lookup_2.
    - apply NoDup_app. split_and!; [done | | apply NoDup_singleton].
      intros y Hy ->%list_elem_of_singleton. by apply Hr, Hrs.
    - intros y [Hy | ->%list_elem_of_singleton]%elem_of_app.
      + destruct (Hrt y Hy) as (r' & Hr' & Hry). exists r'.
        split; [apply elem_of_app; by left | done].
      + exists r. split; [apply elem_of_app; right; apply list_elem_of_here | constructor].
    - intros r1 r2 [H1 | ->%list_elem_of_singleton]%elem_of_app
                   [H2 | ->%list_elem_of_singleton]%elem_of_app H12.
      + by apply Hap.
      + exfalso. apply Hr.
        apply (reach_closed adj (fun y => y ∈ vis) r1 r); [| by apply Hrs | done].
        intros a b Ha Hab. apply (Hcl a b); [done | apply not_elem_of_nil | done].
      + exfalso. apply (Hfresh r2 H12). by apply Hrs.
      + done.
    - intros r' [Hr' | ->%list_elem_of_singleton]%elem_of_app; [by apply Hle |].
      exists image_id, comp. split_and!.
      + by rw build_fuel.
      + intros y. rw Hcomp. split; intros Hy; eapply reach_trans; eauto.
      + intros y Hy. destruct (decide (y < image_id)%nat) as [Hlt | ]; [| lia].
        exfalso. by apply (Hfresh y Hy), Hlow.
      + done. }
  destruct (assign_loop_inv e id_to_path adj ids Hadj_ids (roots ++ [r])
              (length ids) [r] (vis ++ [r]) deps Hinv1)
    as (vis' & deps' & -> & Hinv' & Hsub).
  { rw length_app /=. lia. }
  simpl. exists (GraphState (roots ++ [r]) deps' vis'). simpl.
  split_and!; [done | done | |].
  - intros x Hx. apply Hsub, elem_of_app. by left.
  - apply (inv_closed (roots ++ [r]) vis' deps' r); [done | | done].
    apply Hsub, elem_of_app. right. apply list_elem_of_here.
Qed.

Lemma build_loop_inv m : ∀ k st,
  inv (root_image_ids st) [] (visited_ids st) (dependencies_by_id st) →
  (∀ x, (x < k)%nat → x ∈ visited_ids st) →
  (k + m ≤ length image_paths_rel)%nat →
  ∃ st', ofoldl (build_component e id_to_path adj) st (seq k m) = Ok st' ∧
         inv (root_image_ids st') [] (visited_ids st') (dependencies_by_id st') ∧
         (∀ x, (x < k + m)%nat → x ∈ visited_ids st').
Proof.
  induction m as [| m IH]; intros k st Hinv Hlow Hk.
  - exists st. split_and!; [done | done |]. intros x Hx. apply Hlow. lia.
  - destruct (build_component_inv st k Hinv) as (st1 & Hstep & Hinv1 & Hsub & Hk1).
    { apply elem_of_frame_ids. lia. }
    { done. }
    destruct (IH (S k) st1 Hinv1) as (st' & Hloop & Hinv' & Hall).
    { intros x Hx. destruct (decide (x = k)) as [-> | ]; [done |].
      apply Hsub, Hlow. lia. }
    { lia. }
    exists st'. split_and!; [| done |].
    + change (seq k (S m)) with (k :: seq (S k) m). by rw ofoldl_cons Hstep /=.
    + intros x Hx. apply Hall. lia.
Qed.

(** The graph builder returns; every frame has been visited and the
    invariant holds of what it returns. *)
Lemma build_dependencies_inv :
  ∃ g, build_dependencies e id_to_path ids adj = Ok g ∧
       inv (root_image_ids g) [] (visited_ids g) (dependencies_by_id g) ∧
       (∀ x, x ∈ ids → x ∈ visited_ids g).
Proof.
  destruct (build_loop_inv (length image_paths_rel) 0 (GraphState [] ∅ []))
    as (g & Hg & Hinv & Hall); [apply inv_empty | intros; lia | lia |].
  exists g. split_and!; [| done |].
  - unfold build_dependencies, ids. by rw frame_ids_seq.
  - intros x Hx%elem_of_frame_ids. by apply Hall.
Qed.
End build.

(** * Consequences of the invariant: a forest of out-trees *)

Section forest_facts.
Context (e : env) (id_to_path : gmap nat string) (adj : gmap nat (list nat)).
Context (ids roots vis : list nat) (deps : gmap nat nat).
Context (Hinv : assign_inv e id_to_path adj ids roots [] vis deps).

Lemma discovered_before_trans a b c :
  discovered_before vis a b → discovered_before vis b c → discovered_before vis a c.
Proof.
  intros (i & j & Hi & Hj & Hij) (j' & k & Hj' & Hk & Hjk).
  assert (j = j') as <-.
  { eapply NoDup_lookup; [apply (ai_nodup _ _ _ _ _ _ _ _ Hinv) | done | done]. }
  exists i, k. split_and!; [done | done | lia].
Qed.

Lemma discovered_before_irrefl a : ¬ discovered_before vis a a.
Proof.
  intros (i & j & Hi & Hj & Hij).
  assert (i = j); [| lia].
  eapply NoDup_lookup; [apply (ai_nodup _ _ _ _ _ _ _ _ Hinv) | done | done].
Qed.

Lemma ancestor_before c a : ancestor deps c a → discovered_before vis a c.
Proof.
  induction 1 as [c p Hp | c p a Hp _ IH].
  - by apply (ai_deps _ _ _ _ _ _ _ _ Hinv).
  - eapply discovered_before_trans; [done |].
    by apply (ai_deps _ _ _ _ _ _ _ _ Hinv).
Qed.

Lemma ancestor_irrefl x : ¬ ancestor deps x x.
Proof. intros H%ancestor_before. by eapply discovered_before_irrefl. Qed.

Lemma root_xor_parent x :
  x ∈ vis →
  (x ∈ roots ∧ deps !! x = None) ∨ ((x ∉ roots) ∧ ∃ p, deps !! x = Some p).
Proof.
  intros Hx. destruct (deps !! x) as [p |] eqn:Hp.
  - right. split; [| eauto]. intros Hr.
    apply (ai_roots _ _ _ _ _ _ _ _ Hinv) in Hr as [Hn _]. congruence.
  - left. split; [| done].
    destruct (ai_cover _ _ _ _ _ _ _ _ Hinv x Hx) as [? | [? ?]]; [done | congruence].
Qed.

(** Every visited frame climbs to a root without meeting a frame twice. *)
Lemma chain_exists_at i : ∀ x,
  vis !! i = Some x →
  ∃ l r, chain_to deps x l r ∧ r ∈ roots ∧ NoDup l ∧
         ∀ y, y ∈ l → y = x ∨ discovered_before vis y x.
Proof.
  induction (lt_wf i) as [i _ IH]. intros x Hi.
  assert (x ∈ vis) as Hx by (by eapply list_elem_of_lookup_2).
  destruct (root_xor_parent x Hx) as [[Hr Hn] | [_ [p Hp]]].
  - exists [x], x. split_and!; [by constructor | done | apply NoDup_singleton |].
    intros y ->%list_elem_of_singleton. by left.
  - destruct (ai_deps _ _ _ _ _ _ _ _ Hinv _ _ Hp) as [(j & i' & Hj & Hi' & Hlt) _].
    assert (i' = i) as ->.
    { eapply NoDup_lookup; [apply (ai_nodup _ _ _ _ _ _ _ _ Hinv) | done | done]. }
    destruct (IH j Hlt p Hj) as (l & r & Hc & Hr & Hnd & Hl).
    assert (discovered_before vis p x) as Hpx by (by exists j, i).
    exists (x :: l), r. split_and!; [by econstructor | done | |].
    + apply NoDup_cons. split; [| done]. intros Hin.
      destruct (Hl x Hin) as [-> | Hb].
      * by eapply discovered_before_irrefl.
      * eapply discovered_before_irrefl, discovered_before_trans; eauto.
    + intros y [-> | Hy]%elem_of_cons; [by left | right].
      destruct (Hl y Hy) as [-> | Hb]; [done |].
      by eapply discovered_before_trans.
Qed.

Lemma chain_exists x :
  x ∈ vis → ∃ l r, chain_to deps x l r ∧ r ∈ roots ∧ NoDup l.
Proof.
  intros [i Hi]%list_elem_of_lookup.
  destruct (chain_exists_at i x Hi) as (l & r & ? & ? & ? & _). eauto.
Qed.
End forest_facts.

(** * The plan: scores, forest, roots and dependencies *)

Section plan.
Context (e : env) (image_paths_rel : list string) (completed : list (string * string)).
Let ids := frame_ids image_paths_rel.
Let id_to_path := make_id_to_path image_paths_rel.
Let all_scores :=
  sort_scores (collect_scores e (make_path_to_id image_paths_rel) completed).

Lemma all_scores_source s u v :
  (s, u, v) ∈ all_scores →
  ∃ p1 p2, (p1, p2) ∈ completed ∧ s = calculate_similarity_score e p1 p2 ∧ s ≠ -1 ∧
           image_paths_rel !! u = Some p1 ∧ image_paths_rel !! v = Some p2.
Proof.
  unfold all_scores. rw elem_of_sort_scores elem_of_collect_scores.
  intros ([p1 p2] & Hin & Hs & Hne & H1 & H2). exists p1, p2.
  split_and!; [done | done | done | |]; by apply make_path_to_id_sound.
Qed.

Lemma all_scores_ids ed : ed ∈ all_scores → ed.1.2 ∈ ids ∧ ed.2 ∈ ids.
Proof.
  destruct ed as [[s u] v]. intros (p1 & p2 & _ & _ & _ & H1 & H2)%all_scores_source.
  unfold ids. rw !elem_of_frame_ids. simpl.
  split; by eapply lookup_lt_Some.
Qed.

Lemma frame_ids_NoDup : NoDup ids.
Proof. unfold ids. rw frame_ids_seq. apply NoDup_seq. Qed.

Lemma kruskal_adjacent_ids p adj F x y :
  kruskal_inv ids all_scores p adj F → adjacent adj x y → x ∈ ids ∧ y ∈ ids.
Proof.
  intros Hk Hxy. apply (ki_adj _ _ _ _ _ Hk) in Hxy as [s [Hin | Hin]];
    apply (ki_sub _ _ _ _ _ Hk), all_scores_ids in Hin; simpl in Hin; tauto.
Qed.

Lemma kruskal_adjacent_sym p adj F x y :
  kruskal_inv ids all_scores p adj F → adjacent adj x y → adjacent adj y x.
Proof.
  intros Hk Hxy. apply (ki_adj _ _ _ _ _ Hk). apply (ki_adj _ _ _ _ _ Hk) in Hxy as [s Hs].
  exists s. tauto.
Qed.

(** Once the spanning-forest loop has returned, the graph construction
    returns too. *)
Lemma plan_of_forest p adj :
  spanning_forest (find_depth e) ids all_scores = Ok (p, adj) →
  ∃ pl F,
    make_plan e image_paths_rel completed = Ok pl ∧
    plan_scores pl = all_scores ∧ plan_adjacency pl = adj ∧
    kruskal_inv ids all_scores p adj F ∧
    assign_inv e id_to_path adj ids
      (root_image_ids (plan_graph pl)) [] (visited_ids (plan_graph pl))
      (dependencies_by_id (plan_graph pl)) ∧
    (∀ x, x ∈ ids → x ∈ visited_ids (plan_graph pl)).
Proof.
  intros Hsf.
  destruct (spanning_forest_inv ids frame_ids_NoDup (find_depth e) all_scores p adj) as [F Hk];
    [apply sort_scores_descending | done |].
  destruct (build_dependencies_inv e image_paths_rel adj) as (g & Hg & Hinv & Hall).
  { intros x y. by apply (kruskal_adjacent_ids p adj F). }
  { intros x y. by apply (kruskal_adjacent_sym p adj F). }
  exists (Plan all_scores adj g), F. split_and!; try done.
  unfold make_plan. fold all_scores ids id_to_path. by rw Hsf /= Hg.
Qed.

(** What holds of a plan that Phase 1 and the graph construction
    return. *)
Lemma make_plan_inv pl :
  make_plan e image_paths_rel completed = Ok pl →
  ∃ p F,
    plan_scores pl = all_scores ∧
    spanning_forest (find_depth e) ids all_scores = Ok (p, plan_adjacency pl) ∧
    kruskal_inv ids all_scores p (plan_adjacency pl) F ∧
    assign_inv e id_to_path (plan_adjacency pl) ids
      (root_image_ids (plan_graph pl)) [] (visited_ids (plan_graph pl))
      (dependencies_by_id (plan_graph pl)) ∧
    (∀ x, x ∈ ids → x ∈ visited_ids (plan_graph pl)).
Proof.
  intros Hplan.
  destruct (spanning_forest (find_depth e) ids all_scores) as [[p adj] | |] eqn:Hsf.
  - destruct (plan_of_forest p adj Hsf) as (pl' & F & Hplan' & Hs & Ha & Hk & Hinv & Hall).
    assert (pl' = pl) as -> by congruence. subst adj.
    by exists p, F.
  - unfold make_plan in Hplan. fold all_scores ids in Hplan. by rw Hsf in Hplan.
  - unfold make_plan in Hplan. fold all_scores ids in Hplan. by rw Hsf in Hplan.
Qed.

Lemma length_frame_ids : length ids = length image_paths_rel.
Proof. unfold ids. by rw frame_ids_seq length_seq. Qed.

(** They return when there are no more frames than nested calls of [find]
    allowed. *)
Lemma make_plan_returns :
  (length image_paths_rel ≤ find_depth e)%nat →
  ∃ pl, make_plan e image_paths_rel completed = Ok pl.
Proof.
  intros Hdepth.
  destruct (spanning_forest_returns ids frame_ids_NoDup (find_depth e) all_scores)
    as ([p adj] & Hsf).
  { apply all_scores_ids. }
  { apply sort_scores_descending. }
  { by rw length_frame_ids. }
  destruct (plan_of_forest p adj Hsf) as (pl & _ & Hplan & _). by exists pl.
Qed.

Lemma make_plan_ok :
  (length image_paths_rel ≤ find_depth e)%nat →
  ∃ pl p F,
    make_plan e image_paths_rel completed = Ok pl ∧
    plan_scores pl = all_scores ∧
    spanning_forest (find_depth e) ids all_scores = Ok (p, plan_adjacency pl) ∧
    kruskal_inv ids all_scores p (plan_adjacency pl) F ∧
    assign_inv e id_to_path (plan_adjacency pl) ids
      (root_image_ids (plan_graph pl)) [] (visited_ids (plan_graph pl))
      (dependencies_by_id (plan_graph pl)) ∧
    (∀ x, x ∈ ids → x ∈ visited_ids (plan_graph pl)).
Proof.
  intros Hdepth. destruct (make_plan_returns Hdepth) as [pl Hplan].
  destruct (make_plan_inv pl Hplan) as (p & F & H). by exists pl, p, F.
Qed.

End plan.

(** * Phase 2 *)

Section phase2.
Context (e : env) (image_paths_rel : list string).
Let id_to_path := make_id_to_path image_paths_rel.
Implicit Types (tree : gmap string file) (tasks : list (nat * nat)).




Lemma process_image_lookup cp pp tree path :
  (process_image e cp pp cp tree).2 !! path =
  if decide (path = cp) then encoded_or e tree cp pp else tree !! path.
Proof.
  unfold process_image, encoded_or. destruct (encode_diff e cp pp cp) as [f |]; simpl.
  - case_decide as Hp; [subst; by rw lookup_insert_eq | by rw lookup_insert_ne].
  - case_decide; by subst.
Qed.

Lemma encode_children_spec tasks : ∀ tree count,
  (∀ t, t ∈ tasks → (t.1 < length image_paths_rel)%nat ∧
                    (t.2 < length image_paths_rel)%nat) →
  ∃ tree' count',
    encode_children e id_to_path tasks (tree, count) = Ok (tree', count') ∧
    (∀ c p cp pp,
       (c, p) ∈ tasks →
       image_paths_rel !! c = Some cp → image_paths_rel !! p = Some pp →
       (∀ t, t ∈ tasks → image_paths_rel !! t.1 = Some cp → t = (c, p)) →
       tree' !! cp = encoded_or e tree cp pp) ∧
    (∀ path, (∀ t, t ∈ tasks → image_paths_rel !! t.1 ≠ Some path) →
             tree' !! path = tree !! path).
Proof.
  induction tasks as [| [c0 p0] tasks IH]; intros tree count Hlt.
  - exists tree, count. split_and!; [done | | done].
    by intros c p cp pp ?%elem_of_nil.
  - destruct (Hlt (c0, p0) (list_elem_of_here _ _)) as [Hc0 Hp0]. simpl in Hc0, Hp0.
    destruct (getitem_id_to_path image_paths_rel c0 Hc0) as (cp0 & Hgc & Hcp0).
    destruct (getitem_id_to_path image_paths_rel p0 Hp0) as (pp0 & Hgp & Hpp0).
    destruct (process_image e cp0 pp0 cp0 tree) as [ok tree1] eqn:Hpi.
    assert (∀ path, tree1 !! path =
              if decide (path = cp0) then encoded_or e tree cp0 pp0 else tree !! path)
      as Hstep.
    { intros path. by rw -process_image_lookup Hpi. }
    destruct (IH tree1 (if ok then S count else count))
      as (tree' & count' & Henc & Ha & Hb).
    { intros t Ht. by apply Hlt, list_elem_of_further. }
    exists tree', count'. split_and!.
    + unfold encode_children in *.
      by rw ofoldl_cons /= -/id_to_path Hgc /= Hgp /= Hpi /=.
    + intros c p cp pp Hin Hc Hp Huniq.
      assert (∀ t, t ∈ tasks → image_paths_rel !! t.1 = Some cp → t = (c, p)) as Huniq'.
      { intros t Ht. by apply Huniq, list_elem_of_further. }
      destruct (decide ((c0, p0) = (c, p))) as [[= -> ->] | Hne].
      * assert (cp0 = cp) as -> by congruence. assert (pp0 = pp) as -> by congruence.
        destruct (decide ((c, p) ∈ tasks)) as [Hin' | Hnin].
        -- rw (Ha c p cp pp) //. unfold encoded_or.
           rewrite -> (Hstep cp). rw decide_True // /encoded_or.
           by destruct (encode_diff e cp pp cp).
        -- rw Hb; [by rw Hstep decide_True |].
           intros t Ht Htc. apply Hnin. by rw -(Huniq' t Ht Htc).
      * apply elem_of_cons in Hin as [Heq | Hin]; [congruence |].
        rw (Ha c p cp pp) //. unfold encoded_or.
        rewrite -> (Hstep cp). rw decide_False //.
        intros ->. apply Hne.
        apply (Huniq (c0, p0)); [apply list_elem_of_here | done].
    + intros path Hnone. rw Hb.
      * rw Hstep decide_False //. intros ->.
        by apply (Hnone (c0, p0)); [apply list_elem_of_here |].
      * intros t Ht. by apply Hnone, list_elem_of_further.
Qed.
End phase2.

(** * A whole run *)

Section main_run.
Context (e : env) (image_paths_rel : list string).
Context (sched1 : list (string * string) → list (string * string)).
Context (sched2 : list (nat * nat) → list (nat * nat)).
Context (Hlen : (2 ≤ length image_paths_rel)%nat).
Context (Hs2 : ∀ l, sched2 l ≡ₚ l).
Let ids := frame_ids image_paths_rel.
Let id_to_path := make_id_to_path image_paths_rel.
Let completed := sched1 (combinations2 image_paths_rel).

Lemma plan_deps_ids pl p F c q :
  kruskal_inv ids (plan_scores pl) p (plan_adjacency pl) F →
  (∀ ed, ed ∈ plan_scores pl → ed.1.2 ∈ ids ∧ ed.2 ∈ ids) →
  assign_inv e id_to_path (plan_adjacency pl) ids
    (root_image_ids (plan_graph pl)) [] (visited_ids (plan_graph pl))
    (dependencies_by_id (plan_graph pl)) →
  dependencies_by_id (plan_graph pl) !! c = Some q →
  (c < length image_paths_rel)%nat ∧ (q < length image_paths_rel)%nat.
Proof.
  intros Hk Hids Hinv Hc.
  destruct (ai_deps _ _ _ _ _ _ _ _ Hinv c q Hc) as [_ Hadj].
  apply (ki_adj _ _ _ _ _ Hk) in Hadj as [s [Hin | Hin]];
    apply (ki_sub _ _ _ _ _ Hk), Hids in Hin; simpl in Hin;
    unfold ids in Hin; rw !elem_of_frame_ids in Hin; tauto.
Qed.

(** Phase 2 on a plan: once the roots are copied the run completes; the
    manifest of the plan is written, every diff task leaves its file or
    nothing, and the archive holds the output directory. *)
Lemma main_of_plan pl :
  make_plan e image_paths_rel completed = Ok pl →
  (∀ r, r ∈ root_image_ids (plan_graph pl) → (r < length image_paths_rel)%nat) ∧
  (∀ c p, dependencies_by_id (plan_graph pl) !! c = Some p →
     (c < length image_paths_rel)%nat ∧ (p < length image_paths_rel)%nat ∧
     c ∉ root_image_ids (plan_graph pl)) ∧
  ∀ tree1,
    copy_roots e id_to_path (root_image_ids (plan_graph pl))
      {[ manifest_name := ManifestJson (make_manifest image_paths_rel (plan_graph pl)) ]}
      = Ok tree1 →
    ∃ tree2 count,
      encode_children e id_to_path
        (sched2 (map_to_list (dependencies_by_id (plan_graph pl))))
        (tree1, length (root_image_ids (plan_graph pl))) = Ok (tree2, count) ∧
      main e image_paths_rel sched1 sched2 =
        Ok (Run completed (sched2 (map_to_list (dependencies_by_id (plan_graph pl))))
                (Some (make_manifest image_paths_rel (plan_graph pl)))
                count (Some tree2)) ∧
      (∀ c p cp pp,
         dependencies_by_id (plan_graph pl) !! c = Some p →
         image_paths_rel !! c = Some cp → image_paths_rel !! p = Some pp →
         NoDup image_paths_rel →
         tree2 !! cp = encoded_or e tree1 cp pp) ∧
      (∀ path,
         (∀ c p, dependencies_by_id (plan_graph pl) !! c = Some p →
                 image_paths_rel !! c ≠ Some path) →
         tree2 !! path = tree1 !! path).
Proof.
  intros Hplan.
  destruct (make_plan_inv e image_paths_rel completed pl Hplan)
    as (p & F & Hscores & _ & Hk & Hinv & Hall).
  rw -Hscores in Hk.
  assert (∀ ed, ed ∈ plan_scores pl → ed.1.2 ∈ ids ∧ ed.2 ∈ ids) as Hids.
  { intros ed. rw Hscores. apply all_scores_ids. }
  set (g := plan_graph pl) in *.
  set (m := make_manifest image_paths_rel g).
  split_and!.
  - intros r Hr. apply elem_of_frame_ids.
    apply (ai_ids _ _ _ _ _ _ _ _ Hinv), (ai_roots _ _ _ _ _ _ _ _ Hinv), Hr.
  - intros c q Hc.
    destruct (plan_deps_ids pl p F c q Hk Hids Hinv Hc) as [? ?].
    split_and!; [done | done |]. intros Hr.
    apply (ai_roots _ _ _ _ _ _ _ _ Hinv) in Hr as [Hn _]. fold g in Hn. congruence.
  - intros tree1 Hcopy.
    set (tasks := sched2 (map_to_list (dependencies_by_id g))).
    assert (∀ c q, (c, q) ∈ tasks ↔ dependencies_by_id g !! c = Some q) as Htasks.
    { intros c q. unfold tasks. by rw Hs2 elem_of_map_to_list. }
    destruct (encode_children_spec e image_paths_rel tasks tree1
                (length (root_image_ids g)))
      as (tree2 & count & Henc & Ha & Hb).
    { intros [c q] Hin%Htasks. simpl. by eapply plan_deps_ids. }
    exists tree2, count. split_and!.
    + done.
    + unfold main. rw decide_False; [| lia].
      fold completed. rw Hplan /=. fold g m. fold id_to_path.
      rw Hcopy /=. fold tasks. rw Henc /=. reflexivity.
    + intros c q cp pp Hc Hcp Hpp Hnd.
      apply (Ha c q); [by apply Htasks | done | done |].
      intros [c' q'] Hin%Htasks Hc'. simpl in Hc'.
      assert (c' = c) as -> by (eapply (NoDup_lookup image_paths_rel); eauto).
      f_equal. congruence.
    + intros path Hnone. apply Hb. intros [c q] Hin%Htasks. simpl. by eapply Hnone.
Qed.




(** The manifest of a run is the manifest of its plan, provided the roots
    could be copied. *)
Lemma manifest_of_main :
  manifest_of (main e image_paths_rel sched1 sched2) =
  match make_plan e image_paths_rel completed with
  | Ok pl =>
    match copy_roots e id_to_path (root_image_ids (plan_graph pl))
            {[ manifest_name :=
                 ManifestJson (make_manifest image_paths_rel (plan_graph pl)) ]} with
    | Ok _ => Some (make_manifest image_paths_rel (plan_graph pl))
    | _ => None
    end
  | _ => None
  end.
Proof.
  destruct (make_plan e image_paths_rel completed) as [pl | |] eqn:Hplan.
  - destruct (main_of_plan pl Hplan) as (_ & _ & Hrun).
    destruct (copy_roots e id_to_path (root_image_ids (plan_graph pl)) _)
      as [tree1 | |] eqn:Hcopy.
    + destruct (Hrun _ eq_refl) as (tree2 & count & _ & -> & _). done.
    + unfold main. rw decide_False; [| lia]. fold completed id_to_path.
      by rw Hplan /= Hcopy.
    + unfold main. rw decide_False; [| lia]. fold completed id_to_path.
      by rw Hplan /= Hcopy.
  - unfold main. rw decide_False; [| lia]. fold completed. by rw Hplan.
  - unfold main. rw decide_False; [| lia]. fold completed. by rw Hplan.
Qed.



End main_run.

(** * Each pair is scored once *)

Lemma NoDup_combinations2 {A} (l : list A) : NoDup l → NoDup (combinations2 l).
Proof.
  induction l as [| x l IH]; intros Hnd; [constructor |].
  apply NoDup_cons in Hnd as [Hx Hnd]. simpl. apply NoDup_app. split_and!.
  - apply NoDup_fmap_2; [| done]. by intros ? ? [=].
  - intros [a b] (y & [= -> ->] & Hy)%list_elem_of_fmap Hin.
    apply elem_of_combinations2 in Hin as (i & j & _ & Hi & _).
    apply Hx. by eapply list_elem_of_lookup_2.
  - by apply IH.
Qed.

Section scored_once.
Context (e : env) (image_paths_rel : list string) (completed : list (string * string)).
Context (Hpaths : NoDup image_paths_rel).
Context (Hcompleted : completed ≡ₚ combinations2 image_paths_rel).
Let all_scores :=
  sort_scores (collect_scores e (make_path_to_id image_paths_rel) completed).

Lemma NoDup_collect_scores (l : list (string * string)) :
  NoDup l → NoDup (collect_scores e (make_path_to_id image_paths_rel) l).
Proof.
  clear Hcompleted Hpaths.
  induction l as [| [p1 p2] l IH]; intros Hnd; [constructor |].
  apply NoDup_cons in Hnd as [Hpr Hnd]. simpl. apply NoDup_app.
  split_and!; [| | by apply IH].
  - case_decide; [| constructor].
    repeat case_match; first [apply NoDup_singleton | constructor].
  - intros [[s u] v] Hin Hin'.
    apply elem_of_collect_scores in Hin' as ([q1 q2] & Hq & _ & _ & H1 & H2).
    simpl in *. case_decide; [| by apply elem_of_nil in Hin].
    destruct (make_path_to_id image_paths_rel !! p1) as [id1 |] eqn:E1;
      [| by apply elem_of_nil in Hin].
    destruct (make_path_to_id image_paths_rel !! p2) as [id2 |] eqn:E2;
      [| by apply elem_of_nil in Hin].
    apply list_elem_of_singleton in Hin as [= -> -> ->].
    apply make_path_to_id_sound in E1, E2, H1, H2.
    apply Hpr. by replace p1 with q1 by congruence; replace p2 with q2 by congruence.
Qed.

Lemma all_scores_NoDup : NoDup all_scores.
Proof.
  unfold all_scores. rw sort_scores_Permutation. apply NoDup_collect_scores.
  rw Hcompleted. by apply NoDup_combinations2.
Qed.

(** A scored pair names its frames in discovery order, and its score is
    the score of those two frames. *)
Lemma all_scores_pair s u v :
  (s, u, v) ∈ all_scores →
  (u < v)%nat ∧
  ∃ p1 p2, image_paths_rel !! u = Some p1 ∧ image_paths_rel !! v = Some p2 ∧
           s = calculate_similarity_score e p1 p2 ∧ s ≠ -1.
Proof.
  intros (p1 & p2 & Hin & Hs & Hne & H1 & H2)%all_scores_source.
  rw Hcompleted in Hin.
  apply elem_of_combinations2 in Hin as (i & j & Hij & Hi & Hj).
  assert (u = i) as -> by (eapply NoDup_lookup; eauto).
  assert (v = j) as -> by (eapply NoDup_lookup; eauto).
  split; [done |]. by exists p1, p2.
Qed.

(** The scores kept are exactly the scores of the pairs of frames, earlier
    frame first, that are not the sentinel. *)
Lemma all_scores_valid ed : ed ∈ all_scores ↔ valid_score e image_paths_rel ed.
Proof.
  destruct ed as [[s u] v]. split; [apply all_scores_pair |].
  intros [Hlt (p1 & p2 & H1 & H2 & Hs & Hne)]. simpl in *.
  unfold all_scores. rw elem_of_sort_scores elem_of_collect_scores.
  exists (p1, p2). split_and!; [| done | done | |]; simpl.
  - rw Hcompleted. apply elem_of_combinations2. by exists u, v.
  - by apply make_path_to_id_lookup.
  - by apply make_path_to_id_lookup.
Qed.

(** Chains of scored pairs are chains of similar frames. *)
Lemma connected_linked u v :
  connected all_scores u v ↔ linked e image_paths_rel u v.
Proof.
  split.
  - intros [es Hw]. induction Hw as [| u v w ed es Hin Hj _ IH]; [apply rtc_refl |].
    eapply rtc_l; [| exact IH]. destruct ed as [[s a] b]. exists s.
    apply all_scores_valid in Hin.
    destruct Hj as [[<- <-] | [<- <-]]; [by left | by right].
  - induction 1 as [| u v w [s Hs] _ IH]; [apply connected_refl |].
    eapply connected_trans; [| exact IH].
    destruct Hs as [Hs | Hs]; apply all_scores_valid in Hs.
    + eapply connected_edge; [done | by left].
    + eapply connected_edge; [done | by right].
Qed.

Lemma all_scores_functional s s' u v :
  (s, u, v) ∈ all_scores → (s', u, v) ∈ all_scores → s = s'.
Proof.
  intros [_ (p1 & p2 & H1 & H2 & -> & _)]%all_scores_pair
         [_ (q1 & q2 & H1' & H2' & -> & _)]%all_scores_pair.
  congruence.
Qed.

(** The scored pairs whose edge is in the adjacency list are exactly the
    pairs whose union succeeded. *)
Lemma forest_edges_accepted p adj F :
  kruskal_inv (frame_ids image_paths_rel) all_scores p adj F →
  F ≡ₚ forest_edges adj all_scores.
Proof.
  intros Hk. apply NoDup_Permutation.
  - apply (ki_nodup _ _ _ _ _ Hk).
  - apply NoDup_filter, all_scores_NoDup.
  - intros [[s u] v]. unfold forest_edges. rw list_elem_of_filter /=. split.
    + intros Hin. split; [| by apply (ki_sub _ _ _ _ _ Hk)].
      apply (ki_adj _ _ _ _ _ Hk). exists s. by left.
    + intros [Hadj Hin]. apply (ki_adj _ _ _ _ _ Hk) in Hadj as [s' [Hin' | Hin']].
      * pose proof (ki_sub _ _ _ _ _ Hk _ Hin') as Hs'.
        by rw (all_scores_functional s s' u v Hin Hs').
      * apply (ki_sub _ _ _ _ _ Hk), all_scores_pair in Hin' as [Hlt _].
        apply all_scores_pair in Hin as [Hlt' _]. lia.
Qed.
End scored_once.

(** * The diff encoder *)

(** C1 (the code departs from the claim): the mask is computed from the gray
    collapse of the difference, so a child pixel that differs from its parent
    only faintly is left transparent. For the one-pixel child (0, 0, 1) over
    the parent (0, 0, 0) the encoder succeeds and the output pixel is
    (0, 0, 1) with alpha 0, although the two RGB values differ. *)
Theorem diff_mask_drops_faint_change :
  ∃ out,
    diff_raster (one_pixel (0, 0, 1)) (one_pixel (0, 0, 0)) = Some out ∧
    PIL.pixel out 0 0 = (0, 0, 1, 0) ∧
    PIL.pixel (PIL.convert_RGB (one_pixel (0, 0, 1))) 0 0 ≠
    PIL.pixel (PIL.convert_RGB (one_pixel (0, 0, 0))) 0 0.
Proof.
  eexists. split_and!; [reflexivity | reflexivity | discriminate].
Qed.

(** * Too few frames *)

(** C8: with fewer than two frames [main] returns before anything is scored,
    encoded, written or archived. *)
Theorem too_few_frames_abort (e : env) (image_paths_rel : list string)
    (sched1 : list (string * string) → list (string * string))
    (sched2 : list (nat * nat) → list (nat * nat)) :
  (length image_paths_rel < 2)%nat →
  ∃ r, main e image_paths_rel sched1 sched2 = Ok r ∧
       scored_pairs r = [] ∧ encode_tasks r = [] ∧
       written_manifest r = None ∧ processed_count r = 0%nat ∧ archive r = None.
Proof.
  intros Hlen. exists aborted. unfold main. by rw decide_True.
Qed.

Lemma too_few_frames_abort_witness :
  ∃ r, main tie_env ["0.png"%string] id id = Ok r ∧
       scored_pairs r = [] ∧ encode_tasks r = [] ∧
       written_manifest r = None ∧ processed_count r = 0%nat ∧ archive r = None.
Proof. apply (too_few_frames_abort tie_env ["0.png"%string] id id). simpl. lia. Defined.

(** * The dependency forest *)

(** C2: whatever the graph builder returns is a forest of out-trees: no
    frame is its own ancestor, every frame is a root without parent entry or
    a non-root with a parent entry, parents are frames that the traversal
    discovered before their children (and neighbours of them in the spanning
    forest), and every frame climbs to a root along a chain that repeats no
    frame. [visited_ids] lists every frame once, in order of discovery. The
    graph builder is reached and returns whenever there are no more frames
    than nested calls of [find] allowed; with more frames the spanning-forest
    loop before it can raise RecursionError, and then there is no dependency
    map. *)
Theorem dependency_forest (e : env) (image_paths_rel : list string)
    (completed : list (string * string)) :
  ((length image_paths_rel ≤ find_depth e)%nat →
   ∃ pl, make_plan e image_paths_rel completed = Ok pl) ∧
  ∀ pl, make_plan e image_paths_rel completed = Ok pl →
    let g := plan_graph pl in
    let n := length image_paths_rel in
    (∀ x, ¬ ancestor (dependencies_by_id g) x x) ∧
    (∀ x, (x < n)%nat →
       (x ∈ root_image_ids g ∧ dependencies_by_id g !! x = None) ∨
       ((x ∉ root_image_ids g) ∧ ∃ p, dependencies_by_id g !! x = Some p)) ∧
    (∀ c p, dependencies_by_id g !! c = Some p →
       (c < n)%nat ∧ (p < n)%nat ∧
       discovered_before (visited_ids g) p c ∧ adjacent (plan_adjacency pl) p c) ∧
    (NoDup (visited_ids g) ∧ ∀ x, x ∈ visited_ids g ↔ (x < n)%nat) ∧
    (NoDup (root_image_ids g) ∧ ∀ r, r ∈ root_image_ids g → (r < n)%nat) ∧
    (∀ x, (x < n)%nat →
       ∃ l r, chain_to (dependencies_by_id g) x l r ∧ r ∈ root_image_ids g ∧ NoDup l).
Proof.
  split; [apply make_plan_returns |]. intros pl Hplan.
  destruct (make_plan_inv e image_paths_rel completed pl Hplan)
    as (p & F & Hscores & _ & Hk & Hinv & Hall).
  simpl.
  assert (∀ x, x ∈ visited_ids (plan_graph pl) ↔ (x < length image_paths_rel)%nat) as Hvis.
  { intros x. rw -elem_of_frame_ids. split; [apply (ai_ids _ _ _ _ _ _ _ _ Hinv) | apply Hall]. }
  split_and!.
  - intros x. by eapply ancestor_irrefl.
  - intros x Hx. eapply root_xor_parent; [done | by apply Hvis].
  - intros c q Hc. rw -Hscores in Hk.
    destruct (plan_deps_ids e image_paths_rel pl p F c q Hk) as [? ?]; [| done | done |].
    { intros ed. rw Hscores. apply all_scores_ids. }
    destruct (ai_deps _ _ _ _ _ _ _ _ Hinv c q Hc). done.
  - apply (ai_nodup _ _ _ _ _ _ _ _ Hinv).
  - done.
  - apply (ai_roots_nodup _ _ _ _ _ _ _ _ Hinv).
  - intros r Hr. by apply Hvis, (ai_roots _ _ _ _ _ _ _ _ Hinv).
  - intros x Hx. eapply chain_exists; [done | by apply Hvis].
Qed.

(** On the three ranked frames the root is frame 2, frame 0 depends on it
    and frame 1 on frame 0. *)
Lemma dependency_forest_witness :
  ∃ pl, make_plan ranked_env three_paths (combinations2 three_paths) = Ok pl ∧
    root_image_ids (plan_graph pl) = [2%nat] ∧
    dependencies_by_id (plan_graph pl) !! 0%nat = Some 2%nat ∧
    dependencies_by_id (plan_graph pl) !! 1%nat = Some 0%nat ∧
    dependencies_by_id (plan_graph pl) !! 2%nat = None ∧
    visited_ids (plan_graph pl) = [2; 0; 1]%nat ∧
    let g := plan_graph pl in
    let n := length three_paths in
    (∀ x, ¬ ancestor (dependencies_by_id g) x x) ∧
    (∀ x, (x < n)%nat →
       (x ∈ root_image_ids g ∧ dependencies_by_id g !! x = None) ∨
       ((x ∉ root_image_ids g) ∧ ∃ p, dependencies_by_id g !! x = Some p)) ∧
    (∀ c p, dependencies_by_id g !! c = Some p →
       (c < n)%nat ∧ (p < n)%nat ∧
       discovered_before (visited_ids g) p c ∧ adjacent (plan_adjacency pl) p c) ∧
    (NoDup (visited_ids g) ∧ ∀ x, x ∈ visited_ids g ↔ (x < n)%nat) ∧
    (NoDup (root_image_ids g) ∧ ∀ r, r ∈ root_image_ids g → (r < n)%nat) ∧
    (∀ x, (x < n)%nat →
       ∃ l r, chain_to (dependencies_by_id g) x l r ∧ r ∈ root_image_ids g ∧ NoDup l).
Proof.
  destruct (dependency_forest ranked_env three_paths (combinations2 three_paths))
    as [_ Hprops].
  eexists. split; [vm_compute; reflexivity |].
  split; [reflexivity |]. split; [reflexivity |]. split; [reflexivity |].
  split; [reflexivity |]. split; [reflexivity |].
  apply Hprops. vm_compute. reflexivity.
Defined.

(** * Root selection *)

(** C5 (as stated, refuted): among component members of equal least size the
    root is not the one of smallest id. With sizes 10, 5, 5 and scores that
    put frame 2 before frame 1 in frame 0's adjacency list, all three frames
    form one component and the root chosen is frame 2, not frame 1. *)
Lemma root_tie_not_smallest_id :
  ∃ pl, make_plan ranked_env three_paths (combinations2 three_paths) = Ok pl ∧
        neighbors (plan_adjacency pl) 0 = [2; 1]%nat ∧
        neighbors (plan_adjacency pl) 2 = [0]%nat ∧
        root_image_ids (plan_graph pl) = [2%nat] ∧
        frame_size ranked_env (make_id_to_path three_paths) 1 =
        frame_size ranked_env (make_id_to_path three_paths) 2.
Proof.
  eexists. split_and!; [vm_compute; reflexivity | reflexivity..].
Qed.

(** C5 (as amended): in whatever the graph builder returns, every component
    of the spanning forest has exactly one root, and the root is a member of
    least on-disk size, the first such in the breadth-first enumeration of
    the component that starts at the component's smallest frame id; so no
    frame of a component is strictly smaller on disk than the component's
    root. The graph builder is reached and returns whenever there are no
    more frames than nested calls of [find] allowed. *)
Theorem root_is_first_smallest (e : env) (image_paths_rel : list string)
    (completed : list (string * string)) :
  ((length image_paths_rel ≤ find_depth e)%nat →
   ∃ pl, make_plan e image_paths_rel completed = Ok pl) ∧
  ∀ pl, make_plan e image_paths_rel completed = Ok pl →
    let g := plan_graph pl in
    let adj := plan_adjacency pl in
    let id_to_path := make_id_to_path image_paths_rel in
    let fsize := frame_size e id_to_path in
    (∀ x, (x < length image_paths_rel)%nat →
       ∃ r, r ∈ root_image_ids g ∧ reach adj r x) ∧
    (∀ r r', r ∈ root_image_ids g → r' ∈ root_image_ids g → reach adj r r' → r = r') ∧
    (∀ r, r ∈ root_image_ids g →
       ∃ image_id comp,
         component_loop (size id_to_path) adj [image_id] {[image_id]} [] = Ok comp ∧
         (∀ y, y ∈ comp ↔ reach adj r y) ∧
         (∀ y, reach adj r y → (image_id ≤ y)%nat) ∧
         first_min fsize comp r) ∧
    (∀ r x, r ∈ root_image_ids g → reach adj r x → fsize r ≤ fsize x).
Proof.
  split; [apply make_plan_returns |]. intros pl Hplan.
  destruct (make_plan_inv e image_paths_rel completed pl Hplan)
    as (p & F & Hscores & _ & Hk & Hinv & Hall).
  simpl. split_and!.
  - intros x Hx. apply (ai_rooted _ _ _ _ _ _ _ _ Hinv), Hall. by apply elem_of_frame_ids.
  - apply (ai_apart _ _ _ _ _ _ _ _ Hinv).
  - apply (ai_least _ _ _ _ _ _ _ _ Hinv).
  - intros r x Hr Hrx.
    destruct (ai_least _ _ _ _ _ _ _ _ Hinv r Hr) as (image_id & comp & _ & Hcomp & _ & Hmin).
    eapply first_min_least; [done | by apply Hcomp].
Qed.

(** On the three ranked frames, all in one component, the traversal from
    frame 0 lists them as 0, 2, 1, and the root is frame 2: the first of the
    two frames of size 5. *)
Lemma root_is_first_smallest_witness :
  ∃ pl, make_plan ranked_env three_paths (combinations2 three_paths) = Ok pl ∧
    root_image_ids (plan_graph pl) = [2%nat] ∧
    component_loop 3 (plan_adjacency pl) [0%nat] {[0%nat]} [] = Ok [0; 2; 1]%nat ∧
    let g := plan_graph pl in
    let adj := plan_adjacency pl in
    let id_to_path := make_id_to_path three_paths in
    let fsize := frame_size ranked_env id_to_path in
    (∀ x, (x < length three_paths)%nat →
       ∃ r, r ∈ root_image_ids g ∧ reach adj r x) ∧
    (∀ r r', r ∈ root_image_ids g → r' ∈ root_image_ids g → reach adj r r' → r = r') ∧
    (∀ r, r ∈ root_image_ids g →
       ∃ image_id comp,
         component_loop (size id_to_path) adj [image_id] {[image_id]} [] = Ok comp ∧
         (∀ y, y ∈ comp ↔ reach adj r y) ∧
         (∀ y, reach adj r y → (image_id ≤ y)%nat) ∧
         first_min fsize comp r) ∧
    (∀ r x, r ∈ root_image_ids g → reach adj r x → fsize r ≤ fsize x).
Proof.
  destruct (root_is_first_smallest ranked_env three_paths (combinations2 three_paths))
    as [_ Hprops].
  eexists. split; [vm_compute; reflexivity |].
  split; [reflexivity |]. split; [vm_compute; reflexivity |].
  apply Hprops. vm_compute. reflexivity.
Defined.

(** * The spanning forest *)

Lemma kruskal_inv_Permutation ids done p adj F F' :
  kruskal_inv ids done p adj F → F ≡ₚ F' → kruskal_inv ids done p adj F'.
Proof.
  intros [Hf Hdom Hsets Hadj Hnd Hsub Hacy Hspan Hcount Hmax] HF.
  assert (∀ ed, ed ∈ F' ↔ ed ∈ F) as Hmem by (intros ed; by rw HF).
  assert (∀ u es w, walk F' u es w ↔ walk F u es w) as Hwalk.
  { intros u es w. split; apply walk_mono; intros ed; by rw Hmem. }
  assert (∀ u w, connected F' u w ↔ connected F u w) as Hconn.
  { intros u w. unfold connected. by setoid_rewrite Hwalk. }
  split; try done.
  - intros z w. by rw Hconn.
  - intros u v. rw Hadj. by setoid_rewrite Hmem.
  - by rw -HF.
  - intros ed. rw Hmem. apply Hsub.
  - intros u es. rw Hwalk. apply Hacy.
  - intros ed Hed. rw Hconn. by apply Hspan.
  - by rw -HF.
  - intros ed es ed' Hed. rw Hwalk. by apply Hmax.
Qed.

Lemma connected_span (S F : list (Z * nat * nat)) u v :
  (∀ ed, ed ∈ S → connected F ed.1.2 ed.2) → connected S u v → connected F u v.
Proof.
  intros Hspan [es Hw]. induction Hw as [| u v w ed es Hin Hj _ IH]; [apply connected_refl |].
  eapply connected_trans; [| done].
  destruct Hj as [[<- <-] | [<- <-]]; [by apply Hspan | by apply connected_sym, Hspan].
Qed.

Section msf.
Context (image_paths_rel : list string) (done : list (Z * nat * nat)).
Context (p : gmap nat nat) (adj : gmap nat (list nat)) (F : list (Z * nat * nat)).
Context (Hk : kruskal_inv (frame_ids image_paths_rel) done p adj F).

Lemma kruskal_spanning_forest :
  spanning_forest_of (length image_paths_rel) done F.
Proof.
  destruct Hk as [Hf Hdom Hsets Hadj Hnd Hsub Hacy Hspan Hcount Hmax].
  split_and!; [done | done | |].
  - intros u v. split; [by apply connected_span |].
    by apply connected_mono.
  - exists (filter (is_root p) (frame_ids image_paths_rel)). split_and!.
    + apply NoDup_filter. rw frame_ids_seq. apply NoDup_seq.
    + intros r [_ Hr]%list_elem_of_filter. by apply elem_of_frame_ids.
    + intros x Hx%elem_of_frame_ids.
      destruct (Hf x) as [r Hr]; [by apply Hdom |].
      assert (is_root p r) as Hroot by (destruct Hr as [l Hl]; by eapply ptr_root_fixed).
      exists r. split.
      * apply list_elem_of_filter. split; [done |]. apply Hdom. rw Hroot. eauto.
      * apply Hsets. right. exists r. split; [done | by apply repr_root].
    + intros r r' [Hr _]%list_elem_of_filter [Hr' _]%list_elem_of_filter
             [-> | (r0 & H1 & H2)]%Hsets; [done |].
      apply (repr_root_eq _ _ _ Hr) in H1. apply (repr_root_eq _ _ _ Hr') in H2.
      congruence.
    + rw Hcount. by rw frame_ids_seq length_seq.
Qed.

Lemma kruskal_heaviest_paths : heaviest_paths done F.
Proof. intros ed es ed' Hed Hw Hnd Hed'. by eapply (ki_max _ _ _ _ _ Hk). Qed.
End msf.

(** C3: for the completion order of any run, the scores kept are exactly
    the scores, other than the sentinel, of the pairs of frames taken earlier
    frame first, each once, and they are processed in descending order; the
    adjacency lists of a plan record, in both directions, exactly the scored
    pairs selected; these edges form a spanning forest of the similarity
    graph with (#frames - #components) edges; and on every forest path
    between the two frames of a scored pair each edge scores at least as
    much as that pair (in particular for the pairs left out of the forest).
    There is a plan whenever there are no more frames than nested calls of
    [find] allowed; with more frames the loop can raise RecursionError. *)
Theorem spanning_forest_maximum (e : env) (image_paths_rel : list string)
    (completed : list (string * string)) :
  NoDup image_paths_rel →
  completed ≡ₚ combinations2 image_paths_rel →
  ((length image_paths_rel ≤ find_depth e)%nat →
   ∃ pl, make_plan e image_paths_rel completed = Ok pl) ∧
  ∀ pl, make_plan e image_paths_rel completed = Ok pl →
    let FE := forest_edges (plan_adjacency pl) (plan_scores pl) in
    (∀ ed, ed ∈ plan_scores pl ↔ valid_score e image_paths_rel ed) ∧
    NoDup (plan_scores pl) ∧
    descending (plan_scores pl) ∧
    (∀ u v, adjacent (plan_adjacency pl) u v ↔ ∃ s, (s, u, v) ∈ FE ∨ (s, v, u) ∈ FE) ∧
    spanning_forest_of (length image_paths_rel) (plan_scores pl) FE ∧
    heaviest_paths (plan_scores pl) FE ∧
    (∀ ed, ed ∈ plan_scores pl → ed ∉ FE → connected FE ed.1.2 ed.2).
Proof.
  intros Hpaths Hcompleted.
  split; [apply make_plan_returns |]. intros pl Hplan.
  destruct (make_plan_inv e image_paths_rel completed pl Hplan)
    as (p & F & Hscores & _ & Hk & _).
  simpl.
  apply (kruskal_inv_Permutation _ _ _ _ _
           (forest_edges (plan_adjacency pl) (plan_scores pl))) in Hk.
  2:{ rw Hscores. by eapply forest_edges_accepted. }
  rw -Hscores in Hk. split_and!.
  - intros ed. rw Hscores. by apply all_scores_valid.
  - rw Hscores. by apply all_scores_NoDup.
  - rw Hscores. apply sort_scores_descending.
  - apply (ki_adj _ _ _ _ _ Hk).
  - by eapply kruskal_spanning_forest.
  - by eapply kruskal_heaviest_paths.
  - intros ed Hed _. by apply (ki_span _ _ _ _ _ Hk).
Qed.

(** On the three ranked frames the pairs score 3, 2 and 1; the forest takes
    the pairs (0, 2) and (0, 1) and leaves out (1, 2). *)
Lemma spanning_forest_maximum_witness :
  ∃ pl, make_plan ranked_env three_paths (combinations2 three_paths) = Ok pl ∧
    plan_scores pl = [(3, 0%nat, 2%nat); (2, 0%nat, 1%nat); (1, 1%nat, 2%nat)] ∧
    forest_edges (plan_adjacency pl) (plan_scores pl) =
      [(3, 0%nat, 2%nat); (2, 0%nat, 1%nat)] ∧
    let FE := forest_edges (plan_adjacency pl) (plan_scores pl) in
    (∀ ed, ed ∈ plan_scores pl ↔ valid_score ranked_env three_paths ed) ∧
    NoDup (plan_scores pl) ∧
    descending (plan_scores pl) ∧
    (∀ u v, adjacent (plan_adjacency pl) u v ↔ ∃ s, (s, u, v) ∈ FE ∨ (s, v, u) ∈ FE) ∧
    spanning_forest_of (length three_paths) (plan_scores pl) FE ∧
    heaviest_paths (plan_scores pl) FE ∧
    (∀ ed, ed ∈ plan_scores pl → ed ∉ FE → connected FE ed.1.2 ed.2).
Proof.
  destruct (spanning_forest_maximum ranked_env three_paths (combinations2 three_paths))
    as [_ Hprops].
  - apply (bool_decide_unpack _). vm_compute. exact I.
  - reflexivity.
  - eexists. split; [vm_compute; reflexivity |].
    split; [reflexivity |]. split; [vm_compute; reflexivity |].
    apply Hprops. vm_compute. reflexivity.
Defined.

(** * The similarity scorer and the sentinel *)

(** C6: for two images that load and compare, the score is the number of
    pixels minus the number of pixels whose gray difference is not zero, that
    is the number of pixels whose gray difference is zero, a non-negative
    integer, the second image having been brought to the size and mode of the
    first; when loading, normalising or comparing raises the score is -1. The
    score list of a run holds exactly the scores other than the sentinel, so
    no entry carries the sentinel and a pair that scored -1 has no entry; in
    a plan every adjacency edge comes from an entry of the score list, and a
    pair that scored -1 has no edge. There is a plan whenever there are no
    more frames than nested calls of [find] allowed. *)
Theorem similarity_score_and_sentinel (e : env) (image_paths_rel : list string)
    (completed : list (string * string)) :
  NoDup image_paths_rel →
  completed ≡ₚ combinations2 image_paths_rel →
  (∀ p1 p2 img1 img2 img2' diff,
     open_image e p1 = Some img1 → open_image e p2 = Some img2 →
     normalize e img1 img2 = Some img2' → PIL.difference img1 img2' = Some diff →
     let diff_arr := PIL.convert_L diff in
     PIL.size_of img2' = PIL.size_of img1 ∧ PIL.mode_of img2' = PIL.mode_of img1 ∧
     calculate_similarity_score e p1 p2 =
       Z.of_nat (PIL.height diff_arr) * Z.of_nat (PIL.width diff_arr) -
       Z.of_nat (PIL.count_nonzero diff_arr) ∧
     calculate_similarity_score e p1 p2 = Z.of_nat (PIL.count_zero diff_arr) ∧
     0 ≤ calculate_similarity_score e p1 p2) ∧
  (∀ p1 p2,
     open_image e p1 = None ∨ open_image e p2 = None ∨
     (∃ img1 img2, open_image e p1 = Some img1 ∧ open_image e p2 = Some img2 ∧
        (normalize e img1 img2 = None ∨
         ∃ img2', normalize e img1 img2 = Some img2' ∧
                  PIL.difference img1 img2' = None)) →
     calculate_similarity_score e p1 p2 = -1) ∧
  (∀ ed, ed ∈ sort_scores (collect_scores e (make_path_to_id image_paths_rel) completed) ↔
         valid_score e image_paths_rel ed) ∧
  ((length image_paths_rel ≤ find_depth e)%nat →
   ∃ pl, make_plan e image_paths_rel completed = Ok pl) ∧
  ∀ pl, make_plan e image_paths_rel completed = Ok pl →
    plan_scores pl =
      sort_scores (collect_scores e (make_path_to_id image_paths_rel) completed) ∧
    (∀ s u v, (s, u, v) ∈ plan_scores pl →
       s ≠ -1 ∧ 0 ≤ s ∧
       ∃ p1 p2, image_paths_rel !! u = Some p1 ∧ image_paths_rel !! v = Some p2 ∧
                s = calculate_similarity_score e p1 p2) ∧
    (∀ u v, adjacent (plan_adjacency pl) u v →
       ∃ s, (s, u, v) ∈ plan_scores pl ∨ (s, v, u) ∈ plan_scores pl) ∧
    (∀ i j p1 p2,
       (i < j)%nat →
       image_paths_rel !! i = Some p1 → image_paths_rel !! j = Some p2 →
       calculate_similarity_score e p1 p2 = -1 →
       (∀ s, ((s, i, j) ∉ plan_scores pl) ∧ ((s, j, i) ∉ plan_scores pl)) ∧
       ¬ adjacent (plan_adjacency pl) i j ∧ ¬ adjacent (plan_adjacency pl) j i).
Proof.
  intros Hpaths Hcompleted. split_and!.
  - intros p1 p2 img1 img2 img2' diff H1 H2 Hn Hd. simpl.
    destruct (normalize_shape _ _ _ _ Hn) as [Hsz Hm].
    assert (calculate_similarity_score e p1 p2 = score_of_diff diff) as ->.
    { unfold calculate_similarity_score. by rw H1 H2 Hn Hd. }
    split_and!; [done | done | done | apply score_of_diff_zero_count |
                 apply score_of_diff_nonneg].
  - intros p1 p2 Hfail. unfold calculate_similarity_score.
    destruct Hfail as [-> | [H2 | (img1 & img2 & -> & -> & Hfail)]]; [done | |].
    + rw H2. by destruct (open_image e p1).
    + destruct Hfail as [-> | (img2' & -> & ->)]; done.
  - intros ed. by apply all_scores_valid.
  - apply make_plan_returns.
  - intros pl Hplan.
    destruct (make_plan_inv e image_paths_rel completed pl Hplan)
      as (p & F & Hscores & _ & Hk & _).
    split; [done |].
    assert (∀ s u v, (s, u, v) ∈ plan_scores pl →
              (u < v)%nat ∧
              ∃ p1 p2, image_paths_rel !! u = Some p1 ∧ image_paths_rel !! v = Some p2 ∧
                       s = calculate_similarity_score e p1 p2 ∧ s ≠ -1) as Hpair.
    { intros s u v. rw Hscores. by apply all_scores_pair. }
    assert (∀ u v, adjacent (plan_adjacency pl) u v →
              ∃ s, (s, u, v) ∈ plan_scores pl ∨ (s, v, u) ∈ plan_scores pl) as Hedge.
    { intros u v [s Hs]%(ki_adj _ _ _ _ _ Hk). exists s. rw Hscores.
      destruct Hs as [Hs | Hs]; [left | right]; by apply (ki_sub _ _ _ _ _ Hk). }
    assert (∀ i j p1 p2 s,
              image_paths_rel !! i = Some p1 → image_paths_rel !! j = Some p2 →
              calculate_similarity_score e p1 p2 = -1 → (s, i, j) ∉ plan_scores pl)
      as Hnone.
    { intros i j p1 p2 s Hi Hj Hs Hin.
      apply Hpair in Hin as (_ & q1 & q2 & Hi' & Hj' & -> & Hne).
      apply Hne. by replace q1 with p1 by congruence; replace q2 with p2 by congruence. }
    split_and!.
    + intros s u v Hin. destruct (Hpair s u v Hin) as (_ & p1 & p2 & Hu & Hv & Hs & Hne).
      split_and!; [done | | exists p1, p2; by split_and!].
      pose proof (similarity_score_range e p1 p2). lia.
    + done.
    + intros i j p1 p2 Hij Hi Hj Hs.
      assert (∀ s, (s, j, i) ∉ plan_scores pl) as Hji.
      { intros s Hin. apply Hpair in Hin as [? _]. lia. }
      split_and!.
      * intros s. split; [by apply (Hnone i j p1 p2 s) | done].
      * intros [s [Hin | Hin]]%Hedge;
          [by apply (Hnone i j p1 p2 s) | by apply (Hji s)].
      * intros [s [Hin | Hin]]%Hedge;
          [by apply (Hji s) | by apply (Hnone i j p1 p2 s)].
Qed.

(** Frames 0 and 1 of the ranked frames agree on two of their four pixels;
    the third file does not decode, so its pairs score -1, the score list
    holds the pair (0, 1) alone and the third frame has no edge. *)
Lemma similarity_score_and_sentinel_witness :
  calculate_similarity_score ranked_env "0.png" "1.png" = 2 ∧
  0 ≤ calculate_similarity_score ranked_env "0.png" "1.png" ∧
  calculate_similarity_score ranked_env "0.png" "x.png" = -1 ∧
  ∃ pl, make_plan ranked_env paths_with_unreadable
          (combinations2 paths_with_unreadable) = Ok pl ∧
        plan_scores pl = [(2, 0%nat, 1%nat)] ∧
        (∀ s, ((s, 0%nat, 2%nat) ∉ plan_scores pl) ∧ ((s, 2%nat, 0%nat) ∉ plan_scores pl)) ∧
        ¬ adjacent (plan_adjacency pl) 0 2 ∧ ¬ adjacent (plan_adjacency pl) 2 0.
Proof.
  destruct (similarity_score_and_sentinel ranked_env paths_with_unreadable
              (combinations2 paths_with_unreadable)) as (Hscore & Hfail & _ & Hex & Hprops).
  - apply (bool_decide_unpack _). vm_compute. exact I.
  - reflexivity.
  - destruct (Hscore "0.png"%string "1.png"%string
                (gray_row [0; 0; 0; 0]) (gray_row [9; 9; 0; 0]) (gray_row [9; 9; 0; 0])
                (PIL.ImL (PIL.chop PIL.absdiff
                            (PIL.Raster 4 1 (fun x _ => default 0 ([0; 0; 0; 0] !! x)))
                            (PIL.Raster 4 1 (fun x _ => default 0 ([9; 9; 0; 0] !! x))))))
      as (_ & _ & _ & Hzero & Hnonneg); [reflexivity.. |].
    split; [rewrite -> Hzero; reflexivity |]. split; [exact Hnonneg |].
    assert (calculate_similarity_score ranked_env "0.png" "x.png" = -1) as Hx.
    { apply Hfail. right. left. reflexivity. }
    split; [exact Hx |].
    destruct Hex as [pl Hpl]; [vm_compute; lia |].
    exists pl. split; [exact Hpl |].
    destruct (Hprops pl Hpl) as (Hsc & _ & _ & Hnone).
    split; [rewrite -> Hsc; vm_compute; reflexivity |].
    apply (Hnone 0%nat 2%nat "0.png"%string "x.png"%string);
      [lia | reflexivity | reflexivity | exact Hx].
Defined.

(** * Determinism of the manifest *)

(** C4 (as stated, refuted): with three identical frames every pair scores
    the same, and the manifest depends on the order in which the scores
    arrive. Arriving in submission order, frames 1 and 2 both depend on frame
    0; arriving in the reverse order, frame 1 depends on frame 2. *)
Lemma tie_order_changes_manifest :
  (∀ l : list (string * string), reverse l ≡ₚ l) ∧
  dependencies <$> manifest_of (main tie_env three_paths id id) ≠
  dependencies <$> manifest_of (main tie_env three_paths reverse id).
Proof.
  split; [apply reverse_Permutation |]. intros Heq.
  apply (f_equal (fun o : option (gmap nat nat) => o ≫= (fun d => d !! 1%nat))) in Heq.
  vm_compute in Heq. discriminate.
Qed.

Section determinism.
Context (e : env) (image_paths_rel : list string).
Context (sched1 sched1' : list (string * string) → list (string * string)).
Context (Hs1 : ∀ l, sched1 l ≡ₚ l) (Hs1' : ∀ l, sched1' l ≡ₚ l).
Context (Hdistinct :
  NoDup (collect_scores e (make_path_to_id image_paths_rel)
           (combinations2 image_paths_rel)).*1.*1).

Lemma sorted_scores_schedule_irrelevant :
  sort_scores (collect_scores e (make_path_to_id image_paths_rel)
                 (sched1 (combinations2 image_paths_rel))) =
  sort_scores (collect_scores e (make_path_to_id image_paths_rel)
                 (sched1' (combinations2 image_paths_rel))).
Proof.
  apply sort_scores_order_irrelevant.
  - apply collect_scores_Permutation. by rw Hs1 Hs1'.
  - by rw (collect_scores_Permutation _ _ _ _ (Hs1 _)).
Qed.

Lemma make_plan_schedule_irrelevant :
  make_plan e image_paths_rel (sched1 (combinations2 image_paths_rel)) =
  make_plan e image_paths_rel (sched1' (combinations2 image_paths_rel)).
Proof. unfold make_plan. by rw sorted_scores_schedule_irrelevant. Qed.
End determinism.

(** C4 (as amended): when no two valid pair scores are equal, two runs on the
    same frames write the same manifest, whatever the order in which the
    scored pairs and the diff tasks complete. (The sort is stable on the
    score alone: pairs of equal score keep their completion order.) *)
Theorem manifest_deterministic_without_ties (e : env) (image_paths_rel : list string)
    (sched1 sched1' : list (string * string) → list (string * string))
    (sched2 sched2' : list (nat * nat) → list (nat * nat)) :
  (∀ l, sched1 l ≡ₚ l) → (∀ l, sched1' l ≡ₚ l) →
  (∀ l, sched2 l ≡ₚ l) → (∀ l, sched2' l ≡ₚ l) →
  NoDup (collect_scores e (make_path_to_id image_paths_rel)
           (combinations2 image_paths_rel)).*1.*1 →
  manifest_of (main e image_paths_rel sched1 sched2) =
  manifest_of (main e image_paths_rel sched1' sched2').
Proof.
  intros Hs1 Hs1' Hs2 Hs2' Hdistinct.
  destruct (decide (length image_paths_rel < 2)%nat) as [Hlt | Hge].
  - unfold main. by rw !decide_True.
  - rw (manifest_of_main e image_paths_rel sched1 sched2 ltac:(lia) Hs2).
    rw (manifest_of_main e image_paths_rel sched1' sched2' ltac:(lia) Hs2').
    by rw (make_plan_schedule_irrelevant e image_paths_rel sched1 sched1').
Qed.

Lemma manifest_deterministic_without_ties_witness :
  manifest_of (main ranked_env three_paths id id) =
  manifest_of (main ranked_env three_paths reverse reverse).
Proof.
  apply (manifest_deterministic_without_ties ranked_env three_paths id reverse id reverse).
  - reflexivity.
  - apply reverse_Permutation.
  - reflexivity.
  - apply reverse_Permutation.
  - apply (bool_decide_unpack _). vm_compute. exact I.
Defined.

(** * Phase 2: what the archive holds *)




Section archive.
Context (e : env) (image_paths_rel : list string).
Context (sched1 : list (string * string) → list (string * string)).
Context (Hlen : (2 ≤ length image_paths_rel)%nat) (Hpaths : NoDup image_paths_rel).

End archive.

Section schedules.
Context (e : env) (image_paths_rel : list string).
Context (sched1 : list (string * string) → list (string * string)).
Context (sched2 sched2' : list (nat * nat) → list (nat * nat)).
Context (Hlen : (2 ≤ length image_paths_rel)%nat) (Hpaths : NoDup image_paths_rel).
Context (Hs2 : ∀ l, sched2 l ≡ₚ l) (Hs2' : ∀ l, sched2' l ≡ₚ l).

End schedules.





(** * Further properties of the disjoint-set structure *)

Section dsu_more.
Import DSU.
Implicit Types (p : gmap nat nat) (x y z r : nat) (l : list nat).

Lemma roots_after_link p r1 r2 items :
  NoDup items → forest p → r2 ∈ items →
  p !! r1 = Some r1 → p !! r2 = Some r2 → r1 ≠ r2 →
  length (filter (is_root p) items) =
  S (length (filter (is_root (<[r2 := r1]> p)) items)).
Proof.
  intros Hnd Hf Hin H1 H2 Hne.
  apply (length_filter_remove (is_root p) (is_root (<[r2 := r1]> p)) items r2);
    [done | done | done |].
  intros x. unfold is_root. destruct (decide (x = r2)) as [-> | Hx].
  - rw lookup_insert_eq. split; [intros [= ->]; done | by intros [_ ?]].
  - rw lookup_insert_ne //. intuition.
Qed.

End dsu_more.

(** X1: [find(x)] returns exactly when the parent chain of [x] has fewer
    links than the nesting depth the interpreter allows, and raises
    otherwise. When it returns, it returns the representative at the end of
    the chain and has re-pointed every item of the chain to it, leaving all
    other entries as they were; afterwards [find] of the representative or of
    any item of the chain returns the same representative and changes
    nothing. *)
Theorem find_compresses_path (depth : nat) (p : gmap nat nat) (x r : nat)
    (l : list nat) :
  DSU.path_to_root p x l r →
  ((length l < depth)%nat →
   ∃ p', DSU.find depth p x = Ok (p', r) ∧
         (∀ z, p' !! z = if decide (z ∈ l) then Some r else p !! z) ∧
         (∀ z, z ∈ r :: l → DSU.find depth p' z = Ok (p', r))) ∧
  ((depth ≤ length l)%nat → DSU.find depth p x = Raised).
Proof.
  intros Hp. split; [| intros Hlen; by apply (find_too_deep depth p x l r)].
  intros Hlen. destruct (find_spec depth p x l r Hp Hlen) as (p' & Hfind & Hc).
  exists p'. split_and!; [done | done |].
  assert (p' !! r = Some r) as Hr.
  { rw Hc decide_False; [by eapply ptr_root_fixed | by eapply ptr_root_notin]. }
  intros z [-> | Hz]%elem_of_cons.
  - destruct (find_spec depth p' r [] r) as (p'' & Hfind' & Hc');
      [by constructor | simpl; lia |].
    by rw Hfind' -(compressed_eq _ _ _ _ _ (compressed_nil p' r) Hc').
  - apply find_direct; [| by rw Hc decide_True | done].
    destruct l; [by apply elem_of_nil in Hz | simpl in Hlen; lia].
Qed.

(** On the chain 2 -> 1 -> 0: with the usual depth [find(2)] returns 0 and
    re-points 2 and 1; where only two nested calls are allowed it raises. *)
Lemma find_compresses_path_witness :
  (∃ p', DSU.find default_find_depth chain_210 2 = Ok (p', 0%nat) ∧
         (∀ z, p' !! z = if decide (z ∈ [2; 1]%nat) then Some 0%nat else chain_210 !! z) ∧
         (∀ z, z ∈ [0; 2; 1]%nat → DSU.find default_find_depth p' z = Ok (p', 0%nat))) ∧
  DSU.find 2 chain_210 2 = Raised.
Proof.
  assert (DSU.path_to_root chain_210 2 [2; 1]%nat 0) as Hp.
  { apply (DSU.ptr_step _ 2%nat 1%nat); [reflexivity | lia |].
    apply (DSU.ptr_step _ 1%nat 0%nat); [reflexivity | lia |].
    apply DSU.ptr_root. reflexivity. }
  split.
  - apply (find_compresses_path default_find_depth chain_210 2 0 [2; 1]%nat Hp).
    vm_compute. lia.
  - apply (find_compresses_path 2 chain_210 2 0 [2; 1]%nat Hp). simpl. lia.
Defined.

(** X2: a [union(x, y)] that returns keeps the representative of [x]'s set
    for the merged set: every item whose representative was [y]'s now has
    [x]'s, and every other item keeps the representative it had; unless the
    two sets were one already, [y]'s former representative represents nothing
    afterwards. [union(x, x)] returns false. The call returns whenever there
    are no more items than nested calls of [find] allowed. *)
Theorem union_keeps_first_representative (depth : nat) (items : list nat)
    (p : gmap nat nat) (x y : nat) :
  DSU.reachable depth items p → x ∈ items → y ∈ items →
  ∃ rx ry,
    DSU.repr p x rx ∧ DSU.repr p y ry ∧
    ((length items ≤ depth)%nat → ∃ p' b, DSU.union depth p x y = Ok (p', b)) ∧
    ∀ p' b, DSU.union depth p x y = Ok (p', b) →
      (b = true ↔ rx ≠ ry) ∧
      (∀ z rz, DSU.repr p z rz → DSU.repr p' z (if decide (rz = ry) then rx else rz)) ∧
      (∀ z rz', DSU.repr p' z rz' → rz' ≠ ry ∨ rx = ry) ∧
      (x = y → b = false).
Proof.
  intros Hreach Hx Hy. destruct (reachable_inv _ _ _ Hreach) as [Hf Hdom].
  apply Hdom in Hx, Hy.
  destruct (Hf x Hx) as [rx Hrx]. destruct (Hf y Hy) as [ry Hry].
  exists rx, ry. split_and!; [done | done | |].
  { intros Hlen. apply union_returns; [done | done | done |].
    pose proof (size_le_items _ _ Hdom). lia. }
  intros p' b Hu.
  destruct (union_inv _ _ _ _ _ _ Hf Hu)
    as (rx' & ry' & Hrx' & Hry' & Hb & Hf' & _ & Hd' & Hr').
  assert (rx' = rx) as -> by by eapply repr_det.
  assert (ry' = ry) as -> by by eapply repr_det.
  split_and!; [done | | |].
  - intros z rz Hz. apply Hr'. exists rz. split; [done |].
    destruct b.
    + repeat case_decide; intuition congruence.
    + assert (rx = ry) as <-.
      { apply dec_stable. intros Hne. by apply Hb in Hne. }
      repeat case_decide; intuition congruence.
  - intros z rz' (rz & Hz & ->)%Hr'.
    destruct (decide (rx = ry)) as [| Hne]; [by right | left].
    destruct (decide (b = true ∧ rz = ry)) as [_ | Hc]; [done |].
    intros ->. apply Hc. split; [| done]. by apply Hb.
  - intros ->. destruct b; [| done]. exfalso.
    assert (rx ≠ ry) as Hne by by apply Hb. apply Hne. by eapply repr_det.
Qed.

(** With 2 below 1 and 0 on its own, [union(0, 2)] merges the two sets:
    it returns true, and the items 1 and 2 get the representative 0. *)
Lemma union_keeps_first_representative_witness :
  ∃ p', DSU.union default_find_depth pair_21 0 2 = Ok (p', true) ∧
        DSU.repr pair_21 0 0 ∧ DSU.repr pair_21 2 1 ∧
        DSU.repr p' 0 0 ∧ DSU.repr p' 1 0 ∧ DSU.repr p' 2 0.
Proof.
  assert (DSU.repr pair_21 0 0) as H0.
  { exists []. apply DSU.ptr_root. reflexivity. }
  assert (DSU.repr pair_21 1 1) as H1.
  { exists []. apply DSU.ptr_root. reflexivity. }
  assert (DSU.repr pair_21 2 1) as H2.
  { exists [2%nat]. apply (DSU.ptr_step _ 2%nat 1%nat); [reflexivity | lia |].
    apply DSU.ptr_root. reflexivity. }
  destruct (union_keeps_first_representative default_find_depth [0; 1; 2]%nat pair_21 0 2)
    as (rx & ry & Hrx & Hry & _ & Hprops).
  - eapply (DSU.reach_op _ _ _ (DSU.OpUnion 1 2)); [constructor | reflexivity].
  - apply (bool_decide_unpack _). vm_compute. exact I.
  - apply (bool_decide_unpack _). vm_compute. exact I.
  - eexists. split; [reflexivity |].
    destruct (Hprops _ true eq_refl) as (_ & Hall & _).
    assert (rx = 0%nat) as -> by (eapply repr_det; [exact Hrx | exact H0]).
    assert (ry = 1%nat) as -> by (eapply repr_det; [exact Hry | exact H2]).
    split_and!; [exact H0 | exact H2 | apply (Hall 0%nat 0%nat H0)
                | apply (Hall 1%nat 1%nat H1) | apply (Hall 2%nat 1%nat H2)].
Defined.

(** X3: a [union] that returns true lowers the number of representatives
    (items that are their own parent) by exactly one, and one that returns
    false leaves it as it was; so does a [find] that returns. Both return
    whenever there are no more items than nested calls of [find] allowed. *)
Theorem union_counts_sets (depth : nat) (items : list nat) (p : gmap nat nat)
    (x y : nat) :
  NoDup items → DSU.reachable depth items p → x ∈ items → y ∈ items →
  (∀ p' b,
     DSU.union depth p x y = Ok (p', b) →
     (length (filter (is_root p') items) + (if b then 1 else 0) =
      length (filter (is_root p) items))%nat) ∧
  (∀ p' r, DSU.find depth p x = Ok (p', r) → ∀ z, is_root p' z ↔ is_root p z) ∧
  ((length items ≤ depth)%nat →
   (∃ p' b, DSU.union depth p x y = Ok (p', b)) ∧
   (∃ p' r, DSU.find depth p x = Ok (p', r))).
Proof.
  intros Hnd Hreach Hx Hy. destruct (reachable_inv _ _ _ Hreach) as [Hf Hdom].
  assert (∀ q z q' r, DSU.forest q → DSU.find depth q z = Ok (q', r) →
            q !! r = Some r ∧ DSU.forest q' ∧
            (∀ w, is_Some (q' !! w) ↔ is_Some (q !! w)) ∧
            (∀ w, is_root q' w ↔ is_root q w)) as Hfind.
  { intros q z q' r Hq Hfz.
    destruct (find_props _ _ _ _ _ Hq Hfz) as ([l Hl] & Hr' & Hq' & _ & Hd & Hrep).
    split_and!; [by eapply ptr_root_fixed | done | done |].
    intros w. by rw !is_root_repr Hrep. }
  split_and!.
  - intros p' b. unfold DSU.union.
    destruct (DSU.find depth p x) as [[p1 r1] | |] eqn:Hf1; [| done | done]. simpl.
    destruct (Hfind _ _ _ _ Hf Hf1) as (Hr1 & Hfo1 & Hd1 & Hroot1).
    destruct (DSU.find depth p1 y) as [[p2 r2] | |] eqn:Hf2; [| done | done]. simpl.
    destruct (Hfind _ _ _ _ Hfo1 Hf2) as (Hr2 & Hfo2 & Hd2 & Hroot2).
    assert (length (filter (is_root p2) items) = length (filter (is_root p) items))
      as Hsame.
    { apply length_filter_ext. intros w. by rw Hroot2 Hroot1. }
    case_decide as Hne; intros [= <- <-]; [| lia].
    assert (r2 ∈ items) as Hin by (apply Hdom, Hd1; by rw Hr2).
    assert (p2 !! r1 = Some r1) as H1 by by apply Hroot2, Hroot1.
    assert (p2 !! r2 = Some r2) as H2 by by apply Hroot2.
    pose proof (roots_after_link p2 r1 r2 items Hnd Hfo2 Hin H1 H2 Hne). lia.
  - intros p' r Hf1. by destruct (Hfind _ _ _ _ Hf Hf1) as (_ & _ & _ & Hroot1).
  - intros Hlen. pose proof (size_le_items _ _ Hdom) as Hsize. split.
    + apply union_returns; [done | by apply Hdom | by apply Hdom | lia].
    + destruct (find_ok depth p x Hf) as (p' & r & Hfx & _); [by apply Hdom | lia |].
      eauto.
Qed.

(** With 2 below 1 and 0 on its own there are two representatives;
    [union(0, 2)] leaves one. *)
Lemma union_counts_sets_witness :
  ∃ p', DSU.union default_find_depth pair_21 0 2 = Ok (p', true) ∧
        length (filter (is_root pair_21) [0; 1; 2]%nat) = 2%nat ∧
        length (filter (is_root p') [0; 1; 2]%nat) = 1%nat.
Proof.
  destruct (union_counts_sets default_find_depth [0; 1; 2]%nat pair_21 0 2)
    as (Hcount & _ & _).
  - apply (bool_decide_unpack _). vm_compute. exact I.
  - eapply (DSU.reach_op _ _ _ (DSU.OpUnion 1 2)); [constructor | reflexivity].
  - apply (bool_decide_unpack _). vm_compute. exact I.
  - apply (bool_decide_unpack _). vm_compute. exact I.
  - eexists. split; [reflexivity |].
    assert (length (filter (is_root pair_21) [0; 1; 2]%nat) = 2%nat) as H2
      by (vm_compute; reflexivity).
    split; [exact H2 |].
    specialize (Hcount _ true eq_refl). simpl in Hcount. lia.
Defined.

(** * Further properties of the scorer and of the difference mask *)

Section score_facts.
Import PIL.

Lemma count_nonzero_ext (r r' : raster Z) :
  width r = width r' → height r = height r' →
  (∀ x y, pixel r x y = pixel r' x y) →
  count_nonzero r = count_nonzero r'.
Proof.
  intros Hw Hh Hpx. unfold count_nonzero, coords. rw Hw Hh. f_equal.
  apply filter_ext_in. intros [x y] _. simpl. by rw Hpx.
Qed.

Lemma count_nonzero_all_zero (r : raster Z) :
  (∀ x y, pixel r x y = 0) → count_nonzero r = 0%nat.
Proof.
  intros Hpx. unfold count_nonzero.
  induction (coords r) as [| c l IH]; [done |].
  rw filter_cons decide_False //. intros Hc. by apply Hc.
Qed.

Lemma absdiff_sym a b : absdiff a b = absdiff b a.
Proof. unfold absdiff. lia. Qed.

Lemma absdiff_rgb_sym a b : absdiff_rgb a b = absdiff_rgb b a.
Proof.
  destruct a as [[r1 g1] b1], b as [[r2 g2] b2]. unfold absdiff_rgb.
  by rw (absdiff_sym r1) (absdiff_sym g1) (absdiff_sym b1).
Qed.

Lemma absdiff_rgba_sym a b : absdiff_rgba a b = absdiff_rgba b a.
Proof.
  destruct a as [[[r1 g1] b1] a1], b as [[[r2 g2] b2] a2]. unfold absdiff_rgba.
  by rw (absdiff_sym r1) (absdiff_sym g1) (absdiff_sym b1) (absdiff_sym a1).
Qed.

Lemma absdiff_rgba_same c : drop_alpha (absdiff_rgba c c) = (0, 0, 0).
Proof.
  destruct c as [[[r g] b] a]. unfold absdiff_rgba, absdiff, drop_alpha.
  by rw !Z.sub_diag.
Qed.

(** The difference image has the size of the rectangle common to its
    operands. *)
Lemma difference_size a b d :
  difference a b = Some d →
  size_of d = (Nat.min (size_of a).1 (size_of b).1, Nat.min (size_of a).2 (size_of b).2).
Proof. destruct a, b; intros [= <-]; done. Qed.

Lemma convert_L_size im :
  (width (convert_L im), height (convert_L im)) = size_of im.
Proof. by destruct im. Qed.

Lemma score_of_diff_le diff :
  score_of_diff diff ≤ Z.of_nat (size_of diff).2 * Z.of_nat (size_of diff).1.
Proof.
  rw score_of_diff_zero_count -(convert_L_size diff) /=.
  pose proof (count_zero_nonzero (convert_L diff)). nia.
Qed.

Lemma score_of_diff_sym a b d d' :
  difference a b = Some d → difference b a = Some d' →
  score_of_diff d = score_of_diff d'.
Proof.
  unfold score_of_diff.
  destruct a as [r1 | r1 | r1], b as [r2 | r2 | r2]; intros [= <-] [= <-]; simpl.
  - rw (Nat.min_comm (height r1)) (Nat.min_comm (width r1)). do 2 f_equal.
    apply count_nonzero_ext; simpl; [lia | lia |]. intros x y. apply absdiff_sym.
  - rw (Nat.min_comm (height r1)) (Nat.min_comm (width r1)). do 2 f_equal.
    apply count_nonzero_ext; simpl; [lia | lia |]. intros x y.
    by rw absdiff_rgb_sym.
  - rw (Nat.min_comm (height r1)) (Nat.min_comm (width r1)). do 2 f_equal.
    apply count_nonzero_ext; simpl; [lia | lia |]. intros x y.
    by rw absdiff_rgba_sym.
Qed.

Lemma score_of_diff_same a :
  ∃ d, difference a a = Some d ∧
       score_of_diff d = Z.of_nat (size_of a).2 * Z.of_nat (size_of a).1.
Proof.
  unfold score_of_diff. destruct a as [r | r | r]; eexists; (split; [done |]); simpl.
  - rw count_nonzero_all_zero /=; [rw !Nat.min_id; lia |].
    intros x y. unfold absdiff. lia.
  - rw count_nonzero_all_zero /=; [rw !Nat.min_id; lia |].
    intros x y. by rw absdiff_rgb_same.
  - rw count_nonzero_all_zero /=; [rw !Nat.min_id; lia |].
    intros x y. by rw absdiff_rgba_same.
Qed.

Lemma normalize_same_shape e a b :
  size_of a = size_of b → mode_of a = mode_of b → normalize e a b = Some b.
Proof. intros Hs Hm. unfold normalize. rw decide_False //. tauto. Qed.

(** The fixed-point luma of a difference vanishes exactly below half a
    unit of the 16.16 scale. *)
Lemma luma_positive (r g b : Z) :
  luma (r, g, b) > 0 ↔ 32768 ≤ r * 19595 + g * 38470 + b * 7471.
Proof.
  unfold luma. rw Z.shiftr_div_pow2 //.
  change (2 ^ 16) with 65536.
  pose proof (Z.div_mod (r * 19595 + g * 38470 + b * 7471 + 32768) 65536 ltac:(done)).
  pose proof (Z.mod_pos_bound (r * 19595 + g * 38470 + b * 7471 + 32768) 65536
                ltac:(done)).
  lia.
Qed.

End score_facts.

(** X4: the score never exceeds the number of pixels of the first image, the
    one the second is resized to; two paths that decode to the same image
    reach that maximum. *)
Theorem similarity_score_maximum (e : env) (p1 p2 : string) (img1 : PIL.image) :
  open_image e p1 = Some img1 →
  calculate_similarity_score e p1 p2 ≤
    Z.of_nat (PIL.size_of img1).2 * Z.of_nat (PIL.size_of img1).1 ∧
  (open_image e p2 = Some img1 →
   calculate_similarity_score e p1 p2 =
     Z.of_nat (PIL.size_of img1).2 * Z.of_nat (PIL.size_of img1).1).
Proof.
  intros H1. unfold calculate_similarity_score. rw H1. split.
  - destruct (open_image e p2) as [img2 |]; [| lia].
    destruct (normalize e img1 img2) as [img2' |] eqn:Hn; [| lia].
    destruct (PIL.difference img1 img2') as [d |] eqn:Hd; [| lia].
    apply normalize_shape in Hn as [Hsz _].
    pose proof (score_of_diff_le d) as Hle.
    rw (difference_size _ _ _ Hd) Hsz /= !Nat.min_id in Hle. done.
  - intros ->. rw normalize_same_shape //.
    by destruct (score_of_diff_same img1) as (d & -> & ->).
Qed.

Lemma similarity_score_maximum_witness :
  calculate_similarity_score tie_env "0.png" "1.png" ≤
    Z.of_nat (PIL.size_of (gray_row [0])).2 * Z.of_nat (PIL.size_of (gray_row [0])).1 ∧
  (open_image tie_env "1.png" = Some (gray_row [0]) →
   calculate_similarity_score tie_env "0.png" "1.png" =
     Z.of_nat (PIL.size_of (gray_row [0])).2 * Z.of_nat (PIL.size_of (gray_row [0])).1).
Proof. apply (similarity_score_maximum tie_env "0.png" "1.png"). reflexivity. Defined.

(** X5: for two images of the same size and mode, where nothing is resized
    or converted, the score does not depend on the order of the pair. *)
Theorem similarity_score_symmetric (e : env) (p1 p2 : string) (img1 img2 : PIL.image) :
  open_image e p1 = Some img1 → open_image e p2 = Some img2 →
  PIL.size_of img1 = PIL.size_of img2 → PIL.mode_of img1 = PIL.mode_of img2 →
  calculate_similarity_score e p1 p2 = calculate_similarity_score e p2 p1.
Proof.
  intros H1 H2 Hs Hm. unfold calculate_similarity_score.
  rw H1 H2 !normalize_same_shape //.
  destruct (PIL.difference img1 img2) as [d |] eqn:Hd,
           (PIL.difference img2 img1) as [d' |] eqn:Hd'.
  - by eapply score_of_diff_sym.
  - destruct img1, img2; done.
  - destruct img1, img2; done.
  - done.
Qed.

Lemma similarity_score_symmetric_witness :
  calculate_similarity_score ranked_env "1.png" "2.png" =
  calculate_similarity_score ranked_env "2.png" "1.png".
Proof.
  apply (similarity_score_symmetric ranked_env "1.png" "2.png"
           (gray_row [9; 9; 0; 0]) (gray_row [0; 0; 0; 9])); reflexivity.
Defined.

(** X6: every pixel of the raster handed to the PNG optimizer carries the
    child's colour, and its alpha is 255 exactly when the channel
    differences weighted 19595, 38470 and 7471 add up to at least 32768,
    and 0 otherwise. *)
Theorem diff_pixel_threshold (cur base : PIL.image) (out : PIL.raster PIL.rgba)
    (x y : nat) :
  diff_raster cur base = Some out →
  let '(r1, g1, b1) := PIL.pixel (PIL.convert_RGB cur) x y in
  let '(r2, g2, b2) := PIL.pixel (PIL.convert_RGB base) x y in
  PIL.pixel out x y =
    (r1, g1, b1,
     if decide (32768 ≤ Z.abs (r1 - r2) * 19595 + Z.abs (g1 - g2) * 38470 +
                        Z.abs (b1 - b2) * 7471)
     then 255 else 0).
Proof.
  intros Hout. pose proof (diff_raster_spec cur base) as Hs. simpl in Hs.
  case_decide; [| congruence].
  destruct Hs as (out' & Hout' & _ & _ & Hpx).
  assert (out' = out) as -> by congruence.
  rw Hpx.
  destruct (PIL.pixel (PIL.convert_RGB cur) x y) as [[r1 g1] b1].
  destruct (PIL.pixel (PIL.convert_RGB base) x y) as [[r2 g2] b2].
  f_equal. unfold PIL.absdiff_rgb, PIL.absdiff.
  pose proof (luma_positive (Z.abs (r1 - r2)) (Z.abs (g1 - g2)) (Z.abs (b1 - b2))).
  repeat case_decide; tauto.
Qed.

Lemma diff_pixel_threshold_witness :
  ∃ out, diff_raster (one_pixel (0, 0, 5)) (one_pixel (0, 0, 0)) = Some out ∧
         PIL.pixel out 0 0 = (0, 0, 5, 255).
Proof.
  eexists. split; [reflexivity |].
  apply (diff_pixel_threshold (one_pixel (0, 0, 5)) (one_pixel (0, 0, 0)) _ 0 0).
  reflexivity.
Defined.

(** X7: the diff raster exists exactly when the child is no wider and no
    taller than its parent, and then it has the child's size; a child that
    exceeds its parent in either dimension makes the mask and the image
    mismatch, and nothing is encoded. *)
Theorem diff_raster_needs_child_within_parent (cur base : PIL.image) :
  let c := PIL.convert_RGB cur in
  let b := PIL.convert_RGB base in
  (diff_raster cur base = None ↔
   (PIL.width b < PIL.width c ∨ PIL.height b < PIL.height c)%nat) ∧
  (∀ out, diff_raster cur base = Some out →
          PIL.width out = PIL.width c ∧ PIL.height out = PIL.height c) ∧
  (∀ e cp pp out,
     open_image e cp = Some cur → open_image e pp = Some base →
     (PIL.width b < PIL.width c ∨ PIL.height b < PIL.height c)%nat →
     encode_diff e cp pp out = None).
Proof.
  intros c b. pose proof (diff_raster_spec cur base) as Hs. simpl in Hs.
  fold c b in Hs. case_decide as Hfit.
  - destruct Hs as (out & Hout & Hw & Hh & _). split_and!.
    + rw Hout. split; [done | lia].
    + intros out' Hout'. by assert (out' = out) as -> by congruence.
    + intros. lia.
  - split_and!.
    + split; [lia | done].
    + intros out Hout. congruence.
    + intros e cp pp out H1 H2 _. unfold encode_diff. by rw H1 H2 Hs.
Qed.

(** X8: a frame diffed against an image with the same pixels gives a raster
    of its own size that is transparent everywhere. *)
Theorem diff_of_identical_is_transparent (im : PIL.image) :
  ∃ out, diff_raster im im = Some out ∧
         PIL.width out = PIL.width (PIL.convert_RGB im) ∧
         PIL.height out = PIL.height (PIL.convert_RGB im) ∧
         ∀ x y, PIL.pixel out x y = (PIL.pixel (PIL.convert_RGB im) x y, 0).
Proof.
  pose proof (diff_raster_spec im im) as Hs. simpl in Hs.
  rw decide_True in Hs; [| lia].
  destruct Hs as (out & Hout & Hw & Hh & Hpx).
  exists out. split_and!; [done | done | done |].
  intros x y. by rw Hpx absdiff_rgb_same luma_zero.
Qed.

(** X24: for two RGB images of the same size the score is the number of
    pixel positions at which the channel differences, weighted 19595, 38470
    and 7471, add up to less than 32768; positions that differ less than
    that count as equal. *)
Theorem score_counts_faint_as_equal (e : env) (p1 p2 : string)
    (r1 r2 : PIL.raster PIL.rgb) :
  open_image e p1 = Some (PIL.ImRGB r1) → open_image e p2 = Some (PIL.ImRGB r2) →
  PIL.width r1 = PIL.width r2 → PIL.height r1 = PIL.height r2 →
  calculate_similarity_score e p1 p2 =
    Z.of_nat (length (filter
                (fun c => weighted_difference (PIL.pixel r1 c.1 c.2) (PIL.pixel r2 c.1 c.2)
                          < 32768)
                (PIL.coords r1))).
Proof.
  intros H1 H2 Hw Hh. unfold calculate_similarity_score.
  rw H1 H2 normalize_same_shape; [| simpl; congruence | done]. simpl.
  rw score_of_diff_zero_count. f_equal. unfold PIL.count_zero, PIL.coords. simpl.
  rw -Hw -Hh !Nat.min_id. f_equal. apply filter_ext_in. intros [x y] _. simpl.
  destruct (PIL.pixel r1 x y) as [[a1 g1] b1], (PIL.pixel r2 x y) as [[a2 g2] b2].
  unfold PIL.absdiff_rgb, PIL.absdiff, weighted_difference.
  pose proof (luma_positive (Z.abs (a1 - a2)) (Z.abs (g1 - g2)) (Z.abs (b1 - b2))) as Hl.
  assert (0 ≤ PIL.luma (Z.abs (a1 - a2), Z.abs (g1 - g2), Z.abs (b1 - b2))) as Hnn.
  { unfold PIL.luma. apply Z.shiftr_nonneg. lia. }
  lia.
Qed.

Lemma score_counts_faint_as_equal_witness :
  calculate_similarity_score
    (Env (fun p => if decide (p = "0.png"%string) then Some (one_pixel (0, 0, 4))
                   else Some (one_pixel (0, 0, 0)))
         (fun _ im => Some im) (fun _ => 0) (fun _ => true) (fun _ => true)
         (fun _ => true) default_find_depth)
    "0.png" "1.png" = 1.
Proof.
  rewrite -> (score_counts_faint_as_equal _ "0.png" "1.png"
                (PIL.Raster 1 1 (fun _ _ => (0, 0, 4)))
                (PIL.Raster 1 1 (fun _ _ => (0, 0, 0))));
    reflexivity.
Defined.

(** * The progress bar *)

Section bar_facts.

Lemma string_length_app (s t : string) :
  String.length (s +:+ t) = (String.length s + String.length t)%nat.
Proof. induction s as [| a s IH]; [done |]. simpl. by rw IH. Qed.

Lemma string_app_empty_r (s : string) : s +:+ "" = s.
Proof.
  induction s as [| a s IH]; [done |].
  change (String a s +:+ "") with (String a (s +:+ "")). by rw IH.
Qed.

Lemma str_repeat_length (s : string) (n : nat) :
  String.length (str_repeat s n) = (n * String.length s)%nat.
Proof.
  induction n as [| n IH]; [done |]. simpl. rw string_length_app IH. lia.
Qed.

(** The number of filled cells is within the bar as long as the iteration
    is within the total. *)
Lemma filled_length_bounds (iteration total length : Z) :
  0 ≤ iteration ≤ total → 0 < total → 0 ≤ length →
  0 ≤ (length * iteration) `div` total ≤ length.
Proof.
  intros Hi Ht Hl. split.
  - apply Z.div_pos; nia.
  - apply Z.div_le_upper_bound; nia.
Qed.

(** A total of 0 is replaced by 1. *)
Lemma progress_total (iteration total : Z) :
  0 ≤ iteration ≤ total →
  let total' := if decide (total = 0) then 1 else total in
  0 < total' ∧ 0 ≤ iteration ≤ total' ∧
  (iteration = total' ↔ iteration = total ∧ total ≠ 0).
Proof. intros Hi. simpl. case_decide; lia. Qed.

(** All cells are filled exactly at the last iteration. *)
Lemma filled_length_full (iteration total length : Z) :
  0 ≤ iteration ≤ total → 0 < total → 0 < length →
  (length * iteration) `div` total = length ↔ iteration = total.
Proof.
  intros Hi Ht Hl. split.
  - intros Hf. destruct (decide (iteration = total)) as [| Hne]; [done | exfalso].
    assert (length * iteration < total * length) as Hlt by nia.
    apply (Z.div_lt_upper_bound _ _ _ Ht) in Hlt. lia.
  - intros ->. rw Z.div_mul; lia.
Qed.

Lemma print_progress_bar_newline (iteration total length : Z) (fill : string) :
  0 ≤ iteration ≤ total →
  (print_progress_bar iteration total length fill).2 = true ↔
  iteration = total ∧ total ≠ 0.
Proof.
  intros Hi. destruct (progress_total iteration total Hi) as (_ & _ & Heq).
  unfold print_progress_bar. simpl. by rw bool_decide_eq_true.
Qed.

Lemma print_progress_bar_length (iteration total length : Z) (fill : string) :
  0 ≤ iteration ≤ total → 0 ≤ length → String.length fill = 1%nat →
  String.length (print_progress_bar iteration total length fill).1 = Z.to_nat length.
Proof.
  intros Hi Hl Hfill. destruct (progress_total iteration total Hi) as (Ht & Hi' & _).
  pose proof (filled_length_bounds iteration _ length Hi' Ht Hl) as Hb.
  unfold print_progress_bar, str_mul. simpl.
  rw string_length_app !str_repeat_length Hfill /=. lia.
Qed.

Lemma print_progress_bar_full (total length : Z) (fill : string) :
  0 < total → 0 ≤ length →
  (print_progress_bar total total length fill).1 = str_repeat fill (Z.to_nat length).
Proof.
  intros Ht Hl. unfold print_progress_bar, str_mul. simpl.
  rw decide_False; [| lia]. rw Z.div_mul; [| lia].
  rw Z.sub_diag /=. apply string_app_empty_r.
Qed.

End bar_facts.

(** X9: for an iteration between 0 and the total, the bar consists of
    [length * iteration // total] fill strings followed by dashes up to
    [length] cells, so with a one-character fill it is exactly [length]
    characters long; the closing newline is printed exactly when the
    iteration equals a non-zero total, which is also when the bar is full.
    A total of 0 is replaced by 1: the bar of 0 out of 0 is all dashes and
    no newline follows it. *)
Theorem progress_bar_shape (iteration total length : Z) (fill : string) :
  0 ≤ iteration ≤ total → 0 ≤ length →
  ∃ filled : nat,
    (filled ≤ Z.to_nat length)%nat ∧
    Z.of_nat filled = (length * iteration) `div` (if decide (total = 0) then 1 else total) ∧
    (print_progress_bar iteration total length fill).1 =
      str_repeat fill filled +:+ str_repeat "-" (Z.to_nat length - filled) ∧
    (String.length fill = 1%nat →
     String.length (print_progress_bar iteration total length fill).1 = Z.to_nat length) ∧
    ((print_progress_bar iteration total length fill).2 = true ↔
     iteration = total ∧ total ≠ 0) ∧
    (0 < length → (filled = Z.to_nat length ↔ iteration = total ∧ total ≠ 0)).
Proof.
  intros Hi Hl.
  destruct (progress_total iteration total Hi) as (Ht & Hi' & Heq).
  set (total' := if decide (total = 0) then 1 else total) in *.
  pose proof (filled_length_bounds iteration total' length Hi' Ht Hl) as Hb.
  exists (Z.to_nat ((length * iteration) `div` total')). split_and!.
  - lia.
  - lia.
  - unfold print_progress_bar, str_mul. simpl. fold total'. do 2 f_equal. lia.
  - by apply print_progress_bar_length.
  - by apply print_progress_bar_newline.
  - intros Hpos. rw -Heq -(filled_length_full iteration total' length Hi' Ht Hpos). lia.
Qed.

Lemma progress_bar_shape_witness :
  ∃ filled : nat,
    (filled ≤ Z.to_nat 10)%nat ∧
    Z.of_nat filled = (10 * 1) `div` (if decide (3 = 0) then 1 else 3) ∧
    (print_progress_bar 1 3 10 "#").1 =
      str_repeat "#" filled +:+ str_repeat "-" (Z.to_nat 10 - filled) ∧
    (String.length "#" = 1%nat →
     String.length (print_progress_bar 1 3 10 "#").1 = Z.to_nat 10) ∧
    ((print_progress_bar 1 3 10 "#").2 = true ↔ 1 = 3 ∧ 3 ≠ 0) ∧
    (0 < 10 → (filled = Z.to_nat 10 ↔ 1 = 3 ∧ 3 ≠ 0)).
Proof. apply (progress_bar_shape 1 3 10 "#"); lia. Defined.

(** * Pairs, tables and the sorts *)

Section list_more.

Lemma length_combinations2 {A} (l : list A) :
  (2 * length (combinations2 l) = length l * (length l - 1))%nat.
Proof.
  induction l as [| x l IH]; [done |].
  simpl. rw length_app length_fmap. nia.
Qed.

Lemma make_path_to_id_last l p i :
  make_path_to_id l !! p = Some i → ∀ j, l !! j = Some p → (j ≤ i)%nat.
Proof.
  induction l as [| q l IH] using rev_ind; [done |].
  rw make_path_to_id_snoc. intros Hi j Hj.
  destruct (decide (q = p)) as [-> | Hne].
  - rw lookup_insert_eq in Hi. injection Hi as <-.
    apply lookup_lt_Some in Hj. rw length_app /= in Hj. lia.
  - rw lookup_insert_ne // in Hi.
    apply lookup_app_Some in Hj as [Hj | [_ Hj]].
    + by eapply IH.
    + apply list_lookup_singleton_Some in Hj as [_ ?]. done.
Qed.

Lemma make_path_to_id_is_Some l p : p ∈ l → is_Some (make_path_to_id l !! p).
Proof.
  induction l as [| q l IH] using rev_ind; [by intros ?%elem_of_nil |].
  rw make_path_to_id_snoc. intros Hin.
  destruct (decide (q = p)) as [-> | Hne].
  - rw lookup_insert_eq. eauto.
  - rw lookup_insert_ne //. apply IH.
    apply elem_of_app in Hin as [| Hin%list_elem_of_singleton]; done.
Qed.

(** Inserting an entry puts it in front of the entries of its own score
    and does not touch the order of the others. *)
Lemma filter_insert_score (s : Z) (x : Z * nat * nat) (l : list (Z * nat * nat)) :
  filter (fun ed => ed.1.1 = s) (insert_score x l) =
  filter (fun ed => ed.1.1 = s) (x :: l).
Proof.
  induction l as [| y l IH]; [done |].
  simpl. case_decide as Hle; [done |].
  rw filter_cons IH !filter_cons.
  repeat case_decide; try done. lia.
Qed.

Lemma filter_sort_scores (s : Z) (l : list (Z * nat * nat)) :
  filter (fun ed => ed.1.1 = s) (sort_scores l) = filter (fun ed => ed.1.1 = s) l.
Proof.
  induction l as [| x l IH]; [done |].
  unfold sort_scores in *. simpl. rw filter_insert_score !filter_cons IH. done.
Qed.

Lemma insert_id_Permutation x l : insert_id x l ≡ₚ x :: l.
Proof.
  induction l as [| y l IH]; [done |].
  simpl. case_decide; [done |]. rw IH. apply Permutation_swap.
Qed.

Lemma sorted_ids_Permutation l : sorted_ids l ≡ₚ l.
Proof.
  induction l as [| x l IH]; [done |].
  unfold sorted_ids in *. simpl. by rw insert_id_Permutation IH.
Qed.

Lemma insert_id_sorted x l :
  StronglySorted le l → StronglySorted le (insert_id x l).
Proof.
  induction 1 as [| y l Hs IH Hall]; simpl.
  - repeat constructor.
  - case_decide as Hle.
    + constructor; [by constructor |].
      constructor; [done |]. eapply Forall_impl; [done |]. simpl. lia.
    + constructor; [done |].
      rw insert_id_Permutation. constructor; [lia | done].
Qed.

Lemma sorted_ids_sorted l : StronglySorted le (sorted_ids l).
Proof.
  induction l as [| x l IH]; [constructor |].
  unfold sorted_ids in *. simpl. by apply insert_id_sorted.
Qed.

Lemma sorted_NoDup_strict (l : list nat) :
  StronglySorted le l → NoDup l → StronglySorted lt l.
Proof.
  induction 1 as [| y l Hs IH Hall]; intros Hnd; [constructor |].
  apply NoDup_cons in Hnd as [Hy Hnd].
  constructor; [by apply IH |].
  apply Forall_forall. intros z Hz.
  rewrite -> Forall_forall in Hall. specialize (Hall z Hz).
  assert (z ≠ y) by congruence. lia.
Qed.

End list_more.

(** X10: Phase 1 submits one pair for every two positions [i < j] of the
    frame list, first component the earlier frame, [n * (n - 1) / 2] pairs
    in all, and no pair twice when no path occurs twice. *)
Theorem all_pairs_once {A : Type} (l : list A) :
  (2 * length (combinations2 l) = length l * (length l - 1))%nat ∧
  (∀ a b, (a, b) ∈ combinations2 l ↔
          ∃ i j, (i < j)%nat ∧ l !! i = Some a ∧ l !! j = Some b) ∧
  (NoDup l → NoDup (combinations2 l)).
Proof.
  split_and!.
  - apply length_combinations2.
  - apply elem_of_combinations2.
  - apply NoDup_combinations2.
Qed.

(** X11: [id_to_path] sends every position to the path at that position,
    and [path_to_id] sends every path of the list to a position that holds
    it, the last one if the path occurs more than once; so for a list
    without repeated paths the two tables are inverse to each other. *)
Theorem path_tables_inverse (image_paths_rel : list string) :
  (∀ i, make_id_to_path image_paths_rel !! i = image_paths_rel !! i) ∧
  (∀ p, p ∈ image_paths_rel → is_Some (make_path_to_id image_paths_rel !! p)) ∧
  (∀ p i, make_path_to_id image_paths_rel !! p = Some i →
          make_id_to_path image_paths_rel !! i = Some p ∧
          ∀ j, image_paths_rel !! j = Some p → (j ≤ i)%nat) ∧
  (NoDup image_paths_rel →
   ∀ p i, make_id_to_path image_paths_rel !! i = Some p ↔
          make_path_to_id image_paths_rel !! p = Some i).
Proof.
  split_and!.
  - apply make_id_to_path_lookup.
  - apply make_path_to_id_is_Some.
  - intros p i Hi. split.
    + rw make_id_to_path_lookup. by apply make_path_to_id_sound.
    + by apply make_path_to_id_last.
  - intros Hnd p i. rw make_id_to_path_lookup. split.
    + by apply make_path_to_id_lookup.
    + apply make_path_to_id_sound.
Qed.

(** X12: sorting the score list rearranges it into descending order of score
    and is stable: the entries of any one score stay in the order in which
    they were collected. *)
Theorem score_sort_stable (l : list (Z * nat * nat)) :
  sort_scores l ≡ₚ l ∧
  descending (sort_scores l) ∧
  ∀ s, filter (fun ed => ed.1.1 = s) (sort_scores l) =
       filter (fun ed => ed.1.1 = s) l.
Proof.
  split_and!.
  - apply sort_scores_Permutation.
  - apply sort_scores_descending.
  - intros s. apply filter_sort_scores.
Qed.

(** * Further properties of the adjacency lists and of the dependency graph *)

Section adjacency_lists.
Context (ids : list nat) (Hids : NoDup ids).
Implicit Types (p : gmap nat nat) (adj : gmap nat (list nat))
               (F done : list (Z * nat * nat)) (ed : Z * nat * nat).

(** An edge is appended to the two lists only between frames that no
    recorded edge connects yet, so no list gets an entry twice. *)
Lemma kruskal_step_nodup depth done p adj F ed p' adj' :
  kruskal_inv ids done p adj F →
  (∀ x, NoDup (neighbors adj x)) →
  kruskal_step depth (p, adj) ed = Ok (p', adj') →
  ∀ x, NoDup (neighbors adj' x).
Proof.
  intros Hk Hnd Hstep. destruct ed as [[s u] v]. simpl in *.
  destruct (DSU.union depth p u v) as [[p1 b] | |] eqn:Hun; [| done | done].
  destruct (union_inv _ _ _ _ _ _ (ki_forest _ _ _ _ _ Hk) Hun)
    as (rx & ry & Hrx & Hry & Hb & _).
  simpl in Hstep. injection Hstep as <- <-.
  destruct b; [| done].
  assert (rx ≠ ry) as Hne by by apply Hb.
  assert (¬ connected F u v) as Hnc.
  { intros [-> | (r & H1 & H2)]%(ki_sets _ _ _ _ _ Hk); apply Hne.
    - by eapply repr_det.
    - by rw (repr_det _ _ _ _ Hrx H1) (repr_det _ _ _ _ Hry H2). }
  assert (u ≠ v) as Huv by (intros ->; apply Hnc, connected_refl).
  assert (v ∉ neighbors adj u) as Hvu.
  { intros [s' [Hs' | Hs']]%(ki_adj _ _ _ _ _ Hk); apply Hnc;
      (eapply connected_edge; [done |]); [by left | by right]. }
  assert (u ∉ neighbors adj v) as Huv'.
  { intros [s' [Hs' | Hs']]%(ki_adj _ _ _ _ _ Hk); apply Hnc;
      (eapply connected_edge; [done |]); [by right | by left]. }
  intros x. rw !neighbors_append.
  destruct (decide (x = v)) as [-> | Hxv].
  - rw decide_False //. apply NoDup_app. split_and!; [done | | apply NoDup_singleton].
    by intros y Hy ->%list_elem_of_singleton.
  - destruct (decide (x = u)) as [-> | Hxu]; [| done].
    apply NoDup_app. split_and!; [done | | apply NoDup_singleton].
    by intros y Hy ->%list_elem_of_singleton.
Qed.

Lemma kruskal_loop_nodup depth todo : ∀ done p adj F p' adj',
  kruskal_inv ids done p adj F →
  descending (done ++ todo) →
  (∀ x, NoDup (neighbors adj x)) →
  ofoldl (kruskal_step depth) (p, adj) todo = Ok (p', adj') →
  ∀ x, NoDup (neighbors adj' x).
Proof using Hids.
  induction todo as [| ed todo IH]; intros done p adj F p' adj' Hinv Hdesc Hnd Hloop.
  - simpl in Hloop. injection Hloop as <- <-. exact Hnd.
  - rw ofoldl_cons in Hloop.
    destruct (kruskal_step depth (p, adj) ed) as [[p1 adj1] | |] eqn:Hstep;
      [| done | done].
    simpl in Hloop.
    destruct (kruskal_step_inv ids Hids depth done p adj F ed p1 adj1 Hinv)
      as [F1 Hinv1]; [| done |].
    { intros ed' Hed'. eapply descending_app; [done | done | apply list_elem_of_here]. }
    rw (cons_middle ed done todo) (assoc app) in Hdesc.
    apply (IH (done ++ [ed]) p1 adj1 F1 p' adj' Hinv1); [done | | done].
    apply (kruskal_step_nodup depth done p adj F ed p1 adj1 Hinv Hnd Hstep).
Qed.

(** Walking along adjacency lists is walking along recorded edges. *)
Lemma reach_connected done p adj F a b :
  kruskal_inv ids done p adj F → reach adj a b ↔ connected F a b.
Proof.
  intros Hk. split.
  - induction 1 as [| x y z Hxy _ IH]; [apply connected_refl |].
    eapply connected_trans; [| done].
    apply (ki_adj _ _ _ _ _ Hk) in Hxy as [s [Hs | Hs]];
      (eapply connected_edge; [done |]); [by left | by right].
  - intros [es Hw]. induction Hw as [| u v w ed es Hin Hj _ IH]; [apply rtc_refl |].
    eapply rtc_l; [| done]. apply (ki_adj _ _ _ _ _ Hk).
    destruct ed as [[s a] b]. exists s.
    destruct Hj as [[<- <-] | [<- <-]]; [by left | by right].
Qed.

Lemma no_self_neighbor done p adj F x :
  kruskal_inv ids done p adj F → x ∉ neighbors adj x.
Proof.
  intros Hk [s Hs]%(ki_adj _ _ _ _ _ Hk).
  assert ((s, x, x) ∈ F) as Hin by tauto.
  assert ([(s, x, x)] = []) as Heq; [| done].
  apply (ki_acyclic _ _ _ _ _ Hk x).
  - econstructor; [done | by left | constructor].
  - apply NoDup_singleton.
Qed.

End adjacency_lists.

Section graph_counts.
Context (e : env) (id_to_path : gmap nat string) (adj : gmap nat (list nat)).
Context (ids roots vis : list nat) (deps : gmap nat nat).
Context (Hinv : assign_inv e id_to_path adj ids roots [] vis deps).
Context (Hids : NoDup ids) (Hall : ∀ x, x ∈ ids → x ∈ vis).

Lemma deps_child_visited c p : deps !! c = Some p → c ∈ vis ∧ p ∈ vis.
Proof.
  intros [(i & j & Hi & Hj & _) _]%(ai_deps _ _ _ _ _ _ _ _ Hinv).
  split; by eapply list_elem_of_lookup_2.
Qed.

(** Every frame is counted once: as a root or as a key of the
    dependencies. *)
Lemma roots_deps_count : (length roots + size deps = length ids)%nat.
Proof using Hinv Hids Hall.
  assert (vis ≡ₚ ids) as Hperm.
  { apply NoDup_Permutation; [apply (ai_nodup _ _ _ _ _ _ _ _ Hinv) | done |].
    intros x. split; [apply (ai_ids _ _ _ _ _ _ _ _ Hinv) | apply Hall]. }
  rw -Hperm.
  rw -(size_list_to_set (C := gset nat) vis);
    [| apply (ai_nodup _ _ _ _ _ _ _ _ Hinv)].
  rw -(size_list_to_set (C := gset nat) roots);
    [| apply (ai_roots_nodup _ _ _ _ _ _ _ _ Hinv)].
  rw -(size_dom (D := gset nat) deps) -size_union.
  - f_equal. apply set_eq. intros x.
    rw elem_of_union !elem_of_list_to_set elem_of_dom. split.
    + intros [Hr | [p Hp]].
      * by apply (ai_roots _ _ _ _ _ _ _ _ Hinv).
      * by apply deps_child_visited in Hp as [? _].
    + apply (ai_cover _ _ _ _ _ _ _ _ Hinv).
  - intros x Hr%elem_of_list_to_set [p Hp]%elem_of_dom.
    apply (ai_roots _ _ _ _ _ _ _ _ Hinv) in Hr as [Hnone _]. congruence.
Qed.

(** Following the parent entries from a frame ends at a root that the
    adjacency lists connect to the frame. *)
Lemma chain_to_root x l r :
  chain_to deps x l r → x ∈ vis → r ∈ roots ∧ reach adj r x.
Proof using Hinv.
  clear Hids Hall.
  induction 1 as [r Hr | c p l r Hp _ IH]; intros Hx.
  - split; [| apply rtc_refl].
    destruct (ai_cover _ _ _ _ _ _ _ _ Hinv r Hx) as [| [? ?]]; [done | congruence].
  - destruct (deps_child_visited c p Hp) as [_ Hpv].
    destruct (IH Hpv) as [Hroot Hreach]. split; [done |].
    eapply rtc_r; [done |]. by apply (ai_deps _ _ _ _ _ _ _ _ Hinv).
Qed.

End graph_counts.

Section plan_more.
Context (e : env) (image_paths_rel : list string) (completed : list (string * string)).
Let ids := frame_ids image_paths_rel.
Let all_scores :=
  sort_scores (collect_scores e (make_path_to_id image_paths_rel) completed).

Lemma plan_adjacency_nodup depth p adj x :
  spanning_forest depth ids all_scores = Ok (p, adj) → NoDup (neighbors adj x).
Proof.
  intros Hsf. revert x.
  apply (kruskal_loop_nodup ids (frame_ids_NoDup image_paths_rel) depth all_scores
           [] (DSU.init ids) ∅ [] p adj).
  - apply kruskal_inv_init.
  - apply sort_scores_descending.
  - intros x. unfold neighbors. rw lookup_empty /=. constructor.
  - done.
Qed.


End plan_more.

(** X13: in every plan each adjacency list is free of repetitions and never
    contains its own frame, adjacency is symmetric, and only frames of the
    run occur. There is a plan whenever there are no more frames than nested
    calls of [find] allowed. *)
Theorem adjacency_lists_simple (e : env) (image_paths_rel : list string)
    (completed : list (string * string)) :
  ((length image_paths_rel ≤ find_depth e)%nat →
   ∃ pl, make_plan e image_paths_rel completed = Ok pl) ∧
  ∀ pl, make_plan e image_paths_rel completed = Ok pl →
    ∀ u, NoDup (neighbors (plan_adjacency pl) u) ∧
         (u ∉ neighbors (plan_adjacency pl) u) ∧
         ∀ v, v ∈ neighbors (plan_adjacency pl) u →
              u ∈ neighbors (plan_adjacency pl) v ∧
              (u < length image_paths_rel)%nat ∧ (v < length image_paths_rel)%nat.
Proof.
  split; [apply make_plan_returns |]. intros pl Hplan.
  destruct (make_plan_inv e image_paths_rel completed pl Hplan)
    as (p & F & Hscores & Hsf & Hk & _).
  intros u. split_and!.
  - by eapply plan_adjacency_nodup.
  - by eapply no_self_neighbor.
  - intros v Hv. split.
    + by eapply kruskal_adjacent_sym.
    + rw -!elem_of_frame_ids. by eapply kruskal_adjacent_ids.
Qed.

(** The adjacency lists of the three ranked frames. *)
Lemma adjacency_lists_simple_witness :
  ∃ pl, make_plan ranked_env three_paths (combinations2 three_paths) = Ok pl ∧
    neighbors (plan_adjacency pl) 0 = [2; 1]%nat ∧
    neighbors (plan_adjacency pl) 1 = [0]%nat ∧
    neighbors (plan_adjacency pl) 2 = [0]%nat ∧
    ∀ u, NoDup (neighbors (plan_adjacency pl) u) ∧
         (u ∉ neighbors (plan_adjacency pl) u) ∧
         ∀ v, v ∈ neighbors (plan_adjacency pl) u →
              u ∈ neighbors (plan_adjacency pl) v ∧
              (u < length three_paths)%nat ∧ (v < length three_paths)%nat.
Proof.
  destruct (adjacency_lists_simple ranked_env three_paths (combinations2 three_paths))
    as [_ Hprops].
  eexists. split; [vm_compute; reflexivity |].
  split; [reflexivity |]. split; [reflexivity |]. split; [reflexivity |].
  apply Hprops. vm_compute. reflexivity.
Defined.

(** X14: in every plan each frame is either a root or a key of the
    dependencies, never both, so the total shown by the Phase 2 progress
    bar, [len(dependencies_by_id) + len(root_image_ids)], is the number of
    frames. There is a plan whenever there are no more frames than nested
    calls of [find] allowed. *)
Theorem total_to_process_is_frame_count (e : env) (image_paths_rel : list string)
    (completed : list (string * string)) :
  ((length image_paths_rel ≤ find_depth e)%nat →
   ∃ pl, make_plan e image_paths_rel completed = Ok pl) ∧
  ∀ pl, make_plan e image_paths_rel completed = Ok pl →
    (size (dependencies_by_id (plan_graph pl)) + length (root_image_ids (plan_graph pl))
     = length image_paths_rel)%nat ∧
    ∀ i, (i < length image_paths_rel)%nat →
         (i ∈ root_image_ids (plan_graph pl) ∧
          dependencies_by_id (plan_graph pl) !! i = None) ∨
         ((i ∉ root_image_ids (plan_graph pl)) ∧
          is_Some (dependencies_by_id (plan_graph pl) !! i)).
Proof.
  split; [apply make_plan_returns |]. intros pl Hplan.
  destruct (make_plan_inv e image_paths_rel completed pl Hplan)
    as (p & F & _ & _ & _ & Hinv & Hall).
  split.
  - pose proof (roots_deps_count _ _ _ _ _ _ _ Hinv (frame_ids_NoDup image_paths_rel) Hall)
      as Hcount.
    rw frame_ids_seq length_seq in Hcount. lia.
  - intros i Hi%elem_of_frame_ids.
    destruct (root_xor_parent _ _ _ _ _ _ _ Hinv i (Hall i Hi)) as [[? ?] | [? [q Hq]]];
      [by left | right]. split; [done | by rw Hq].
Qed.

Lemma total_to_process_is_frame_count_witness :
  ∃ pl, make_plan ranked_env three_paths (combinations2 three_paths) = Ok pl ∧
    size (dependencies_by_id (plan_graph pl)) = 2%nat ∧
    length (root_image_ids (plan_graph pl)) = 1%nat ∧
    (size (dependencies_by_id (plan_graph pl)) + length (root_image_ids (plan_graph pl))
     = length three_paths)%nat.
Proof.
  destruct (total_to_process_is_frame_count ranked_env three_paths
              (combinations2 three_paths)) as [_ Hprops].
  eexists. split; [vm_compute; reflexivity |].
  split; [vm_compute; reflexivity |]. split; [reflexivity |].
  apply Hprops. vm_compute. reflexivity.
Defined.

(** X15: the manifest of a plan lists the roots in strictly ascending order
    of frame id, each once; a frame is listed there exactly when it has no
    entry in the manifest's dependencies; and the image map sends every
    frame id to its path. There is a plan whenever there are no more frames
    than nested calls of [find] allowed. *)
Theorem manifest_roots_ascending (e : env) (image_paths_rel : list string)
    (completed : list (string * string)) :
  ((length image_paths_rel ≤ find_depth e)%nat →
   ∃ pl, make_plan e image_paths_rel completed = Ok pl) ∧
  ∀ pl, make_plan e image_paths_rel completed = Ok pl →
    let m := make_manifest image_paths_rel (plan_graph pl) in
    StronglySorted lt (root_images m) ∧
    root_images m ≡ₚ root_image_ids (plan_graph pl) ∧
    (∀ i, (i < length image_paths_rel)%nat →
          i ∈ root_images m ↔ dependencies m !! i = None) ∧
    (∀ i, image_map m !! i = image_paths_rel !! i).
Proof.
  split; [apply make_plan_returns |]. intros pl Hplan.
  destruct (make_plan_inv e image_paths_rel completed pl Hplan)
    as (p & F & _ & _ & _ & Hinv & Hall).
  simpl. split_and!.
  - apply sorted_NoDup_strict; [apply sorted_ids_sorted |].
    rw sorted_ids_Permutation. apply (ai_roots_nodup _ _ _ _ _ _ _ _ Hinv).
  - apply sorted_ids_Permutation.
  - intros i Hi%elem_of_frame_ids. rw sorted_ids_Permutation.
    destruct (root_xor_parent _ _ _ _ _ _ _ Hinv i (Hall i Hi)) as [[? ?] | [? [q Hq]]].
    + done.
    + rw Hq. split; [done | discriminate].
  - apply make_id_to_path_lookup.
Qed.

(** With an undecodable file between two frames of which the later is the
    smaller, the roots are found in the order 2, 1 and listed in the order
    1, 2. *)
Lemma manifest_roots_ascending_witness :
  ∃ pl, make_plan ranked_env paths_unreadable_between
          (combinations2 paths_unreadable_between) = Ok pl ∧
    root_image_ids (plan_graph pl) = [2; 1]%nat ∧
    root_images (make_manifest paths_unreadable_between (plan_graph pl)) = [1; 2]%nat ∧
    let m := make_manifest paths_unreadable_between (plan_graph pl) in
    StronglySorted lt (root_images m) ∧
    root_images m ≡ₚ root_image_ids (plan_graph pl) ∧
    (∀ i, (i < length paths_unreadable_between)%nat →
          i ∈ root_images m ↔ dependencies m !! i = None) ∧
    (∀ i, image_map m !! i = paths_unreadable_between !! i).
Proof.
  destruct (manifest_roots_ascending ranked_env paths_unreadable_between
              (combinations2 paths_unreadable_between)) as [_ Hprops].
  eexists. split; [vm_compute; reflexivity |].
  split; [reflexivity |]. split; [reflexivity |].
  apply Hprops. vm_compute. reflexivity.
Defined.

(** X16: in every plan each frame climbs along the dependencies to a root,
    and two frames climb to the same root exactly when they are linked: when
    a chain of pairs of frames whose score is not the sentinel leads from one
    to the other. There is a plan whenever there are no more frames than
    nested calls of [find] allowed. *)
Theorem same_root_iff_connected (e : env) (image_paths_rel : list string)
    (completed : list (string * string)) :
  NoDup image_paths_rel →
  completed ≡ₚ combinations2 image_paths_rel →
  ((length image_paths_rel ≤ find_depth e)%nat →
   ∃ pl, make_plan e image_paths_rel completed = Ok pl) ∧
  ∀ pl, make_plan e image_paths_rel completed = Ok pl →
    (∀ x, (x < length image_paths_rel)%nat →
       ∃ l r, chain_to (dependencies_by_id (plan_graph pl)) x l r ∧
              r ∈ root_image_ids (plan_graph pl)) ∧
    ∀ x y lx ly rx ry,
      (x < length image_paths_rel)%nat → (y < length image_paths_rel)%nat →
      chain_to (dependencies_by_id (plan_graph pl)) x lx rx →
      chain_to (dependencies_by_id (plan_graph pl)) y ly ry →
      rx = ry ↔ linked e image_paths_rel x y.
Proof.
  intros Hpaths Hcompleted.
  split; [apply make_plan_returns |]. intros pl Hplan.
  destruct (make_plan_inv e image_paths_rel completed pl Hplan)
    as (p & F & Hscores & _ & Hk & Hinv & Hall).
  split.
  { intros x Hx%elem_of_frame_ids.
    destruct (chain_exists _ _ _ _ _ _ _ Hinv x (Hall x Hx)) as (l & r & ? & ? & _).
    eauto. }
  intros x y lx ly rx ry Hx%elem_of_frame_ids Hy%elem_of_frame_ids Hcx Hcy.
  pose proof (frame_ids_NoDup image_paths_rel) as Hnd.
  destruct (chain_to_root _ _ _ _ _ _ _ Hinv x lx rx Hcx (Hall x Hx)) as [Hrx Hreachx].
  destruct (chain_to_root _ _ _ _ _ _ _ Hinv y ly ry Hcy (Hall y Hy)) as [Hry Hreachy].
  assert (∀ a b, reach (plan_adjacency pl) a b ↔ linked e image_paths_rel a b) as Hrc.
  { intros a b. rw (reach_connected _ _ _ _ _ a b Hk).
    rw -(connected_linked e image_paths_rel completed Hpaths Hcompleted). split.
    - apply connected_mono. apply (ki_sub _ _ _ _ _ Hk).
    - apply connected_span. apply (ki_span _ _ _ _ _ Hk). }
  assert (∀ a b, reach (plan_adjacency pl) a b → reach (plan_adjacency pl) b a) as Hsym.
  { intros a b Hab. apply (reach_connected _ _ _ _ _ b a Hk), connected_sym.
    by apply (reach_connected _ _ _ _ _ a b Hk). }
  rw -Hrc. split.
  - intros <-. etrans; [| done]. by apply Hsym.
  - intros Hxy. apply (ai_apart _ _ _ _ _ _ _ _ Hinv); [done | done |].
    etrans; [done |]. etrans; [done |]. by apply Hsym.
Qed.

(** With the third file undecodable, frames 0 and 1 climb to the root 1 and
    are linked; the third frame is its own root and linked to neither. *)
Lemma same_root_iff_connected_witness :
  ∃ pl, make_plan ranked_env paths_with_unreadable
          (combinations2 paths_with_unreadable) = Ok pl ∧
    chain_to (dependencies_by_id (plan_graph pl)) 0 [0; 1]%nat 1 ∧
    chain_to (dependencies_by_id (plan_graph pl)) 1 [1%nat] 1 ∧
    chain_to (dependencies_by_id (plan_graph pl)) 2 [2%nat] 2 ∧
    linked ranked_env paths_with_unreadable 0 1 ∧
    ¬ linked ranked_env paths_with_unreadable 0 2.
Proof.
  destruct (same_root_iff_connected ranked_env paths_with_unreadable
              (combinations2 paths_with_unreadable)) as [_ Hprops].
  - apply (bool_decide_unpack _). vm_compute. exact I.
  - reflexivity.
  - eexists. split; [vm_compute; reflexivity |].
    match goal with |- chain_to ?d _ _ _ ∧ _ =>
      assert (chain_to d 1 [1%nat] 1) as H1 by (apply chain_root; reflexivity);
      assert (chain_to d 0 [0; 1]%nat 1) as H0
        by (apply (chain_step _ 0%nat 1%nat); [reflexivity | exact H1]);
      assert (chain_to d 2 [2%nat] 2) as H2 by (apply chain_root; reflexivity)
    end.
    split; [exact H0 |]. split; [exact H1 |]. split; [exact H2 |].
    match type of H0 with chain_to (dependencies_by_id (plan_graph ?pl)) _ _ _ =>
      destruct (Hprops pl) as [_ Hiff]; [vm_compute; reflexivity |]
    end.
    split.
    + apply (Hiff 0%nat 1%nat _ _ _ _ ltac:(simpl; lia) ltac:(simpl; lia) H0 H1).
      reflexivity.
    + intros Hl.
      apply (Hiff 0%nat 2%nat _ _ _ _ ltac:(simpl; lia) ltac:(simpl; lia) H0 H2) in Hl.
      discriminate Hl.
Defined.



(** * Phase 2: what is counted and what is archived *)

Section counting.
Context (e : env) (image_paths_rel : list string).
Let id_to_path := make_id_to_path image_paths_rel.
Implicit Types (tree : gmap string file) (tasks : list (nat * nat)).






End counting.












(** * Which pairs are linked, and which links become dependencies *)

Section links.
Context (ids : list nat) (Hids : NoDup ids).
Implicit Types (p : gmap nat nat) (adj : gmap nat (list nat))
               (F done todo : list (Z * nat * nat)) (ed : Z * nat * nat).

(** The loop only ever appends to the adjacency lists. *)
Lemma neighbors_step_mono depth p adj ed p' adj' x y :
  kruskal_step depth (p, adj) ed = Ok (p', adj') →
  y ∈ neighbors adj x → y ∈ neighbors adj' x.
Proof.
  destruct ed as [[s u] v]. unfold kruskal_step.
  destruct (DSU.union depth p u v) as [[p1 b] | |]; [| done | done]. simpl.
  intros [= <- <-] Hy. destruct b; [| done].
  apply elem_of_neighbors_link. by left.
Qed.

Lemma neighbors_loop_mono depth todo : ∀ p adj p' adj' x y,
  ofoldl (kruskal_step depth) (p, adj) todo = Ok (p', adj') →
  y ∈ neighbors adj x → y ∈ neighbors adj' x.
Proof.
  induction todo as [| ed todo IH]; intros p adj p' adj' x y Hloop Hy.
  - by injection Hloop as <- <-.
  - rw ofoldl_cons in Hloop.
    destruct (kruskal_step depth (p, adj) ed) as [[p1 adj1] | |] eqn:Hstep;
      [| done | done].
    simpl in Hloop. eapply IH; [done |]. by eapply neighbors_step_mono.
Qed.

Lemma descending_prefix l1 l2 : descending (l1 ++ l2) → descending l1.
Proof.
  induction l1 as [| x l1 IH]; [done |]. simpl. intros [Hx Hd]. split; [| by apply IH].
  intros y Hy. apply Hx, elem_of_app. by left.
Qed.

(** A walk between two different frames starts with an edge at the first
    of them. *)
Lemma walk_first_edge F u es w :
  walk F u es w → u ≠ w → ∃ ed x, ed ∈ F ∧ joins ed u x.
Proof. intros Hw Hne. destruct Hw as [| u v w ed es Hin Hj _]; [done | eauto]. Qed.

(** A pair that scores strictly more than every other pair at one of its
    frames is linked when its turn comes: nothing accepted before it
    touches that frame. *)
Lemma best_match_linked depth all_scores p adj s u v w :
  descending all_scores →
  spanning_forest depth ids all_scores = Ok (p, adj) →
  (s, u, v) ∈ all_scores → u ≠ v → w = u ∨ w = v →
  (∀ ed' x, ed' ∈ all_scores → ed' ≠ (s, u, v) → joins ed' w x → ed'.1.1 < s) →
  v ∈ neighbors adj u ∧ u ∈ neighbors adj v.
Proof using Hids.
  intros Hdesc Hsf Hin Huv Hw Hbest.
  destruct (list_elem_of_split_l _ _ Hin) as (done & todo & Heq & Hfirst).
  unfold spanning_forest in Hsf. rw Heq ofoldl_app in Hsf.
  destruct (ofoldl (kruskal_step depth) (DSU.init ids, ∅) done)
    as [[p1 adj1] | |] eqn:Hloop1; [| done | done].
  unfold obind at 1 in Hsf. rw ofoldl_cons in Hsf.
  destruct (kruskal_loop_inv ids Hids depth done [] (DSU.init ids) ∅ [] p1 adj1)
    as [F1 Hk1]; [by apply kruskal_inv_init | | done |].
  { simpl. apply (descending_prefix done ((s, u, v) :: todo)). by rw -Heq. }
  simpl in Hk1.
  unfold kruskal_step at 1 in Hsf.
  destruct (DSU.union depth p1 u v) as [[p2 b] | |] eqn:Hun; [| done | done].
  destruct (union_inv _ _ _ _ _ _ (ki_forest _ _ _ _ _ Hk1) Hun)
    as (rx & ry & Hrx & Hry & Hb & _).
  assert (b = true) as ->.
  { apply Hb. intros <-.
    assert (connected F1 u v) as [es Hwalk].
    { apply (ki_sets _ _ _ _ _ Hk1). right. by exists rx. }
    assert (∃ ed' x, ed' ∈ F1 ∧ joins ed' w x) as (ed' & x & Hed' & Hj).
    { destruct Hw as [-> | ->].
      - by eapply walk_first_edge.
      - eapply walk_first_edge; [by apply walk_reverse | done]. }
    apply (ki_sub _ _ _ _ _ Hk1) in Hed'.
    assert (ed'.1.1 < s) as Hlt.
    { apply (Hbest ed' x); [rw Heq; apply elem_of_app; by left | | done].
      intros ->. by apply Hfirst. }
    rw Heq in Hdesc.
    pose proof (descending_app done ((s, u, v) :: todo) ed' (s, u, v) Hdesc Hed'
                  (list_elem_of_here _ _)) as Hle.
    simpl in Hle. lia. }
  unfold obind at 2 in Hsf. unfold obind at 1 in Hsf.
  split; eapply neighbors_loop_mono; try done; apply elem_of_neighbors_link; tauto.
Qed.

End links.

Section counting_relations.
Context {A B : Type} (R : A → B → Prop).

(** A relation that sends the members of a duplicate-free list to
    members of another list, different members to different members,
    shows that the second list is at least as long; when it is no longer
    it is covered. *)
Lemma injective_rel_length (l1 : list A) : ∀ l2 : list B,
  NoDup l1 →
  (∀ a, a ∈ l1 → ∃ b, b ∈ l2 ∧ R a b) →
  (∀ a a' b, a ∈ l1 → a' ∈ l1 → R a b → R a' b → a = a') →
  (length l1 ≤ length l2)%nat.
Proof.
  induction l1 as [| a l1 IH]; intros l2 Hnd Htot Hinj; [simpl; lia |].
  apply NoDup_cons in Hnd as [Ha Hnd].
  destruct (Htot a (list_elem_of_here _ _)) as (b & Hb & Hab).
  apply list_elem_of_split in Hb as (k1 & k2 & ->).
  rw length_app /=.
  enough (length l1 ≤ length (k1 ++ k2))%nat by (rw length_app in H; lia).
  apply IH; [done | |].
  - intros a' Ha'. destruct (Htot a' (list_elem_of_further _ _ _ Ha')) as (b' & Hb' & Hab').
    exists b'. split; [| done].
    apply elem_of_app in Hb' as [? | [-> | ?]%elem_of_cons]; [set_solver | | set_solver].
    exfalso. apply Ha.
    by rw (Hinj a a' b (list_elem_of_here _ _) (list_elem_of_further _ _ _ Ha') Hab Hab').
  - intros a1 a2 b' H1 H2. apply Hinj; by apply list_elem_of_further.
Qed.

Lemma injective_rel_cover (l1 : list A) : ∀ l2 : list B,
  NoDup l1 → NoDup l2 →
  (∀ a, a ∈ l1 → ∃ b, b ∈ l2 ∧ R a b) →
  (∀ a a' b, a ∈ l1 → a' ∈ l1 → R a b → R a' b → a = a') →
  (length l2 ≤ length l1)%nat →
  ∀ b, b ∈ l2 → ∃ a, a ∈ l1 ∧ R a b.
Proof.
  induction l1 as [| a l1 IH]; intros l2 Hnd Hnd2 Htot Hinj Hlen b0 Hb0.
  - destruct l2; [by apply elem_of_nil in Hb0 | simpl in Hlen; lia].
  - apply NoDup_cons in Hnd as [Ha Hnd].
    destruct (Htot a (list_elem_of_here _ _)) as (b & Hb & Hab).
    apply list_elem_of_split in Hb as (k1 & k2 & ->).
    assert (NoDup (k1 ++ k2) ∧ b ∉ k1 ++ k2) as [Hnd2' Hbk].
    { apply NoDup_app in Hnd2 as (H1 & H2 & H3). apply NoDup_cons in H3 as [H3 H4].
      split.
      - apply NoDup_app. split_and!; [done | | done].
        intros x Hx1 Hx2. apply (H2 x Hx1). by apply list_elem_of_further.
      - intros [Hk | Hk]%elem_of_app; [| done].
        apply (H2 b Hk). apply list_elem_of_here. }
    assert (b0 = b ∨ b0 ∈ k1 ++ k2) as [-> | Hb0'].
    { apply elem_of_app in Hb0 as [? | [-> | ?]%elem_of_cons];
        [right | by left | right]; apply elem_of_app; auto. }
    + exists a. split; [apply list_elem_of_here | done].
    + destruct (IH (k1 ++ k2) Hnd Hnd2') with (b := b0) as (a' & Ha' & Hab'); [| | | done |].
      * intros a' Ha'.
        destruct (Htot a' (list_elem_of_further _ _ _ Ha')) as (b' & Hb' & Hab').
        exists b'. split; [| done].
        apply elem_of_app in Hb' as [? | [-> | ?]%elem_of_cons];
          [set_solver | | set_solver].
        exfalso. apply Ha.
        by rw (Hinj a a' b (list_elem_of_here _ _) (list_elem_of_further _ _ _ Ha')
                 Hab Hab').
      * intros a1 a2 b' H1 H2. apply Hinj; by apply list_elem_of_further.
      * rw length_app /= in Hlen. rw length_app. lia.
      * exists a'. split; [by apply list_elem_of_further | done].
Qed.

End counting_relations.

Section links_are_dependencies.
Context (e : env) (image_paths_rel : list string).
Context (done : list (Z * nat * nat)) (p : gmap nat nat) (adj : gmap nat (list nat)).
Context (F : list (Z * nat * nat)) (roots vis : list nat) (deps : gmap nat nat).
Let ids := frame_ids image_paths_rel.
Let id_to_path := make_id_to_path image_paths_rel.
Context (Hk : kruskal_inv ids done p adj F).
Context (Hinv : assign_inv e id_to_path adj ids roots [] vis deps).
Context (Hall : ∀ x, x ∈ ids → x ∈ vis).

Lemma ids_NoDup : NoDup ids.
Proof. unfold ids. rw frame_ids_seq. apply NoDup_seq. Qed.

Lemma adj_sym x y : adjacent adj x y → adjacent adj y x.
Proof using Hk.
  intros [s Hs]%(ki_adj _ _ _ _ _ Hk). apply (ki_adj _ _ _ _ _ Hk). exists s. tauto.
Qed.

Lemma reach_connected_F x y : reach adj x y ↔ connected F x y.
Proof using Hk. by eapply reach_connected. Qed.

(** There are as many roots as sets of the disjoint-set structure. *)
Lemma roots_count : length roots = length (filter (is_root p) ids).
Proof using Hk Hinv Hall.
  apply Nat.le_antisymm.
  - apply (injective_rel_length (connected F)).
    + apply (ai_roots_nodup _ _ _ _ _ _ _ _ Hinv).
    + intros r Hr.
      assert (r ∈ ids) as Hid.
      { apply (ai_ids _ _ _ _ _ _ _ _ Hinv), (ai_roots _ _ _ _ _ _ _ _ Hinv), Hr. }
      destruct (ki_forest _ _ _ _ _ Hk r) as [ρ Hρ]; [by apply (ki_dom _ _ _ _ _ Hk) |].
      assert (is_root p ρ) as Hroot by (destruct Hρ as [l Hl]; by eapply ptr_root_fixed).
      exists ρ. split.
      * apply list_elem_of_filter. split; [done |].
        apply (ki_dom _ _ _ _ _ Hk). rw Hroot. eauto.
      * apply (ki_sets _ _ _ _ _ Hk). right. exists ρ. split; [done | by apply repr_root].
    + intros r r' ρ Hr Hr' H1 H2.
      apply (ai_apart _ _ _ _ _ _ _ _ Hinv); [done | done |].
      apply reach_connected_F. eapply connected_trans; [done |]. by apply connected_sym.
  - apply (injective_rel_length (connected F)).
    + apply NoDup_filter, ids_NoDup.
    + intros ρ [_ Hid]%list_elem_of_filter.
      destruct (ai_rooted _ _ _ _ _ _ _ _ Hinv ρ (Hall ρ Hid)) as (r & Hr & Hreach).
      exists r. split; [done |]. by apply connected_sym, reach_connected_F.
    + intros ρ ρ' r [Hρ _]%list_elem_of_filter [Hρ' _]%list_elem_of_filter H1 H2.
      assert (connected F ρ ρ') as Hc.
      { eapply connected_trans; [done |]. by apply connected_sym. }
      apply (ki_sets _ _ _ _ _ Hk) in Hc as [-> | (r0 & Hr1 & Hr2)]; [done |].
      apply (repr_root_eq _ _ _ Hρ) in Hr1. apply (repr_root_eq _ _ _ Hρ') in Hr2.
      congruence.
Qed.

Lemma deps_count : size deps = length F.
Proof using Hk Hinv Hall.
  pose proof (roots_deps_count _ _ _ _ _ _ _ Hinv ids_NoDup Hall) as H1.
  pose proof (ki_count _ _ _ _ _ Hk) as H2.
  pose proof roots_count as H3. fold ids in H1. lia.
Qed.

(** Every recorded edge is the link between a frame and its parent. *)
Lemma edge_is_dependency ed :
  ed ∈ F → ∃ c q, deps !! c = Some q ∧ joins ed c q.
Proof using Hk Hinv Hall.
  intros Hed.
  destruct (injective_rel_cover (fun (t : nat * nat) ed => joins ed t.1 t.2)
              (map_to_list deps) F) with (b := ed) as ([c q] & Hin & Hj).
  - apply NoDup_map_to_list.
  - apply (ki_nodup _ _ _ _ _ Hk).
  - intros [c q] Hc%elem_of_map_to_list.
    destruct (ai_deps _ _ _ _ _ _ _ _ Hinv c q Hc) as [_ Hadj].
    apply (ki_adj _ _ _ _ _ Hk) in Hadj as [s [Hs | Hs]].
    + exists (s, q, c). split; [done |]. by right.
    + exists (s, c, q). split; [done |]. by left.
  - intros [c q] [c' q'] ed' Hc%elem_of_map_to_list Hc'%elem_of_map_to_list Hj Hj'.
    simpl in Hj, Hj'.
    destruct Hj as [[<- <-] | [<- <-]], Hj' as [[E1 E2] | [E1 E2]];
      try (f_equal; congruence); exfalso; subst;
      destruct (ai_deps _ _ _ _ _ _ _ _ Hinv _ _ Hc) as [Hb1 _];
      destruct (ai_deps _ _ _ _ _ _ _ _ Hinv _ _ Hc') as [Hb2 _];
      eapply (discovered_before_irrefl _ _ _ _ _ _ _ Hinv);
      eapply (discovered_before_trans _ _ _ _ _ _ _ Hinv); eauto.
  - by rw length_map_to_list deps_count.
  - done.
  - exists c, q. split; [by apply elem_of_map_to_list | done].
Qed.

Lemma link_is_dependency u v :
  adjacent adj u v ↔ deps !! u = Some v ∨ deps !! v = Some u.
Proof using Hk Hinv Hall.
  split.
  - intros [s Hs]%(ki_adj _ _ _ _ _ Hk).
    destruct Hs as [Hs | Hs];
      destruct (edge_is_dependency _ Hs) as (c & q & Hc & [[E1 E2] | [E1 E2]]);
      simpl in E1, E2; subst; auto.
  - intros [Hd | Hd].
    + apply adj_sym. by apply (ai_deps _ _ _ _ _ _ _ _ Hinv).
    + by apply (ai_deps _ _ _ _ _ _ _ _ Hinv).
Qed.

End links_are_dependencies.

(** X21: in every plan, a pair of frames with a score other than the
    sentinel that is strictly higher than the score of every other such pair
    at one of its two frames is linked in the adjacency lists: every frame
    is joined to its single best match. There is a plan whenever there are
    no more frames than nested calls of [find] allowed. *)
Theorem best_match_is_linked (e : env) (image_paths_rel : list string)
    (completed : list (string * string)) :
  NoDup image_paths_rel →
  completed ≡ₚ combinations2 image_paths_rel →
  ((length image_paths_rel ≤ find_depth e)%nat →
   ∃ pl, make_plan e image_paths_rel completed = Ok pl) ∧
  ∀ pl, make_plan e image_paths_rel completed = Ok pl →
    ∀ s u v w,
      valid_score e image_paths_rel (s, u, v) → w = u ∨ w = v →
      (∀ ed x, valid_score e image_paths_rel ed → ed ≠ (s, u, v) → joins ed w x →
               ed.1.1 < s) →
      v ∈ neighbors (plan_adjacency pl) u ∧ u ∈ neighbors (plan_adjacency pl) v.
Proof.
  intros Hpaths Hcompleted.
  split; [apply make_plan_returns |]. intros pl Hplan.
  destruct (make_plan_inv e image_paths_rel completed pl Hplan)
    as (p & F & Hscores & Hsf & Hk & _).
  intros s u v w Hvalid Hw Hbest.
  assert (u ≠ v) as Huv by (destruct Hvalid as [Hlt _]; simpl in Hlt; lia).
  apply (all_scores_valid e image_paths_rel completed Hpaths Hcompleted) in Hvalid.
  eapply (best_match_linked _ (frame_ids_NoDup image_paths_rel)); try done.
  - apply sort_scores_descending.
  - intros ed' x H1 H2 H3. apply (Hbest ed' x); [| done | done].
    by apply (all_scores_valid e image_paths_rel completed Hpaths Hcompleted).
Qed.

(** Of the three ranked frames, the pair (0, 2) scores 3, more than the two
    other pairs: frames 0 and 2 are neighbours. *)
Lemma best_match_is_linked_witness :
  ∃ pl, make_plan ranked_env three_paths (combinations2 three_paths) = Ok pl ∧
        plan_scores pl = [(3, 0%nat, 2%nat); (2, 0%nat, 1%nat); (1, 1%nat, 2%nat)] ∧
        valid_score ranked_env three_paths (3, 0%nat, 2%nat) ∧
        2%nat ∈ neighbors (plan_adjacency pl) 0 ∧ 0%nat ∈ neighbors (plan_adjacency pl) 2.
Proof.
  assert (valid_score ranked_env three_paths (3, 0%nat, 2%nat)) as Hvalid.
  { split; [simpl; lia |]. exists "0.png"%string, "2.png"%string.
    split_and!; [reflexivity | reflexivity | vm_compute; reflexivity | done]. }
  destruct (best_match_is_linked ranked_env three_paths (combinations2 three_paths))
    as [_ Hprops].
  - apply (bool_decide_unpack _). vm_compute. exact I.
  - reflexivity.
  - eexists. split; [vm_compute; reflexivity |].
    split; [reflexivity |]. split; [exact Hvalid |].
    eapply (Hprops _ ltac:(vm_compute; reflexivity) 3 0%nat 2%nat 0%nat);
      [exact Hvalid | by left |].
    intros [[s' u'] v'] x [Hlt (p1 & p2 & H1 & H2 & Hs & Hne)] Hneq Hj.
    unfold joins in Hj. simpl in *.
    destruct Hj as [[Hu' Hv'] | [Hu' Hv']]; subst u' v'; [| lia].
    destruct x as [| [| [| x]]]; [lia | | | discriminate H2].
    + injection H1 as <-. injection H2 as <-. rewrite -> Hs. vm_compute. reflexivity.
    + exfalso. apply Hneq. injection H1 as <-. injection H2 as <-.
      rewrite -> Hs. vm_compute. reflexivity.
Defined.

(** X22: in every plan, the first traversal started at a frame collects
    exactly the frames linked to it, those that a chain of pairs of frames
    whose score is not the sentinel leads to, each once and the start first,
    within as many steps as there are frames. There is a plan whenever there
    are no more frames than nested calls of [find] allowed. *)
Theorem first_traversal_lists_component (e : env) (image_paths_rel : list string)
    (completed : list (string * string)) :
  NoDup image_paths_rel →
  completed ≡ₚ combinations2 image_paths_rel →
  ((length image_paths_rel ≤ find_depth e)%nat →
   ∃ pl, make_plan e image_paths_rel completed = Ok pl) ∧
  ∀ pl, make_plan e image_paths_rel completed = Ok pl →
    ∀ image_id, (image_id < length image_paths_rel)%nat →
      ∃ comp,
        component_loop (size (make_id_to_path image_paths_rel)) (plan_adjacency pl)
          [image_id] {[image_id]} [] = Ok comp ∧
        head comp = Some image_id ∧ NoDup comp ∧
        ∀ y, y ∈ comp ↔ linked e image_paths_rel image_id y.
Proof.
  intros Hpaths Hcompleted.
  split; [apply make_plan_returns |]. intros pl Hplan.
  destruct (make_plan_inv e image_paths_rel completed pl Hplan)
    as (p & F & Hscores & _ & Hk & _).
  intros image_id Hid%elem_of_frame_ids.
  destruct (component_loop_spec (plan_adjacency pl) (frame_ids image_paths_rel))
    with (s := image_id) as (comp & Hloop & Hmem & Hnd & Hhead); [| done |].
  { intros x y. by apply (kruskal_adjacent_ids e image_paths_rel completed p _ F). }
  exists comp. split_and!; [| done | done |].
  - rw frame_ids_seq length_seq in Hloop. by rw make_id_to_path_size.
  - intros y. rw Hmem (reach_connected _ _ _ _ _ image_id y Hk).
    rw -(connected_linked e image_paths_rel completed Hpaths Hcompleted). split.
    + apply connected_mono. apply (ki_sub _ _ _ _ _ Hk).
    + apply connected_span. apply (ki_span _ _ _ _ _ Hk).
Qed.

(** With the third file undecodable, the traversal from frame 0 lists the
    frames 0 and 1 and the traversal from frame 2 lists frame 2 alone. *)
Lemma first_traversal_lists_component_witness :
  ∃ pl, make_plan ranked_env paths_with_unreadable
          (combinations2 paths_with_unreadable) = Ok pl ∧
    component_loop 3 (plan_adjacency pl) [0%nat] {[0%nat]} [] = Ok [0; 1]%nat ∧
    component_loop 3 (plan_adjacency pl) [2%nat] {[2%nat]} [] = Ok [2%nat] ∧
    linked ranked_env paths_with_unreadable 0 1 ∧
    ¬ linked ranked_env paths_with_unreadable 0 2.
Proof.
  destruct (first_traversal_lists_component ranked_env paths_with_unreadable
              (combinations2 paths_with_unreadable)) as [_ Hprops].
  - apply (bool_decide_unpack _). vm_compute. exact I.
  - reflexivity.
  - eexists. split; [vm_compute; reflexivity |].
    match goal with |- component_loop _ (plan_adjacency ?pl) _ _ _ = _ ∧ _ =>
      destruct (Hprops pl ltac:(vm_compute; reflexivity) 0%nat ltac:(simpl; lia))
        as (comp & Hcomp & _ & _ & Hmem)
    end.
    split; [vm_compute; reflexivity |]. split; [vm_compute; reflexivity |].
    assert (comp = [0; 1]%nat) as ->.
    { assert (Ok comp = Ok [0; 1]%nat :> outcome (list nat)) as Heq.
      { rewrite <- Hcomp. vm_compute. reflexivity. }
      injection Heq as ->. reflexivity. }
    split.
    + apply Hmem. apply (bool_decide_unpack _). vm_compute. exact I.
    + intros Hl. apply Hmem in Hl.
      apply (bool_decide_pack _) in Hl. vm_compute in Hl. exact Hl.
Defined.

(** X23: in every plan the dependencies are exactly the links of the
    adjacency lists, each taken in one direction: two frames are neighbours
    exactly when one of them is the parent of the other. There is a plan
    whenever there are no more frames than nested calls of [find]
    allowed. *)
Theorem links_are_dependencies (e : env) (image_paths_rel : list string)
    (completed : list (string * string)) :
  ((length image_paths_rel ≤ find_depth e)%nat →
   ∃ pl, make_plan e image_paths_rel completed = Ok pl) ∧
  ∀ pl, make_plan e image_paths_rel completed = Ok pl →
    ∀ u v, v ∈ neighbors (plan_adjacency pl) u ↔
           dependencies_by_id (plan_graph pl) !! u = Some v ∨
           dependencies_by_id (plan_graph pl) !! v = Some u.
Proof.
  split; [apply make_plan_returns |]. intros pl Hplan.
  destruct (make_plan_inv e image_paths_rel completed pl Hplan)
    as (p & F & _ & _ & Hk & Hinv & Hall).
  intros u v.
  apply (link_is_dependency e image_paths_rel _ p _ F _ _ _ Hk Hinv Hall).
Qed.

(** The links 0 - 2 and 0 - 1 of the three ranked frames are the
    dependencies of frame 0 on frame 2 and of frame 1 on frame 0. *)
Lemma links_are_dependencies_witness :
  ∃ pl, make_plan ranked_env three_paths (combinations2 three_paths) = Ok pl ∧
    neighbors (plan_adjacency pl) 0 = [2; 1]%nat ∧
    dependencies_by_id (plan_graph pl) !! 0%nat = Some 2%nat ∧
    dependencies_by_id (plan_graph pl) !! 1%nat = Some 0%nat ∧
    ∀ u v, v ∈ neighbors (plan_adjacency pl) u ↔
           dependencies_by_id (plan_graph pl) !! u = Some v ∨
           dependencies_by_id (plan_graph pl) !! v = Some u.
Proof.
  destruct (links_are_dependencies ranked_env three_paths (combinations2 three_paths))
    as [_ Hprops].
  eexists. split; [vm_compute; reflexivity |].
  split; [reflexivity |]. split; [reflexivity |]. split; [reflexivity |].
  apply Hprops. vm_compute. reflexivity.
Defined.

(** * The order in which frames get their ids *)

Section frame_order.
Context (stem_number : string → option Z).

(** The number of a file name, 0 where there is none. *)
Let key (f : string) : Z := default 0 (stem_number f).

Lemma stem_keys_Some found keyed :
  stem_keys stem_number found = Some keyed →
  keyed.*2 = found ∧ ∀ a, a ∈ keyed → stem_number a.2 = Some a.1.
Proof.
  revert keyed. induction found as [| f found IH]; intros keyed; simpl.
  - intros [= <-]. split; [done |]. by intros a ?%elem_of_nil.
  - destruct (stem_number f) as [k |] eqn:Hk; [| done]. simpl.
    destruct (stem_keys stem_number found) as [rest |]; [| done]. simpl.
    intros [= <-]. destruct (IH rest eq_refl) as [Hsnd Hall]. split.
    + by rw fmap_cons Hsnd.
    + intros a [-> | Hin]%elem_of_cons; [done | by apply Hall].
Qed.

Lemma stem_keys_None found :
  stem_keys stem_number found = None ↔ ∃ f, f ∈ found ∧ stem_number f = None.
Proof.
  induction found as [| f found IH]; simpl.
  - split; [done | by intros (f & ?%elem_of_nil & _)].
  - destruct (stem_number f) as [k |] eqn:Hk; simpl.
    + destruct (stem_keys stem_number found) as [rest |]; simpl.
      * split; [done |]. intros (f' & [-> | Hin]%elem_of_cons & Hf'); [congruence |].
        destruct IH as [_ IH]. discriminate IH. eauto.
      * split; [| done]. intros _. destruct IH as [IH _].
        destruct (IH eq_refl) as (f' & Hin & Hf'). exists f'. split; [| done].
        by apply list_elem_of_further.
    + split; [| done]. intros _. exists f. split; [apply list_elem_of_here | done].
Qed.

Lemma insert_keyed_Permutation x l : insert_keyed x l ≡ₚ x :: l.
Proof.
  induction l as [| y l IH]; [done |].
  simpl. case_decide; [done |]. rw IH. apply Permutation_swap.
Qed.

Lemma sort_keyed_Permutation l : foldr insert_keyed [] l ≡ₚ l.
Proof.
  induction l as [| x l IH]; [done |]. simpl. by rw insert_keyed_Permutation IH.
Qed.

Lemma insert_keyed_sorted x l :
  StronglySorted (fun a b : Z * string => a.1 ≤ b.1) l →
  StronglySorted (fun a b : Z * string => a.1 ≤ b.1) (insert_keyed x l).
Proof.
  induction 1 as [| y l Hs IH Hall]; simpl.
  - repeat constructor.
  - case_decide as Hle.
    + constructor; [by constructor |].
      constructor; [done |]. eapply Forall_impl; [done |]. simpl. lia.
    + constructor; [done |].
      rw insert_keyed_Permutation. constructor; [lia | done].
Qed.

Lemma sort_keyed_sorted l :
  StronglySorted (fun a b : Z * string => a.1 ≤ b.1) (foldr insert_keyed [] l).
Proof.
  induction l as [| x l IH]; [constructor |]. simpl. by apply insert_keyed_sorted.
Qed.

(** An entry goes in front of the entries of its own key. *)
Lemma filter_insert_keyed (k : Z) x l :
  filter (fun a : Z * string => a.1 = k) (insert_keyed x l) =
  filter (fun a : Z * string => a.1 = k) (x :: l).
Proof.
  induction l as [| y l IH]; [done |].
  simpl. case_decide as Hle; [done |].
  rw filter_cons IH !filter_cons.
  repeat case_decide; try done. lia.
Qed.

Lemma filter_sort_keyed (k : Z) l :
  filter (fun a : Z * string => a.1 = k) (foldr insert_keyed [] l) =
  filter (fun a : Z * string => a.1 = k) l.
Proof.
  induction l as [| x l IH]; [done |].
  simpl. by rw filter_insert_keyed !filter_cons IH.
Qed.

Lemma insert_path_Permutation x l : insert_path x l ≡ₚ x :: l.
Proof.
  induction l as [| y l IH]; [done |].
  simpl. destruct (String.leb x y); [done |]. rw IH. apply Permutation_swap.
Qed.

Lemma sort_paths_Permutation l : foldr insert_path [] l ≡ₚ l.
Proof.
  induction l as [| x l IH]; [done |]. simpl. by rw insert_path_Permutation IH.
Qed.

Lemma insert_path_sorted x l :
  Sorted (fun a b => String.leb a b = true) l →
  Sorted (fun a b => String.leb a b = true) (insert_path x l).
Proof.
  induction 1 as [| y l Hs IH Hhd]; simpl.
  - repeat constructor.
  - destruct (String.leb x y) eqn:Hle.
    + constructor; [by constructor |]. by constructor.
    + constructor; [done |].
      assert (String.leb y x = true) as Hyx.
      { destruct (String.leb_total x y); [congruence | done]. }
      destruct l as [| z l]; simpl in *; [by constructor |].
      destruct (String.leb x z); constructor; [done |]. by inversion Hhd.
Qed.

Lemma sort_paths_sorted l :
  Sorted (fun a b => String.leb a b = true) (foldr insert_path [] l).
Proof.
  induction l as [| x l IH]; [constructor |]. simpl. by apply insert_path_sorted.
Qed.

Lemma sorted_keyed_paths (l : list (Z * string)) :
  (∀ a, a ∈ l → stem_number a.2 = Some a.1) →
  StronglySorted (fun a b : Z * string => a.1 ≤ b.1) l →
  StronglySorted (fun f g => key f ≤ key g) l.*2.
Proof.
  intros Hkey. induction 1 as [| a l Hs IH Hall]; [constructor |].
  rw fmap_cons. constructor.
  - apply IH. intros b Hb. by apply Hkey, list_elem_of_further.
  - apply Forall_fmap, Forall_forall. intros b Hb. simpl. unfold key.
    rw (Hkey a (list_elem_of_here _ _)) (Hkey b (list_elem_of_further _ _ _ Hb)) /=.
    rewrite -> Forall_forall in Hall. by apply Hall.
Qed.

Lemma filter_keyed_paths (k : Z) (l : list (Z * string)) :
  (∀ a, a ∈ l → stem_number a.2 = Some a.1) →
  filter (fun f => stem_number f = Some k) l.*2 =
  (filter (fun a : Z * string => a.1 = k) l).*2.
Proof.
  induction l as [| a l IH]; intros Hkey; [done |].
  assert (∀ b, b ∈ l → stem_number b.2 = Some b.1) as Hkey'.
  { intros b Hb. by apply Hkey, list_elem_of_further. }
  pose proof (Hkey a (list_elem_of_here _ _)) as Ha.
  rw fmap_cons !filter_cons (IH Hkey').
  destruct (decide (a.1 = k)) as [Hk | Hk].
  - rw decide_True; [done | by rw Ha Hk].
  - rw decide_False; [done | rw Ha; congruence].
Qed.

End frame_order.

(** X26: before ids are assigned the frames found are sorted, and no frame
    is lost or repeated by it. When every file name is a number the frames
    are in ascending order of that number, frames of equal number in the
    order in which they were found; as soon as one file name is not a
    number, all frames are in the order of their paths as strings. *)
Theorem frames_sorted_before_numbering (stem_number : string → option Z)
    (found : list string) :
  sort_frames stem_number found ≡ₚ found ∧
  ((∀ f, f ∈ found → is_Some (stem_number f)) →
   StronglySorted (fun f g => default 0 (stem_number f) ≤ default 0 (stem_number g))
                  (sort_frames stem_number found) ∧
   ∀ k, filter (fun f => stem_number f = Some k) (sort_frames stem_number found) =
        filter (fun f => stem_number f = Some k) found) ∧
  ((∃ f, f ∈ found ∧ stem_number f = None) →
   Sorted (fun a b => String.leb a b = true) (sort_frames stem_number found)).
Proof.
  unfold sort_frames. split_and!.
  - destruct (stem_keys stem_number found) as [keyed |] eqn:Hk.
    + apply stem_keys_Some in Hk as [<- _]. by rw sort_keyed_Permutation.
    + apply sort_paths_Permutation.
  - intros Hall. destruct (stem_keys stem_number found) as [keyed |] eqn:Hk.
    2:{ apply stem_keys_None in Hk as (f & Hin & Hf). apply Hall in Hin as [k Hk].
        congruence. }
    apply stem_keys_Some in Hk as [<- Hkey].
    assert (∀ a, a ∈ foldr insert_keyed [] keyed → stem_number a.2 = Some a.1) as Hkey'.
    { intros a. rw sort_keyed_Permutation. apply Hkey. }
    split.
    + apply sorted_keyed_paths; [done | apply sort_keyed_sorted].
    + intros k. by rw !filter_keyed_paths // filter_sort_keyed.
  - intros Hnone%stem_keys_None. rw Hnone. apply sort_paths_sorted.
Qed.
